(** * Group-sparse covariance estimation (nilearn/group_sparse_covariance.py)

    A shallow embedding of the block-coordinate-descent solver of
    [nilearn/group_sparse_covariance.py] and the proofs of its specified
    properties.

    Conventions of the embedding.
    - Floating-point numbers are idealised as real numbers ([R]); the IEEE
      special values are kept for the validation of [rho] ([pyfloat]).  A
      division by zero, which numpy answers with an infinity or a NaN, is
      the division of [R] ([x / 0 = 0]); the statements say where one occurs
      ([row_denominator], [col_denominator]).
    - A numpy array is a shape and a total indexing function; only the
      entries inside the shape are meaningful.  In-place updates return the
      updated function.
    - The arrays that can be reached by the caller (the task matrices, the
      warm start, the returned stacks) live in a store indexed by locations,
      and every in-place assignment to them is a write to that store.
    - The run is the production path: [debug=False], no printing
      ([verbose] only prints).
    - Library routines that are not part of the repository
      ([sklearn.covariance.empirical_covariance], [numpy.linalg.inv],
      [sklearn.utils.extmath.fast_logdet]) and the helper [is_spd] are the
      fields of the class [Library]; [scipy.optimize.newton] is written out
      ([newton]) because the solver's behaviour depends on how it iterates. *)

From Stdlib Require Import Reals Lra Lia ZArith List Bool Arith String.
From Stdlib Require Import FunctionalExtensionality.
From stdpp Require Import gmap.

Open Scope R_scope.

(** ** Numeric arrays *)

Definition vec := nat -> R.
Definition mat := nat -> nat -> R.
(** A stack of matrices, indexed [i, j, k] as the source does
    (task index last). *)
Definition stack := nat -> nat -> nat -> R.

(** [f 0 + ... + f (n-1)]: numpy's [.sum()] over an axis of length [n]. *)
Fixpoint rsum (n : nat) (f : nat -> R) : R :=
  match n with
  | O => 0
  | S n' => rsum n' f + f n'
  end.

(** [np.dot] of two 1-D arrays of length [n]. *)
Definition dot (n : nat) (a b : vec) : R := rsum n (fun i => a i * b i).

(** [np.dot(v, A)] for a 1-D [v] of length [n]. *)
Definition vecmat (n : nat) (v : vec) (A : mat) : vec :=
  fun j => rsum n (fun i => v i * A i j).

(** [np.dot(A, v)] for a 1-D [v] of length [n]. *)
Definition matvec (n : nat) (A : mat) (v : vec) : vec :=
  fun i => rsum n (fun j => A i j * v j).

(** [np.outer(a, b)]. *)
Definition outer (a b : vec) : mat := fun i j => a i * b j.

(** [np.dot(A, B)] of two [n] x [n] matrices. *)
Definition matmul (n : nat) (A B : mat) : mat :=
  fun i j => rsum n (fun l => A i l * B l j).

(** [np.eye]. *)
Definition eye : mat := fun i j => if (i =? j)%nat then 1 else 0.

(** [A[..., k]] and the assignment [A[..., k] = M]. *)
Definition slice (A : stack) (k : nat) : mat := fun i j => A i j k.
Definition set_slice (A : stack) (k : nat) (M : mat) : stack :=
  fun i j k' => if (k' =? k)%nat then M i j else A i j k'.

(** A concrete matrix from its rows. *)
Definition mat_of_rows (rows : list (list R)) : mat :=
  fun i j => nth j (nth i rows nil) 0.

(** A stack all of whose tasks hold the same matrix. *)
Definition stack_of (M : mat) : stack := fun i j _ => M i j.

(** The index of the [i]-th remaining row once row [p] is removed:
    [full[:p]] followed by [full[p+1:]]. *)
Definition skip (p i : nat) : nat := if (i <? p)%nat then i else S i.

(** [full] with row and column [p] removed (the debugging helper
    [assert_submatrix] builds it from four blocks). *)
Definition submatrix (full : mat) (p : nat) : mat :=
  fun i j => full (skip p i) (skip p j).

(** ** Python values that can be passed as [rho] *)

Inductive pyfloat :=
| FNum (x : R)
| FPosInf
| FNegInf
| FNaN.

(** The module is Python 2 code ([xrange]): a [long] is not an [int]. *)
Inductive pyval :=
| PyInt (z : Z)
| PyLong (z : Z)
| PyBool (b : bool)
| PyFloat (f : pyfloat)
| PyStr (s : string)
| PyNone.

(** ** Exceptions and warnings *)

Inductive exn :=
| ValueError_rho           (* "rho must be a positive number" *)
| ValueError_not_iterable  (* "'tasks' input argument must be an iterable" *)
| ValueError_features      (* "All tasks must have the same number of ..." *)
| IndexError_no_task       (* tasks[0] of an empty sequence *)
| ValueError_negative_dimensions (* np.ndarray with a negative dimension *)
| IndexError_shape         (* omega.shape[2] of an array with fewer axes *)
| LinAlgError              (* np.linalg.inv of a singular matrix *)
| RuntimeError_newton      (* scipy: "Failed to converge after 50 ..." *)
| AssertionError_spd.      (* assert is_spd(omega_inv), cost evaluator *)

Inductive result (A : Type) :=
| Return (a : A)
| Raise (e : exn).
Arguments Return {A} a.
Arguments Raise {A} e.

(** ** The store *)

Record ndarray := { shape : list nat; data : list nat -> R }.

(** Locations are positive numbers; the store is a finite map. *)
Abbreviation loc := positive (only parsing).
Abbreviation heap := (gmap positive ndarray) (only parsing).

#[global] Instance ndarray_inhabited : Inhabited ndarray :=
  populate {| shape := nil; data := fun _ => 0 |}.

(** Views of a stored array as a matrix or a stack, and back. *)
Definition as_mat (a : ndarray) : mat := fun i j => data a (i :: j :: nil).
Definition as_stack (a : ndarray) : stack :=
  fun i j k => data a (i :: j :: k :: nil).
Definition array2 (r c : nat) (M : mat) : ndarray :=
  {| shape := r :: c :: nil;
     data := fun ix => match ix with
                       | i :: j :: nil => M i j
                       | _ => 0
                       end |}.
Definition array3 (sh : list nat) (A : stack) : ndarray :=
  {| shape := sh;
     data := fun ix => match ix with
                       | i :: j :: k :: nil => A i j k
                       | _ => 0
                       end |}.

(** [a.shape[d]]. *)
Definition dim (a : ndarray) (d : nat) : nat := nth d (shape a) O.

(** A location that the store does not use yet (a new array object). *)
Definition alloc (h : heap) : loc := fresh (dom h).

(** ** Library routines *)

Class Library := {
  (** [sklearn.covariance.empirical_covariance(X, assume_centered)]: a
      square matrix of order [X.shape[1]]. *)
  empirical_covariance : ndarray -> bool -> mat;
  (** [np.linalg.inv] of a matrix of order [n]; [None] is [LinAlgError]. *)
  linalg_inv : nat -> mat -> option mat;
  (** [fast_logdet] of a matrix of order [n]. *)
  fast_logdet : nat -> mat -> R;
  (** [nilearn.testing.is_spd] on a matrix of order [n]. *)
  is_spd : nat -> mat -> bool
}.

(** ** [symmetrize] *)

(** [M[...] = M + M.T; M[...] /= 2.]  The sum is built before it is stored,
    so the transposed view reads the old entries. *)
Definition symmetrize (M : mat) : mat :=
  let M1 : mat := fun i j => M i j + M j i in
  fun i j => M1 i j / 2.

(** ** [quad_trust_region] and its derivative *)

(** The arrays [q], [two_ccq], [cc] have length [n] (the number of tasks). *)
Definition quad_trust_region (n : nat) (alpha : R) (q two_ccq cc : vec)
    (rho2 : R) : R :=
  rho2 - rsum n (fun k => cc k / ((1 + alpha * q k) ^ 2)).

Definition quad_trust_region_deriv (n : nat) (alpha : R) (q two_ccq cc : vec)
    (rho2 : R) : R :=
  rsum n (fun k => two_ccq k / (1 + alpha * q k) ^ 3).

(** ** [scipy.optimize.newton] with [fprime] given

    The Newton-Raphson branch of the library routine as its documentation
    and the specification describe it: from [p0], at most [maxiter] steps
    [p = p0 - func(p0) / fprime(p0)]; the routine returns [p] as soon as
    [abs(p - p0) < tol], returns [p0] (with a RuntimeWarning) when the
    derivative is zero, and raises RuntimeError when the steps are used up.
    The second component counts the steps taken. *)

Inductive newton_exit :=
| Root (p : R)            (* the step fell below the tolerance *)
| ZeroDerivative (p0 : R) (* "derivative was zero" *)
| NotConverged.           (* RuntimeError *)

Fixpoint newton_steps (func fprime : R -> R) (tol : R) (maxiter : nat)
    (p0 : R) : newton_exit * nat :=
  match maxiter with
  | O => (NotConverged, O)
  | S fuel =>
      let fder := fprime p0 in
      if Req_dec_T fder 0 then (ZeroDerivative p0, 1%nat)
      else
        let fval := func p0 in
        let p := p0 - fval / fder in
        if Rlt_dec (Rabs (p - p0)) tol then (Root p, 1%nat)
        else
          let '(r, n) := newton_steps func fprime tol fuel p in
          (r, S n)
  end.

Definition newton (func : R -> R) (x0 : R) (fprime : R -> R) (tol : R)
    (maxiter : nat) : newton_exit * nat :=
  newton_steps func fprime tol maxiter (1 * x0).

(** The value the call evaluates to, if it returns. *)
Definition newton_value (r : newton_exit) : option R :=
  match r with
  | Root p => Some p
  | ZeroDerivative p0 => Some p0
  | NotConverged => None
  end.

(** ** [update_vectors] and [update_submatrix] *)

(** [v[:n + 1] = full[:n + 1, n]; v[n + 1:] = full[n + 2:, n]] and the same
    for the row [h]. *)
Definition update_vectors (full : mat) (n : nat) : vec * vec :=
  let v : vec := fun i => if (i <=? n)%nat then full i n else full (S i) n in
  let h : vec := fun j => if (j <=? n)%nat then full n j else full n (S j) in
  (h, v).

(** [full] has order [N]; [sub] and [sub_inv] have order [N - 1] and are
    modified in place: the pair returned is their new contents.  The caller
    passes [p >= 1]. *)
Definition update_submatrix (N : nat) (full sub sub_inv : mat) (p : nat)
    : mat * mat :=
  let n := (p - 1)%nat in
  let M := (N - 1)%nat in
  let '(h, v) := update_vectors full n in
  (* change row *)
  let coln : vec := fun i => sub_inv i n in
  let V : vec := fun j => h j - sub n j in
  let coln : vec := fun i => coln i / (1 + dot M V coln) in
  let sub_inv : mat :=
    fun i j => sub_inv i j - outer coln (vecmat M V sub_inv) i j in
  let sub : mat := fun i j => if (i =? n)%nat then h j else sub i j in
  (* change column *)
  let rown : vec := fun j => sub_inv n j in
  let U : vec := fun i => v i - sub i n in
  let rown : vec := fun j => rown j / (1 + dot M rown U) in
  let sub_inv : mat :=
    fun i j => sub_inv i j - outer (matvec M sub_inv U) rown i j in
  let sub : mat := fun i j => if (j =? n)%nat then v i else sub i j in
  (sub, sub_inv).

(** ** Loops *)

(** [for i in xrange(start, start + count): body(i)] over a state, stopping
    at the first exception; the state reached is returned in both cases. *)
Fixpoint for_range {St : Type} (body : nat -> St -> St * option exn)
    (start count : nat) (s : St) : St * option exn :=
  match count with
  | O => (s, None)
  | S c =>
      match body start s with
      | (s', Some e) => (s', Some e)
      | (s', None) => for_range body (S start) c s'
      end
  end.

(** ** [empirical_covariances] *)

(** The [tasks] argument: a sequence of array objects, or an object without
    [__iter__]. *)
Inductive tasks_arg :=
| TaskSeq (l : list loc)
| NotIterable.

Section Solver.
Context {L : Library}.

(** [for k, s in enumerate(tasks)]: both statements write into the array
    object [emp_covs]. *)
Fixpoint covariance_loop (h : heap) (emp : loc) (tasks : list loc) (k : nat)
    (assume_centered : bool) : heap :=
  match tasks with
  | nil => h
  | s :: rest =>
      (* emp_covs[..., k] = empirical_covariance(s, assume_centered) *)
      let E := h !!! emp in
      let h := <[emp := array3 (shape E)
                   (set_slice (as_stack E) k
                      (empirical_covariance (h !!! s) assume_centered))]> h in
      (* symmetrize(emp_covs[..., k]) *)
      let E := h !!! emp in
      let h := <[emp := array3 (shape E)
                   (set_slice (as_stack E) k
                      (symmetrize (slice (as_stack E) k)))]> h in
      covariance_loop h emp rest (S k) assume_centered
  end.

(** [np.asarray([s.shape[0] for s in tasks])] followed by
    [n_samples /= n_samples.sum()]. *)
Definition sample_counts (h : heap) (l : list loc) : vec :=
  fun k => INR (nth k (map (fun s => dim (h !!! s) 0) l) O).

Definition normalize (n : nat) (counts : vec) : vec :=
  fun k => counts k / rsum n counts.

(** Returns the store and [(emp_covs, n_samples, n_tasks, n_var)];
    [emp_covs] is a new array object.  The tasks are arrays with two axes
    ("each task is a 2D array"): on an array with fewer axes [s.shape[1]]
    raises IndexError in the source, where [dim] reads 0, so the statements
    on this function that depend on it take the two axes as a
    hypothesis. *)
Definition empirical_covariances (h : heap) (tasks : tasks_arg)
    (assume_centered : bool) : heap * result (loc * vec * nat * nat) :=
  match tasks with
  | NotIterable => (h, Raise ValueError_not_iterable)
  | TaskSeq l =>
      let feats := map (fun s => dim (h !!! s) 1) l in
      if bool_decide (1 < size (list_to_set (C := gset nat) feats))%nat
      then (h, Raise ValueError_features)
      else
        let n_tasks := length l in
        match l with
        | nil => (h, Raise IndexError_no_task)
        | s0 :: _ =>
            let n_var := dim (h !!! s0) 1 in
            let emp := alloc h in
            let h1 := <[emp := array3 (n_var :: n_var :: n_tasks :: nil)
                               (fun _ _ _ => 0)]> h in
            let h2 := covariance_loop h1 emp l O assume_centered in
            (h2, Return (emp, normalize n_tasks (sample_counts h l),
                         n_tasks, n_var))
        end
  end.

(** ** The coordinate solver (the body of the loop on [m]) *)

(** [h_12[:, :m] = Winv[:m, m, :].T; h_12[:, m:] = Winv[m + 1:, m, :].T] *)
Definition h_12 (Winv : stack) (m : nat) : mat :=
  fun k j => Winv (skip m j) m k.

(** [y_1[:, :m] = y[:, :m]; y_1[:, m:] = y[:, m + 1:]] *)
Definition y_1 (y : mat) (m : nat) : mat :=
  fun k j => y k (skip m j).

(** [c[:] = - n_samples * (emp_covs[p, p, :] * (h_12 * y_1).sum(axis=1)
                            + u[:, m])] *)
Definition coord_c (n_var : nat) (n_samples : vec) (emp_covs Winv : stack)
    (u y : mat) (p m : nat) : vec :=
  fun k => - n_samples k *
           (emp_covs p p k *
              rsum (n_var - 2) (fun j => h_12 Winv m k j * y_1 y m k j)
            + u k m).

(** [q = n_samples * emp_covs[p, p, :] * Winv[m, m, :]] *)
Definition coord_q (n_samples : vec) (emp_covs Winv : stack) (p m : nat)
    : vec :=
  fun k => n_samples k * emp_covs p p k * Winv m m k.

(** The function whose root is sought and its derivative, as the call
    [scipy.optimize.newton(quad_trust_region, 0, fprime=..., args=(q,
    two_ccq, cc, rho ** 2), ...)] sees them. *)
Definition coord_g (n_tasks : nat) (c q : vec) (rho : R) : R -> R :=
  fun alpha =>
    quad_trust_region n_tasks alpha q
      (fun k => 2 * (c k * c k) * q k) (fun k => c k * c k) (rho ^ 2).

Definition coord_g' (n_tasks : nat) (c q : vec) (rho : R) : R -> R :=
  fun alpha =>
    quad_trust_region_deriv n_tasks alpha q
      (fun k => 2 * (c k * c k) * q k) (fun k => c k * c k) (rho ^ 2).

(** [y[:, m] = x] *)
Definition set_column (y : mat) (m : nat) (x : vec) : mat :=
  fun k j => if (j =? m)%nat then x k else y k j.

(** One pass of the loop body for the coordinate [m]: the new [y] and
    whether "Newton-Raphson step did not converge" was warned. *)
Definition coordinate_update (n_tasks n_var : nat) (n_samples : vec)
    (emp_covs Winv : stack) (u : mat) (rho : R) (p m : nat) (y : mat)
    : result (mat * bool) :=
  let c := coord_c n_var n_samples emp_covs Winv u y p m in
  let c2 := sqrt (dot n_tasks c c) in
  if Rle_dec c2 rho then
    Return (set_column y m (fun _ => 0), false)
  else
    let q := coord_q n_samples emp_covs Winv p m in
    match newton_value
            (fst (newton (coord_g n_tasks c q rho) 0
                         (coord_g' n_tasks c q rho)
                         (15 / 10000000) 50)) with
    | None => Raise RuntimeError_newton
    | Some alpha =>
        let remainder := coord_g n_tasks c q rho alpha in
        let warned := if Rgt_dec (Rabs remainder) (1 / 10)
                      then true else false in
        Return (set_column y m
                  (fun k => (alpha * c k) / (1 + alpha * q k)), warned)
    end.

(** The loop body on the pair of [y] and the number of warnings emitted so
    far: an exception of the root-find leaves the loop, a warning does not. *)
Definition coordinate_step (n_tasks n_var : nat) (n_samples : vec)
    (emp_covs Winv : stack) (u : mat) (rho : R) (p m : nat)
    (yw : mat * nat) : (mat * nat) * option exn :=
  let '(y, w) := yw in
  match coordinate_update n_tasks n_var n_samples emp_covs Winv u rho
          p m y with
  | Raise e => ((y, w), Some e)
  | Return (y', warned) => ((y', if warned then S w else w), None)
  end.

(** [for m in xrange(n_var - 1)]. *)
Definition coordinate_descent (n_tasks n_var : nat) (n_samples : vec)
    (emp_covs Winv : stack) (u : mat) (rho : R) (p : nat)
    (yw : mat * nat) : (mat * nat) * option exn :=
  for_range (coordinate_step n_tasks n_var n_samples emp_covs Winv u rho p)
    O (n_var - 1) yw.

(** ** The submatrix maintainer inside the sweep *)

(** [for k in xrange(W.shape[2]): Winv[..., k] = np.linalg.inv(W[..., k])] *)
Fixpoint inv_stack (M : nat) (W : stack) (n_k : nat) (Winv : stack)
    : result stack :=
  match n_k with
  | O => Return Winv
  | S k =>
      match inv_stack M W k Winv with
      | Raise e => Raise e
      | Return Winv' =>
          match linalg_inv M (slice W k) with
          | None => Raise LinAlgError
          | Some B => Return (set_slice Winv' k B)
          end
      end
  end.

(** [for k in xrange(n_tasks): update_submatrix(omega[..., k], W[..., k],
    Winv[..., k], p)]: the new [W] and [Winv]. *)
Definition update_stack (n_tasks n_var : nat) (omega W Winv : stack)
    (p : nat) : stack * stack :=
  (fun i j k =>
     if (k <? n_tasks)%nat
     then fst (update_submatrix n_var (slice omega k) (slice W k)
                 (slice Winv k) p) i j
     else W i j k,
   fun i j k =>
     if (k <? n_tasks)%nat
     then snd (update_submatrix n_var (slice omega k) (slice W k)
                 (slice Winv k) p) i j
     else Winv i j k).

(** The branch on [p == 0]. *)
Definition submatrix_phase (n_tasks n_var : nat) (omega W Winv : stack)
    (p : nat) : result (stack * stack) :=
  if (p =? 0)%nat then
    (* W = omega[1:, 1:, :].copy(); Winv = np.ndarray(shape=W.shape) *)
    let W : stack := fun i j k => omega (S i) (S j) k in
    match inv_stack (n_var - 1) W n_tasks (fun _ _ _ => 0) with
    | Raise e => Raise e
    | Return Winv => Return (W, Winv)
    end
  else Return (update_stack n_tasks n_var omega W Winv p).

(** ** Copying [y] back into [omega] *)

(** The position in [y] of the row [i <> p] of [omega]. *)
Definition unskip (p i : nat) : nat := if (i <? p)%nat then i else (i - 1)%nat.

Definition write_back (n_tasks n_var : nat) (emp_covs Winv omega : stack)
    (y : mat) (p : nat) : stack :=
  (* omega[:p, p, :] = y[:, :p].T; omega[p + 1:, p, :] = y[:, p:].T *)
  let omega : stack :=
    fun i j k =>
      if (j =? p)%nat && negb (i =? p)%nat then y k (unskip p i)
      else omega i j k in
  (* omega[p, :p, :] = y[:, :p].T; omega[p, p + 1:, :] = y[:, p:].T *)
  let omega : stack :=
    fun i j k =>
      if (i =? p)%nat && negb (j =? p)%nat then y k (unskip p j)
      else omega i j k in
  (* for k in xrange(n_tasks): omega[p, p, k] = 1. / emp_covs[p, p, k]
       + np.dot(np.dot(y[k, :], Winv[..., k]), y[k, :]) *)
  fun i j k =>
    if (i =? p)%nat && (j =? p)%nat && (k <? n_tasks)%nat
    then 1 / emp_covs p p k
         + dot (n_var - 1) (vecmat (n_var - 1) (y k) (slice Winv k)) (y k)
    else omega i j k.

(** ** The cost evaluator [_group_sparse_covariance_costs] *)

(** [(omega[..., k] * emp_covs[..., k]).sum()] *)
Definition scalar_product (n_var : nat) (A B : mat) : R :=
  rsum n_var (fun i => rsum n_var (fun j => A i j * B i j)).

(** [np.sqrt((A ** 2).sum(axis=-1))] *)
Definition group_norm (n_tasks : nat) (A : stack) : mat :=
  fun i j => sqrt (rsum n_tasks (fun k => A i j k ^ 2)).

(** The loop that fills [A]: [omega_inv = np.linalg.inv(omega[..., k]);
    assert is_spd(omega_inv); A[..., k] = n_samples[k] * (omega_inv -
    emp_covs[..., k])]. *)
Fixpoint dual_point (n_var : nat) (n_samples : vec) (omega emp_covs : stack)
    (n_k : nat) (A : stack) : result stack :=
  match n_k with
  | O => Return A
  | S k =>
      match dual_point n_var n_samples omega emp_covs k A with
      | Raise e => Raise e
      | Return A' =>
          match linalg_inv n_var (slice omega k) with
          | None => Raise LinAlgError
          | Some omega_inv =>
              if is_spd n_var omega_inv then
                Return (set_slice A' k
                          (fun i j => n_samples k *
                                      (omega_inv i j - emp_covs i j k)))
              else Raise AssertionError_spd
          end
      end
  end.

(** Returns [(cost, gap)]. *)
Definition group_sparse_covariance_costs (n_tasks n_var : nat)
    (n_samples : vec) (rho : R) (omega emp_covs : stack) : result (R * R) :=
  (* Primal cost *)
  let ll := rsum n_tasks (fun k =>
              n_samples k *
              (fast_logdet n_var (slice omega k)
               - scalar_product n_var (slice omega k) (slice emp_covs k))) in
  let l2 := group_norm n_tasks omega in
  let l12 := rsum n_var (fun i => rsum n_var (fun j => l2 i j))
             - rsum n_var (fun i => l2 i i) in
  let cost := - (ll - rho * l12) in
  (* Dual cost *)
  match dual_point n_var n_samples omega emp_covs n_tasks (fun _ _ _ => 0) with
  | Raise e => Raise e
  | Return A =>
      (* Project A on the set of feasible points *)
      let rho_max := group_norm n_tasks A in
      let A : stack :=
        fun i j k =>
          if (i =? j)%nat then 0
          else if Rgt_dec (rho_max i j) rho
               then A i j k * (rho / rho_max i j)
               else A i j k in
      let dual_cost := rsum n_tasks (fun k =>
                         n_samples k *
                         (INR n_var
                          + fast_logdet n_var
                              (fun i j => emp_covs i j k
                                          + A i j k / n_samples k))) in
      Return (cost, cost - dual_cost)
  end.

(** ** [group_sparse_covariance] *)

(** [not isinstance(rho, (int, float)) or rho < 0]; [bool] is a subclass of
    [int], and every comparison with NaN is false. *)
Definition rho_rejected (rho : pyval) : bool :=
  match rho with
  | PyInt z => (z <? 0)%Z
  | PyLong _ => true
  | PyBool _ => false
  | PyFloat (FNum x) => if Rlt_dec x 0 then true else false
  | PyFloat FNegInf => true
  | PyFloat FPosInf => false
  | PyFloat FNaN => false
  | PyStr _ => true
  | PyNone => true
  end.

(** The real number a finite numeric [rho] stands for. *)
Definition rho_real (rho : pyval) : option R :=
  match rho with
  | PyInt z => Some (IZR z)
  | PyBool b => Some (if b then 1 else 0)
  | PyFloat (FNum x) => Some x
  | _ => None
  end.

(** The local arrays that live across the steps of a sweep, the store, and
    the number of warnings emitted. *)
Record state := {
  st_heap : heap;
  st_W : stack;
  st_Winv : stack;
  st_warnings : nat
}.

(** The body of [for p in xrange(n_var)], on a stack [omega] that has the
    shape of [emp_covs] (see [MisfitStart]). *)
Definition step_p (omega_loc emp_loc : loc) (n_samples : vec)
    (n_tasks n_var : nat) (rho : R) (p : nat) (s : state)
    : state * option exn :=
  let h := st_heap s in
  let omega := as_stack (h !!! omega_loc) in
  let emp_covs := as_stack (h !!! emp_loc) in
  match submatrix_phase n_tasks n_var omega (st_W s) (st_Winv s) p with
  | Raise e => (s, Some e)
  | Return (W, Winv) =>
      (* y[:, :p] = omega[:p, p, :].T; y[:, p:] = omega[p + 1:, p, :].T *)
      let y : mat := fun k j => omega (skip p j) p k in
      (* u[:, :p] = emp_covs[:p, p, :].T; u[:, p:] = emp_covs[p + 1:, p, :].T *)
      let u : mat := fun k j => emp_covs (skip p j) p k in
      match coordinate_descent n_tasks n_var n_samples emp_covs Winv u
              rho p (y, st_warnings s) with
      | ((_, w), Some e) =>
          ({| st_heap := h; st_W := W; st_Winv := Winv;
              st_warnings := w |}, Some e)
      | ((y, w), None) =>
          let omega' := write_back n_tasks n_var emp_covs Winv omega y p in
          ({| st_heap := <[omega_loc :=
                             array3 (shape (h !!! omega_loc)) omega']> h;
              st_W := W; st_Winv := Winv; st_warnings := w |}, None)
      end
  end.

(** One full sweep: [for p in xrange(n_var)]. *)
Definition sweep (omega_loc emp_loc : loc) (n_samples : vec)
    (n_tasks n_var : nat) (rho : R) (s : state) : state * option exn :=
  for_range (step_p omega_loc emp_loc n_samples n_tasks n_var rho) O n_var s.

(** What the outer loop has produced: the state, the cost trace, the number
    of sweeps completed (kept for the proofs; [len(costs)] when
    [return_costs]), and the exception that ended it, if any. *)
Record progress := {
  pr_state : state;
  pr_costs : list (R * R);
  pr_sweeps : nat;
  pr_raised : option exn
}.

(** [for n in xrange(max_iter)], with [remaining] sweeps still allowed. *)
Fixpoint optimize (omega_loc emp_loc : loc) (n_samples : vec)
    (n_tasks n_var : nat) (rho : R) (tol : option R) (return_costs : bool)
    (remaining : nat) (s : state) (costs : list (R * R)) (done : nat)
    : progress :=
  match remaining with
  | O => {| pr_state := s; pr_costs := costs; pr_sweeps := done;
            pr_raised := None |}
  | S rest =>
      match sweep omega_loc emp_loc n_samples n_tasks n_var rho s with
      | (s', Some e) =>
          {| pr_state := s'; pr_costs := costs; pr_sweeps := done;
             pr_raised := Some e |}
      | (s', None) =>
          if return_costs || bool_decide (is_Some tol) then
            (* objective, duality_gap = _group_sparse_covariance_costs(...) *)
            match group_sparse_covariance_costs n_tasks n_var n_samples rho
                    (as_stack (st_heap s' !!! omega_loc))
                    (as_stack (st_heap s' !!! emp_loc)) with
            | Raise e =>
                {| pr_state := s'; pr_costs := costs; pr_sweeps := S done;
                   pr_raised := Some e |}
            | Return (objective, duality_gap) =>
                let costs' := if return_costs
                              then (costs ++ (objective, duality_gap) :: nil)%list
                              else costs in
                match tol with
                | Some t =>
                    if Rlt_dec duality_gap t
                    then (* break *)
                      {| pr_state := s'; pr_costs := costs';
                         pr_sweeps := S done; pr_raised := None |}
                    else optimize omega_loc emp_loc n_samples n_tasks n_var
                           rho tol return_costs rest s' costs' (S done)
                | None =>
                    optimize omega_loc emp_loc n_samples n_tasks n_var
                      rho tol return_costs rest s' costs' (S done)
                end
            end
          else
            optimize omega_loc emp_loc n_samples n_tasks n_var
              rho tol return_costs rest s' costs (S done)
      end
  end.

(** [for k in xrange(n_tasks): omega[..., k] = np.diag(1. /
    np.diag(emp_covs[..., k]))], writing into the array object [omega]. *)
Fixpoint default_init (h : heap) (omega_loc emp_loc : loc) (n_k : nat)
    : heap :=
  match n_k with
  | O => h
  | S k =>
      let h := default_init h omega_loc emp_loc k in
      let emp_covs := as_stack (h !!! emp_loc) in
      let om := h !!! omega_loc in
      <[omega_loc := array3 (shape om)
          (set_slice (as_stack om) k
             (fun i j => if (i =? j)%nat then 1 / emp_covs i i k else 0))]> h
  end.

(** The preallocation of the work arrays: [y_1] and [h_12] have
    [n_var - 2] columns, [W] has shape [(omega.shape[0] - 1,
    omega.shape[1] - 1, omega.shape[2])]. *)
Definition preallocate (n_var : nat) (omega : ndarray) : option exn :=
  if (n_var <? 2)%nat then Some ValueError_negative_dimensions
  else
    match shape omega with
    | s0 :: s1 :: s2 :: _ =>
        if (s0 =? 0)%nat || (s1 =? 0)%nat
        then Some ValueError_negative_dimensions
        else None
    | _ => Some IndexError_shape
    end.

(** How a call ends.  The last two are not results but the cases that the
    embedding does not follow.  [NonFiniteRho]: the validation has accepted
    a [rho] that is an infinity or a NaN and the sweeps go on with IEEE
    special values, which the real-number model of the arithmetic does not
    follow.  [MisfitStart]: a sweep is asked for on a warm start that has
    not the shape of [emp_covs]; what numpy's indexing, broadcasting and
    [np.linalg.inv] do with such a stack inside the sweep (an exception in
    most cases, which one depends on the values) is not modelled. *)
Inductive outcome :=
| Returned (emp_covs omega : loc) (costs : option (list (R * R)))
| Raised (e : exn)
| NonFiniteRho
| MisfitStart.

Record run := {
  final_heap : heap;
  out : outcome;
  sweeps_done : nat;
  warnings_emitted : nat
}.

Definition stop (h : heap) (o : outcome) : run :=
  {| final_heap := h; out := o; sweeps_done := O; warnings_emitted := O |}.

(** Everything before the optimisation loop: the validation of [rho], the
    empirical covariances, the initial [omega] (a new array object in both
    branches) and the preallocation. *)
Definition initialize (h : heap) (tasks : tasks_arg) (rho : pyval)
    (assume_centered : bool) (precisions_init : option loc)
    : heap * result (loc * loc * vec * nat * nat) :=
  if rho_rejected rho then (h, Raise ValueError_rho)
  else
    match empirical_covariances h tasks assume_centered with
    | (h1, Raise e) => (h1, Raise e)
    | (h1, Return (emp_loc, n_samples, n_tasks, n_var)) =>
        let omega_loc := alloc h1 in
        let h2 :=
          match precisions_init with
          | None =>
              (* omega = np.ndarray(shape=emp_covs.shape, ...) *)
              let h' := <[omega_loc := array3 (shape (h1 !!! emp_loc))
                                         (fun _ _ _ => 0)]> h1 in
              default_init h' omega_loc emp_loc n_tasks
          | Some init =>
              (* omega = precisions_init.copy() *)
              <[omega_loc := h1 !!! init]> h1
          end in
        match preallocate n_var (h2 !!! omega_loc) with
        | Some e => (h2, Raise e)
        | None => (h2, Return (emp_loc, omega_loc, n_samples, n_tasks, n_var))
        end
    end.

Definition group_sparse_covariance (h : heap) (tasks : tasks_arg)
    (rho : pyval) (max_iter : nat) (tol : option R)
    (assume_centered return_costs : bool) (precisions_init : option loc)
    : run :=
  match initialize h tasks rho assume_centered precisions_init with
  | (h2, Raise e) => stop h2 (Raised e)
  | (h2, Return (emp_loc, omega_loc, n_samples, n_tasks, n_var)) =>
      match rho_real rho, max_iter with
      | None, O =>
          (* xrange(0): rho is never used *)
          stop h2 (Returned emp_loc omega_loc
                     (if return_costs then Some nil else None))
      | None, S _ => stop h2 NonFiniteRho
      | Some r, _ =>
          if negb (bool_decide (shape (h2 !!! omega_loc)
                                = shape (h2 !!! emp_loc)))
             && negb (max_iter =? 0)%nat
          then stop h2 MisfitStart
          else
          let s0 := {| st_heap := h2; st_W := fun _ _ _ => 0;
                       st_Winv := fun _ _ _ => 0;
                       st_warnings := O |} in
          let pr := optimize omega_loc emp_loc n_samples n_tasks n_var
                      r tol return_costs max_iter s0 nil O in
          {| final_heap := st_heap (pr_state pr);
             out := match pr_raised pr with
                    | Some e => Raised e
                    | None =>
                        Returned emp_loc omega_loc
                          (if return_costs then Some (pr_costs pr)
                           else None)
                    end;
             sweeps_done := pr_sweeps pr;
             warnings_emitted := st_warnings (pr_state pr) |}
      end
  end.

End Solver.

(** * Properties of matrices used in the statements *)

(** [A] and [B] agree on their first [n] rows and columns. *)
Definition agree (n : nat) (A B : mat) : Prop :=
  forall i j, (i < n)%nat -> (j < n)%nat -> A i j = B i j.

(** [B] is the inverse of [A], both of order [n]: the two products are the
    identity (what the debugging path checks with [np.dot(Winv, W)] against
    [np.eye]). *)
Definition inverse_of (n : nat) (A B : mat) : Prop :=
  agree n (matmul n A B) eye /\ agree n (matmul n B A) eye.

Definition symmetric (n : nat) (A : mat) : Prop :=
  forall i j, (i < n)%nat -> (j < n)%nat -> A i j = A j i.

(** The quadratic form [x^T A x]. *)
Definition quad_form (n : nat) (A : mat) (x : vec) : R :=
  rsum n (fun i => rsum n (fun j => x i * A i j * x j)).

Definition positive_definite (n : nat) (A : mat) : Prop :=
  forall x : vec, (exists i, (i < n)%nat /\ x i <> 0) -> 0 < quad_form n A x.

(** Symmetric positive definite. *)
Definition spd (n : nat) (A : mat) : Prop :=
  symmetric n A /\ positive_definite n A.

(** The two numbers [update_submatrix] divides by: [1. + np.dot(V, coln)]
    in the row change and [1. + np.dot(rown, U)] in the column change. *)
Definition row_denominator (N : nat) (full sub sub_inv : mat) (p : nat) : R :=
  let n := (p - 1)%nat in
  let M := (N - 1)%nat in
  let '(h, v) := update_vectors full n in
  let coln : vec := fun i => sub_inv i n in
  let V : vec := fun j => h j - sub n j in
  1 + dot M V coln.

Definition col_denominator (N : nat) (full sub sub_inv : mat) (p : nat) : R :=
  let n := (p - 1)%nat in
  let M := (N - 1)%nat in
  let '(h, v) := update_vectors full n in
  let coln : vec := fun i => sub_inv i n in
  let V : vec := fun j => h j - sub n j in
  let coln : vec := fun i => coln i / (1 + dot M V coln) in
  let sub_inv : mat :=
    fun i j => sub_inv i j - outer coln (vecmat M V sub_inv) i j in
  let sub : mat := fun i j => if (i =? n)%nat then h j else sub i j in
  let rown : vec := fun j => sub_inv n j in
  let U : vec := fun i => v i - sub i n in
  1 + dot M rown U.

(** The bilinear form [u^T A v]. *)
Definition bil_form (n : nat) (A : mat) (u v : vec) : R :=
  rsum n (fun i => rsum n (fun j => u i * A i j * v j)).

(** The exceptions that can leave a sweep, and those of the cost
    evaluator. *)
Definition sweep_exception (e : exn) : Prop :=
  e = LinAlgError \/ e = RuntimeError_newton.

Definition costs_exception (e : exn) : Prop :=
  e = LinAlgError \/ e = AssertionError_spd.

(** The first [n_tasks] tasks of a stack (of the rows of a per-task
    matrix, of a per-task vector) hold the same values. *)
Definition uniform (n_tasks : nat) (A : stack) : Prop :=
  forall k k', (k < n_tasks)%nat -> (k' < n_tasks)%nat ->
    forall i j, A i j k = A i j k'.

Definition uniform_rows (n_tasks : nat) (y : mat) : Prop :=
  forall k k', (k < n_tasks)%nat -> (k' < n_tasks)%nat ->
    forall j, y k j = y k' j.

Definition uniform_vec (n_tasks : nat) (v : vec) : Prop :=
  forall k k', (k < n_tasks)%nat -> (k' < n_tasks)%nat -> v k = v k'.

(** The state of the sweep holds the same values for every task. *)
Definition uniform_state (omega_loc emp_loc : positive) (n_tasks : nat)
    (s : state) : Prop :=
  uniform n_tasks (as_stack (st_heap s !!! omega_loc)) /\
  uniform n_tasks (as_stack (st_heap s !!! emp_loc)) /\
  uniform n_tasks (st_W s) /\
  uniform n_tasks (st_Winv s).

(** ** The state along a run *)

(** [P p s] holds of the state [s] in which the loop reaches its iteration
    [p], for every iteration it reaches. *)
Fixpoint for_range_always {St : Type} (P : nat -> St -> Prop)
    (body : nat -> St -> St * option exn) (start count : nat) (s : St)
    : Prop :=
  match count with
  | O => True
  | S c =>
      P start s /\
      match body start s with
      | (s', None) => for_range_always P body (S start) c s'
      | (_, Some _) => True
      end
  end.

(** [W] and [Winv] are what the step for the row [p] leaves: for every task
    the submatrix of [omega] that excludes [p], and its inverse. *)
Definition maintained (omega_loc : positive) (n_tasks n_var p : nat)
    (s : state) : Prop :=
  forall k, (k < n_tasks)%nat ->
    agree (n_var - 1) (slice (st_W s) k)
      (submatrix (slice (as_stack (st_heap s !!! omega_loc)) k) p) /\
    inverse_of (n_var - 1) (slice (st_W s) k) (slice (st_Winv s) k).

(** The step for the row [p >= 1] does not divide by zero in
    [update_submatrix]. *)
Definition regular_step (omega_loc : positive) (n_tasks n_var p : nat)
    (s : state) : Prop :=
  (0 < p)%nat ->
  forall k, (k < n_tasks)%nat ->
    row_denominator n_var (slice (as_stack (st_heap s !!! omega_loc)) k)
      (slice (st_W s) k) (slice (st_Winv s) k) p <> 0 /\
    col_denominator n_var (slice (as_stack (st_heap s !!! omega_loc)) k)
      (slice (st_W s) k) (slice (st_Winv s) k) p <> 0.

(** No step of the next [remaining] sweeps divides by zero. *)
Fixpoint regular_run {L : Library} (omega_loc emp_loc : positive)
    (n_samples : vec) (n_tasks n_var : nat) (rho : R) (remaining : nat)
    (s : state) : Prop :=
  match remaining with
  | O => True
  | S rest =>
      for_range_always (regular_step omega_loc n_tasks n_var)
        (step_p omega_loc emp_loc n_samples n_tasks n_var rho) O n_var s /\
      match sweep omega_loc emp_loc n_samples n_tasks n_var rho s with
      | (s', None) =>
          regular_run omega_loc emp_loc n_samples n_tasks n_var rho rest s'
      | (_, Some _) => True
      end
  end.

(** Every task's precision matrix is symmetric positive definite and every
    variance is positive. *)
Definition well_conditioned (omega_loc emp_loc : positive)
    (n_tasks n_var : nat) (s : state) : Prop :=
  (forall k, (k < n_tasks)%nat ->
     spd n_var (slice (as_stack (st_heap s !!! omega_loc)) k)) /\
  (forall p k, (p < n_var)%nat -> (k < n_tasks)%nat ->
     0 < as_stack (st_heap s !!! emp_loc) p p k).

(** ** The sweeps of a run *)

(** The state after [n] full sweeps from [s]; when one of them raises, the
    state that sweep left and its exception. *)
Fixpoint sweeps {L : Library} (omega_loc emp_loc : positive)
    (n_samples : vec) (n_tasks n_var : nat) (rho : R) (n : nat) (s : state)
    : state * option exn :=
  match n with
  | O => (s, None)
  | S m =>
      match sweeps omega_loc emp_loc n_samples n_tasks n_var rho m s with
      | (s', None) => sweep omega_loc emp_loc n_samples n_tasks n_var rho s'
      | (s', Some e) => (s', Some e)
      end
  end.

(** What [_group_sparse_covariance_costs] returns on the stacks that [n]
    sweeps from [s] leave: the evaluation at the [n]-th sweep boundary. *)
Definition costs_after {L : Library} (omega_loc emp_loc : positive)
    (n_samples : vec) (n_tasks n_var : nat) (rho : R) (n : nat) (s : state)
    : result (R * R) :=
  let s' := fst (sweeps omega_loc emp_loc n_samples n_tasks n_var rho n s) in
  group_sparse_covariance_costs n_tasks n_var n_samples rho
    (as_stack (st_heap s' !!! omega_loc)) (as_stack (st_heap s' !!! emp_loc)).


(** * Concrete inputs used in the statements *)

(** A symmetric positive definite matrix of order 3, the submatrix that
    excludes its row and column 0, and the inverse of that submatrix. *)
Definition full_sing : mat :=
  mat_of_rows ((1 :: 1 :: 1 :: nil) :: (1 :: 4 :: 2 :: nil)
               :: (1 :: 2 :: 2 :: nil) :: nil).
Definition sub_sing : mat :=
  mat_of_rows ((4 :: 2 :: nil) :: (2 :: 2 :: nil) :: nil).
Definition sub_inv_sing : mat :=
  mat_of_rows ((1 / 2 :: - (1 / 2) :: nil) :: (- (1 / 2) :: 1 :: nil) :: nil).
(** The inverse of [full_sing] without its row and column 1. *)
Definition sub_inv_next : mat :=
  mat_of_rows ((2 :: - 1 :: nil) :: (- 1 :: 1 :: nil) :: nil).

(** A diagonal matrix of order 3, on which the advance from index 0 to
    index 1 goes through. *)
Definition full_diag : mat :=
  mat_of_rows ((2 :: 0 :: 0 :: nil) :: (0 :: 1 :: 0 :: nil)
               :: (0 :: 0 :: 1 :: nil) :: nil).

(** One task, two variables of variance 1000 and covariance 1, the
    default initialisation ([W = 1/1000], [Winv = 1000]), no regularisation:
    the state of the solver at [p = 0], [m = 0] of the first sweep. *)
Definition emp_large : stack :=
  stack_of (mat_of_rows ((1000 :: 1 :: nil) :: (1 :: 1000 :: nil) :: nil)).
Definition Winv_large : stack := stack_of (mat_of_rows ((1000 :: nil) :: nil)).
Definition u_large : mat := fun k j => emp_large (skip 0 j) 0%nat k.
Definition y_zero : mat := fun _ _ => 0.
Definition ones : vec := fun _ => 1.
Definition c_large : vec :=
  coord_c 2 ones emp_large Winv_large u_large y_zero 0 0.
Definition q_large : vec := coord_q ones emp_large Winv_large 0 0.

(** ** The library routines in exact arithmetic

    What the routines of [Library] compute when no rounding occurs: the
    covariance of the samples, the inverse by cofactors, the logarithm of the
    determinant, and the test of symmetry and of positive leading minors.
    The statements about concrete runs use this instance. *)

(** The determinant of the leading block of order [n], expanded along its
    first row. *)
Fixpoint det (n : nat) (A : mat) : R :=
  match n with
  | O => 1
  | S m =>
      rsum (S m)
        (fun j => (-1) ^ j * A O j * det m (fun i' j' => A (S i') (skip j j')))
  end.

Definition cofactor_inv (n : nat) (A : mat) : option mat :=
  if Req_dec_T (det n A) 0 then None
  else Some (fun i j =>
               (-1) ^ (i + j)
               * det (n - 1) (fun i' j' => A (skip j i') (skip i j'))
               / det n A).

Definition sample_covariance (X : ndarray) (assume_centered : bool) : mat :=
  let n := dim X 0 in
  let mean : vec :=
    fun i => if assume_centered then 0
             else rsum n (fun s => as_mat X s i) / INR n in
  fun i j =>
    rsum n (fun s => (as_mat X s i - mean i) * (as_mat X s j - mean j))
    / INR n.

Definition spd_test (n : nat) (A : mat) : bool :=
  forallb (fun i =>
             forallb (fun j => if Req_dec_T (A i j) (A j i) then true
                               else false) (seq 0 n)) (seq 0 n)
  && forallb (fun k => if Rlt_dec 0 (det (S k) A) then true else false)
       (seq 0 n).

#[global] Instance exact_library : Library := {|
  empirical_covariance := sample_covariance;
  linalg_inv := cofactor_inv;
  fast_logdet := fun n A => ln (det n A);
  is_spd := spd_test
|}.

(** Two tasks holding the same two samples of two variables, and a stack of
    shape [(3, 3, 1)] that does not fit them. *)
Definition two_samples : ndarray :=
  array2 2 2 (mat_of_rows ((1 :: 0 :: nil) :: (0 :: 1 :: nil) :: nil)).
Definition misfit : ndarray :=
  array3 (3%nat :: 3%nat :: 1%nat :: nil) (fun _ _ _ => 1).
Definition demo_heap : gmap positive ndarray :=
  <[1%positive := two_samples]>
    (<[2%positive := two_samples]> (<[3%positive := misfit]> ∅)).
Definition demo_tasks : list positive := 1%positive :: 2%positive :: nil.


(** One task with two correlated variables, for a run without penalty. *)
Definition skewed : ndarray :=
  array2 2 2 (mat_of_rows ((1 :: 1 :: nil) :: (0 :: 1 :: nil) :: nil)).
Definition single_heap : gmap positive ndarray := <[1%positive := skewed]> ∅.

(** The call on the two tasks: [rho = 10], one sweep, no tolerance,
    centered data, no cost trace, no warm start. *)
Definition demo_run : run :=
  group_sparse_covariance demo_heap (TaskSeq demo_tasks) (PyInt 10) 1 None
    true false None.

(** * The other functions of the module *)

(** ** [rho_max] *)

(** The largest of [f 0], ..., [f n]. *)
Fixpoint rmax (n : nat) (f : nat -> R) : R :=
  match n with
  | O => f O
  | S m => Rmax (rmax m f) (f (S m))
  end.

(** [np.max] of an [n] x [n] array; [None] is the ValueError of a
    reduction over an array without elements. *)
Definition matrix_max (n : nat) (M : mat) : option R :=
  match n with
  | O => None
  | S m => Some (rmax m (fun i => rmax m (fun j => M i j)))
  end.

(** [A = np.copy(emp_covs)]; for every [k], the diagonal of [A[..., k]] is
    set to zero and [A[..., k] *= n_samples[k]]; the result is
    [np.max(np.sqrt((A ** 2).sum(axis=-1)))]. *)
Definition rho_max (n_var n_tasks : nat) (emp_covs : stack)
    (n_samples : vec) : option R :=
  let A : stack :=
    fun i j k => (if (i =? j)%nat then 0 else emp_covs i j k) * n_samples k in
  matrix_max n_var (group_norm n_tasks A).

(** ** Concrete inputs for the other functions *)


(** ** [assert_submatrix] *)

(** [f 0 and ... and f (n-1)]: numpy's elementwise test over an axis. *)
Fixpoint all_below (n : nat) (f : nat -> bool) : bool :=
  match n with
  | O => true
  | S m => all_below m f && f m
  end.

(** [sub] has order [M]; [close actual desired] is the elementwise test of
    [np.testing.assert_almost_equal(true_sub, sub)]; [false] is its
    AssertionError. *)
Definition assert_submatrix (M : nat) (close : R -> R -> bool)
    (full sub : mat) (n : nat) : bool :=
  let true_sub : mat :=
    fun i j =>
      if (i <? n)%nat
      then if (j <? n)%nat then full i j            (* [:n, :n] *)
           else full i (S j)                        (* [:n, n:] *)
      else if (j <? n)%nat then full (S i) j        (* [n:, :n] *)
           else full (S i) (S j) in                 (* [n:, n:] *)
  all_below M (fun i => all_below M (fun j => close (true_sub i j) (sub i j))).

(** The test of [assert_almost_equal] as numpy documents it, with the
    default [decimal=7]: [abs(desired - actual) < 1.5 * 10 ** (-7)]. *)
Definition almost_equal (actual desired : R) : bool :=
  if Rlt_dec (Rabs (desired - actual)) (15 / 100000000) then true else false.

(** ** The projection of the dual point in the cost evaluator *)

(** [rho_max = np.sqrt((A ** 2).sum(axis=-1)); mask = rho_max > rho;
    for k: A[mask, k] *= rho / rho_max[mask]; A[..., k].flat[::n + 1] = 0] *)
Definition project_dual (n_tasks : nat) (rho : R) (A : stack) : stack :=
  let rho_max := group_norm n_tasks A in
  fun i j k =>
    if (i =? j)%nat then 0
    else if Rgt_dec (rho_max i j) rho
         then A i j k * (rho / rho_max i j)
         else A i j k.

(** [dual_cost += n_samples[k] * (n_var + fast_logdet(emp_covs[..., k] +
    A[..., k] / n_samples[k]))] *)
Definition dual_cost {L : Library} (n_tasks n_var : nat) (n_samples : vec)
    (emp_covs A : stack) : R :=
  rsum n_tasks (fun k =>
    n_samples k *
    (INR n_var
     + fast_logdet n_var
         (fun i j => emp_covs i j k + A i j k / n_samples k))).

(** ** The grid search of [GroupSparseCovarianceCV.fit]

    The two steps that the method performs on [path] after every round of
    cross-validation: the selection of the best entry and the choice of the
    next bracket.  [path] is the list of pairs [(rho, score)] sorted by
    [sorted(path, key=operator.itemgetter(0), reverse=True)]; a score is a
    float ([np.mean] of the scores of the folds) and can be an infinity or a
    NaN. *)

(** [a >= b] on floats: false as soon as one side is a NaN. *)
Definition float_ge (a b : pyfloat) : bool :=
  match a, b with
  | FNaN, _ => false
  | _, FNaN => false
  | FPosInf, _ => true
  | _, FNegInf => true
  | FNegInf, _ => false
  | FNum _, FPosInf => false
  | FNum x, FNum y => if Rle_dec y x then true else false
  end.

(** [np.isfinite] *)
Definition isfinite (a : pyfloat) : bool :=
  match a with
  | FNum _ => true
  | _ => false
  end.

(** [.1 / np.finfo(np.float).eps], the machine epsilon being [2 ** -52]. *)
Definition score_limit : R := (1 / 10) / (/ 2 ^ 52).

(** [if this_score >= .1 / np.finfo(np.float).eps: this_score = np.nan] *)
Definition clip_score (this_score : pyfloat) : pyfloat :=
  if float_ge this_score (FNum score_limit) then FNaN else this_score.

(** The three variables of the selection loop; [best_index] is not bound
    before the first assignment. *)
Record selection := {
  best_score : pyfloat;
  last_finite_idx : nat;
  best_index : option nat
}.

(** The body of [for index, (rho, this_score) in enumerate(path)]. *)
Definition select_step (index : nat) (this_score : pyfloat) (s : selection)
    : selection :=
  let this_score := clip_score this_score in
  let last_finite_idx :=
    if isfinite this_score then index else last_finite_idx s in
  if float_ge this_score (best_score s)
  then {| best_score := this_score; last_finite_idx := last_finite_idx;
          best_index := Some index |}
  else {| best_score := best_score s; last_finite_idx := last_finite_idx;
          best_index := best_index s |}.

Fixpoint select_loop (index : nat) (path : list (R * pyfloat))
    (s : selection) : selection :=
  match path with
  | nil => s
  | (_, this_score) :: rest =>
      select_loop (S index) rest (select_step index this_score s)
  end.

(** [best_score = -np.inf; last_finite_idx = 0] and the loop; [previous] is
    what [best_index] holds from the round before, nothing in the first
    round. *)
Definition select_best (path : list (R * pyfloat)) (previous : option nat)
    : selection :=
  select_loop O path
    {| best_score := FNegInf; last_finite_idx := O; best_index := previous |}.

(** What can end the choice of the bracket: the read of the unbound
    [best_index], or an index past the end of [path]. *)
Inductive grid_error :=
| UnboundLocalError_best_index
| IndexError_path.

(** [path[i][0]] *)
Definition path_rho (path : list (R * pyfloat)) (i : nat)
    : grid_error + R :=
  match nth_error path i with
  | Some (rho, _) => inr rho
  | None => inl IndexError_path
  end.

(** "Refine the grid": the pair [(rho_1, rho_0)] of the next bracket.
    [best_index == len(path) - 1] is written [best_index + 1 == len(path)],
    which is the same test on a natural number. *)
Definition refine_grid (path : list (R * pyfloat)) (s : selection)
    : grid_error + (R * R) :=
  match best_index s with
  | None => inl UnboundLocalError_best_index
  | Some best_index =>
      if (best_index =? 0)%nat then
        match path_rho path 0 with
        | inl e => inl e
        | inr rho_1 =>
            match path_rho path 1 with
            | inl e => inl e
            | inr rho_0 => inr (rho_1, rho_0)
            end
        end
      else if (best_index =? last_finite_idx s)%nat
              && negb (S best_index =? length path)%nat then
        match path_rho path best_index with
        | inl e => inl e
        | inr rho_1 =>
            match path_rho path (best_index + 1) with
            | inl e => inl e
            | inr rho_0 => inr (rho_1, rho_0)
            end
        end
      else if (S best_index =? length path)%nat then
        match path_rho path best_index with
        | inl e => inl e
        | inr rho_1 =>
            match path_rho path best_index with
            | inl e => inl e
            | inr rho => inr (rho_1, 1 / 100 * rho)
            end
        end
      else
        match path_rho path (best_index - 1) with
        | inl e => inl e
        | inr rho_1 =>
            match path_rho path (best_index + 1) with
            | inl e => inl e
            | inr rho_0 => inr (rho_1, rho_0)
            end
        end
  end.

(** ** [group_sparse_covariance_path] *)

(** [sklearn.covariance.log_likelihood(emp_cov, precision)] on a matrix of
    order [n] and a matrix of order [m]; [None] when it raises. *)
Class Likelihood := {
  log_likelihood : nat -> mat -> nat -> mat -> option R
}.

(** What can end the path: an exception of [empirical_covariances] or of
    [group_sparse_covariance], the iteration over a [train_tasks] that is
    not iterable, an index past the end of [n_samples] or of [test_covs],
    an exception of [log_likelihood]. *)
Inductive path_error :=
| SolverError (e : exn)
| TypeError_not_iterable
| IndexError_task
| LikelihoodError.

(** [NoScores]: a solver run of the path is one that the embedding does not
    follow (see [NonFiniteRho] and [MisfitStart]). *)
Inductive path_outcome :=
| Scores (scores : list R)
| PathRaised (e : path_error)
| NoScores.

Section Path.
Context {L : Library} {K : Likelihood}.

(** [for k in range(count): task_score.append(n_samples[k] *
    log_likelihood(test_covs[..., k], precisions[..., k]))]; [n_samples] has
    [n_train] entries. *)
Fixpoint task_score (h : heap) (test_covs precisions : loc) (n_train : nat)
    (n_samples : vec) (count : nat) : path_error + list R :=
  match count with
  | O => inr nil
  | S k =>
      match task_score h test_covs precisions n_train n_samples k with
      | inl e => inl e
      | inr scores =>
          if (n_train <=? k)%nat || (dim (h !!! test_covs) 2 <=? k)%nat
          then inl IndexError_task
          else
            match log_likelihood
                    (dim (h !!! test_covs) 0)
                    (slice (as_stack (h !!! test_covs)) k)
                    (dim (h !!! precisions) 0)
                    (slice (as_stack (h !!! precisions)) k) with
            | None => inl LikelihoodError
            | Some v => inr (scores ++ n_samples k * v :: nil)%list
            end
      end
  end.

(** The variables of the loop over [rhos]: the store, [precisions_init] and
    [scores]. *)
Record path_state := {
  ps_heap : heap;
  ps_init : option loc;
  ps_scores : list R
}.

(** The body of [for rho in reversed(rhos)]; the solver runs with its
    default [tol=1e-4]. *)
Definition path_step (train_tasks : tasks_arg) (n_train : nat)
    (n_samples : vec) (test_covs : loc) (max_iter : nat)
    (assume_centered : bool) (rho : pyval) (st : path_state)
    : path_state * option path_outcome :=
  let r := group_sparse_covariance (ps_heap st) train_tasks rho max_iter
             (Some (1 / 10000)) assume_centered false (ps_init st) in
  let st' := {| ps_heap := final_heap r; ps_init := ps_init st;
                ps_scores := ps_scores st |} in
  match out r with
  | Raised e => (st', Some (PathRaised (SolverError e)))
  | NonFiniteRho => (st', Some NoScores)
  | MisfitStart => (st', Some NoScores)
  | Returned _ precisions _ =>
      match task_score (final_heap r) test_covs precisions n_train n_samples
              (dim (final_heap r !!! precisions) 2) with
      | inl e => (st', Some (PathRaised e))
      | inr scores =>
          (* scores.append(sum(task_score)); precisions_init = precisions *)
          ({| ps_heap := final_heap r; ps_init := Some precisions;
              ps_scores := (ps_scores st
                            ++ fold_left Rplus scores 0 :: nil)%list |},
           None)
      end
  end.

Fixpoint path_loop (train_tasks : tasks_arg) (n_train : nat)
    (n_samples : vec) (test_covs : loc) (max_iter : nat)
    (assume_centered : bool) (rhos : list pyval) (st : path_state)
    : path_state * option path_outcome :=
  match rhos with
  | nil => (st, None)
  | rho :: rest =>
      match path_step train_tasks n_train n_samples test_covs max_iter
              assume_centered rho st with
      | (st', Some stop) => (st', Some stop)
      | (st', None) =>
          path_loop train_tasks n_train n_samples test_covs max_iter
            assume_centered rest st'
      end
  end.

Definition group_sparse_covariance_path (h : heap)
    (train_tasks test_tasks : tasks_arg) (rhos : list pyval)
    (max_iter : nat) (assume_centered : bool) : heap * path_outcome :=
  match empirical_covariances h test_tasks assume_centered with
  | (h1, Raise e) => (h1, PathRaised (SolverError e))
  | (h1, Return (test_covs, _, _, _)) =>
      match train_tasks with
      | NotIterable => (h1, PathRaised TypeError_not_iterable)
      | TaskSeq l =>
          let n_samples := normalize (length l) (sample_counts h1 l) in
          match path_loop train_tasks (length l) n_samples test_covs
                  max_iter assume_centered (rev rhos)
                  {| ps_heap := h1; ps_init := None; ps_scores := nil |} with
          | (st, Some stop) => (ps_heap st, stop)
          | (st, None) => (ps_heap st, Scores (rev (ps_scores st)))
          end
      end
  end.

End Path.

(** What [log_likelihood] computes when no rounding occurs:
    [(-np.sum(emp_cov * precision) + fast_logdet(precision)
      - precision.shape[0] * np.log(2 * np.pi)) / 2.], the product being
    numpy's elementwise product, which broadcasts a matrix of order 1 and
    raises on two other different orders. *)
Definition exact_log_likelihood {L : Library} (n : nat) (emp_cov : mat)
    (m : nat) (precision : mat) : option R :=
  let order :=
    if (n =? m)%nat then Some n
    else if (n =? 1)%nat then Some m
    else if (m =? 1)%nat then Some n
    else None in
  match order with
  | None => None
  | Some d =>
      let e : mat := fun i j => if (n =? 1)%nat then emp_cov O O
                                else emp_cov i j in
      let p : mat := fun i j => if (m =? 1)%nat then precision O O
                                else precision i j in
      Some ((- rsum d (fun i => rsum d (fun j => e i j * p i j))
             + fast_logdet m precision
             - INR m * ln (2 * PI)) / 2)
  end.

#[global] Instance exact_likelihood : Likelihood := {|
  log_likelihood := exact_log_likelihood (L := exact_library)
|}.

(** The same call with the tolerance [1e-4] and the cost trace. *)
Definition demo_run_tol : run :=
  group_sparse_covariance demo_heap (TaskSeq demo_tasks) (PyInt 10) 1
    (Some (1 / 10000)) true true None.

(** * Proofs *)

(** ** Finite sums *)

Lemma rsum_ext (n : nat) (f g : nat -> R) :
  (forall i, (i < n)%nat -> f i = g i) -> rsum n f = rsum n g.
Proof.
  induction n as [|n IH]; intros H; simpl; [reflexivity|].
  rewrite IH by (intros; apply H; lia).
  rewrite H by lia. reflexivity.
Qed.

Lemma rsum_zero (n : nat) : rsum n (fun _ => 0) = 0.
Proof. induction n as [|n IH]; simpl; [|rewrite IH]; lra. Qed.

Lemma rsum_plus (n : nat) (f g : nat -> R) :
  rsum n (fun i => f i + g i) = rsum n f + rsum n g.
Proof. induction n as [|n IH]; simpl; [|rewrite IH]; lra. Qed.

Lemma rsum_scal (n : nat) (c : R) (f : nat -> R) :
  rsum n (fun i => c * f i) = c * rsum n f.
Proof. induction n as [|n IH]; simpl; [|rewrite IH]; lra. Qed.

Lemma rsum_scal_r (n : nat) (c : R) (f : nat -> R) :
  rsum n (fun i => f i * c) = rsum n f * c.
Proof. induction n as [|n IH]; simpl; [|rewrite IH]; lra. Qed.

Lemma rsum_lin (n : nat) (c : R) (f g : nat -> R) :
  rsum n (fun i => c * f i + g i) = c * rsum n f + rsum n g.
Proof. rewrite rsum_plus, rsum_scal. reflexivity. Qed.

Lemma rsum_swap (n m : nat) (f : nat -> nat -> R) :
  rsum n (fun i => rsum m (fun j => f i j))
  = rsum m (fun j => rsum n (fun i => f i j)).
Proof.
  induction n as [|n IH]; simpl.
  - symmetry. apply rsum_zero.
  - rewrite IH, <- rsum_plus. reflexivity.
Qed.

(** A sum that meets a single index. *)
Lemma rsum_delta (n k : nat) (f : nat -> R) :
  (k < n)%nat ->
  rsum n (fun i => if (i =? k)%nat then f i else 0) = f k.
Proof.
  induction n as [|n IH]; intros Hk; [lia|]. simpl.
  destruct (Nat.eqb_spec n k) as [->|Hne].
  - rewrite (rsum_ext k _ (fun _ => 0)), rsum_zero; [lra|].
    intros i Hi. destruct (Nat.eqb_spec i k); [lia|reflexivity].
  - rewrite IH by lia. lra.
Qed.

Lemma rsum_nonneg (n : nat) (f : nat -> R) :
  (forall i, (i < n)%nat -> 0 <= f i) -> 0 <= rsum n f.
Proof.
  induction n as [|n IH]; intros H; simpl; [lra|].
  assert (0 <= rsum n f) by (apply IH; intros; apply H; lia).
  assert (0 <= f n) by (apply H; lia). lra.
Qed.

Lemma rsum_le (n : nat) (f g : nat -> R) :
  (forall i, (i < n)%nat -> f i <= g i) -> rsum n f <= rsum n g.
Proof.
  induction n as [|n IH]; intros H; simpl; [lra|].
  assert (rsum n f <= rsum n g) by (apply IH; intros; apply H; lia).
  assert (f n <= g n) by (apply H; lia). lra.
Qed.

(** A sum of non-negative terms with a positive one is positive. *)
Lemma rsum_pos (n k : nat) (f : nat -> R) :
  (forall i, (i < n)%nat -> 0 <= f i) -> (k < n)%nat -> 0 < f k ->
  0 < rsum n f.
Proof.
  induction n as [|n IH]; intros H Hk Hpos; [lia|]. simpl.
  assert (0 <= f n) by (apply H; lia).
  destruct (Nat.eq_dec k n) as [->|Hne].
  - assert (0 <= rsum n f) by (apply rsum_nonneg; intros; apply H; lia). lra.
  - assert (0 < rsum n f) by (apply IH; [intros; apply H|..]; lia || assumption).
    lra.
Qed.

(** Taking the index [p] out of a sum: the other indices are [skip p i]. *)
Lemma rsum_skip (n p : nat) (f : nat -> R) :
  (p <= n)%nat ->
  rsum (S n) f = f p + rsum n (fun i => f (skip p i)).
Proof.
  induction n as [|n IH]; intros Hp.
  - assert (p = O) by lia. subst. simpl. lra.
  - destruct (Nat.eq_dec p (S n)) as [->|Hne].
    + change (rsum (S (S n)) f) with (rsum (S n) f + f (S n)).
      rewrite (rsum_ext (S n) (fun i => f (skip (S n) i)) f); [lra|].
      intros i Hi. unfold skip.
      destruct (Nat.ltb_spec i (S n)); [reflexivity|lia].
    + change (rsum (S (S n)) f) with (rsum (S n) f + f (S n)).
      rewrite IH by lia.
      change (rsum (S n) (fun i => f (skip p i)))
        with (rsum n (fun i => f (skip p i)) + f (skip p n)).
      unfold skip at 3. destruct (Nat.ltb_spec n p); [lia|]. lra.
Qed.

Lemma skip_neq (p i : nat) : skip p i <> p.
Proof. unfold skip. destruct (Nat.ltb_spec i p); lia. Qed.

Lemma skip_lt (n p i : nat) : (i < n)%nat -> (skip p i < S n)%nat.
Proof. unfold skip. destruct (Nat.ltb_spec i p); lia. Qed.

Lemma skip_unskip (p i : nat) : i <> p -> skip p (unskip p i) = i.
Proof.
  unfold skip, unskip. intros Hne.
  destruct (Nat.ltb_spec i p) as [H|H].
  - destruct (Nat.ltb_spec i p); lia.
  - destruct (Nat.ltb_spec (i - 1) p); lia.
Qed.

Lemma unskip_skip (p i : nat) : unskip p (skip p i) = i.
Proof.
  unfold skip, unskip.
  destruct (Nat.ltb_spec i p) as [H|H].
  - destruct (Nat.ltb_spec i p); lia.
  - destruct (Nat.ltb_spec (S i) p); lia.
Qed.

(** A sum over the indices other than [m], as the slices [[:m]] and
    [[m+1:]] lay them out. *)
Lemma rsum_skip_except (n m : nat) (f : nat -> R) :
  (m <= n)%nat ->
  rsum n (fun j => f (skip m j))
  = rsum (S n) (fun j => if (j =? m)%nat then 0 else f j).
Proof.
  intros Hm. rewrite (rsum_skip n m) by assumption.
  rewrite Nat.eqb_refl.
  rewrite (rsum_ext n (fun i => if (skip m i =? m)%nat then 0 else f (skip m i))
             (fun i => f (skip m i))); [lra|].
  intros i _. destruct (Nat.eqb_spec (skip m i) m) as [E|E]; [|reflexivity].
  exfalso. exact (skip_neq _ _ E).
Qed.

(** ** Rank-one corrections of an inverse (Sherman-Morrison) *)

Lemma inverse_of_sym (n : nat) (A B : mat) :
  inverse_of n A B -> inverse_of n B A.
Proof. intros [H1 H2]. split; assumption. Qed.

(** Replacing the row [r] of [A] by [A[r, :] + V]. *)
Lemma sherman_morrison_row (n r : nat) (A B : mat) (V : vec) :
  (r < n)%nat ->
  inverse_of n A B ->
  1 + dot n V (fun i => B i r) <> 0 ->
  inverse_of n
    (fun i j => if (i =? r)%nat then A r j + V j else A i j)
    (fun i j => B i j
                - outer (fun i => B i r / (1 + dot n V (fun i => B i r)))
                    (vecmat n V B) i j).
Proof.
  intros Hr [HAB HBA] Hd.
  set (d := 1 + dot n V (fun i => B i r)) in *.
  assert (Hdot : dot n V (fun i => B i r) = d - 1) by (unfold d; lra).
  unfold dot in Hdot.
  split; intros i j Hi Hj; unfold matmul, outer, vecmat.
  - (* A' B' *)
    set (w := rsum n (fun t => V t * B t j)).
    set (dl := if (i =? r)%nat then 1 else 0).
    rewrite (rsum_ext n _
      (fun l => (- (w / d)) * (A i l * B l r)
                + (dl * (V l * B l j)
                   + ((- (dl * (w / d))) * (V l * B l r)
                      + A i l * B l j)))).
    2:{ intros l _. unfold dl.
        destruct (Nat.eqb_spec i r) as [->|_]; field; exact Hd. }
    rewrite !rsum_lin. rewrite Hdot. fold w.
    pose proof (HAB i j Hi Hj) as E1. pose proof (HAB i r Hi Hr) as E2.
    unfold matmul in E1, E2. rewrite E1, E2. unfold eye, dl.
    destruct (Nat.eqb_spec i r) as [->|_]; field; exact Hd.
  - (* B' A' *)
    set (dl := fun l : nat => if (l =? r)%nat then 1 else 0).
    set (w := fun l => rsum n (fun t => V t * B t l)).
    rewrite (rsum_ext n _
      (fun l => (- (B i r / d)) * (w l * A l j)
                + (V j * (if (l =? r)%nat then B i l else 0)
                   + ((- (B i r / d * V j)) * (if (l =? r)%nat then w l else 0)
                      + B i l * A l j)))).
    2:{ intros l _. fold (w l).
        destruct (Nat.eqb_spec l r) as [->|_]; field; exact Hd. }
    rewrite !rsum_lin. rewrite !rsum_delta by assumption.
    assert (Hw : rsum n (fun l => w l * A l j) = V j).
    { unfold w.
      rewrite (rsum_ext n _
        (fun l => rsum n (fun t => V t * (B t l * A l j)))).
      2:{ intros l _. rewrite <- rsum_scal_r.
          apply rsum_ext. intros; ring. }
      rewrite rsum_swap.
      rewrite (rsum_ext n _ (fun t => if (t =? j)%nat then V t else 0)).
      2:{ intros t Ht. rewrite rsum_scal.
          pose proof (HBA t j Ht Hj) as E. unfold matmul in E. rewrite E.
          unfold eye. destruct (Nat.eqb_spec t j); ring. }
      apply rsum_delta; assumption. }
    rewrite Hw. unfold w at 1. rewrite Hdot.
    pose proof (HBA i j Hi Hj) as E1. unfold matmul in E1. rewrite E1.
    field; exact Hd.
Qed.

Lemma inverse_of_agree (n : nat) (A A' B B' : mat) :
  agree n A A' -> agree n B B' -> inverse_of n A B -> inverse_of n A' B'.
Proof.
  intros HA HB [H1 H2].
  split; intros i j Hi Hj.
  - rewrite <- (H1 i j Hi Hj). unfold matmul. apply rsum_ext. intros l Hl.
    rewrite (HA i l), (HB l j) by assumption. reflexivity.
  - rewrite <- (H2 i j Hi Hj). unfold matmul. apply rsum_ext. intros l Hl.
    rewrite (HB i l), (HA l j) by assumption. reflexivity.
Qed.

Lemma inverse_of_transpose (n : nat) (A B : mat) :
  inverse_of n A B -> inverse_of n (fun i j => A j i) (fun i j => B j i).
Proof.
  intros [H1 H2].
  split; intros i j Hi Hj.
  - pose proof (H2 j i Hj Hi) as E. unfold matmul, eye in *.
    rewrite Nat.eqb_sym, <- E. apply rsum_ext. intros; ring.
  - pose proof (H1 j i Hj Hi) as E. unfold matmul, eye in *.
    rewrite Nat.eqb_sym, <- E. apply rsum_ext. intros; ring.
Qed.

(** Replacing the column [r] of [A] by [A[:, r] + U]. *)
Lemma sherman_morrison_col (n r : nat) (A B : mat) (U : vec) :
  (r < n)%nat ->
  inverse_of n A B ->
  1 + dot n (fun j => B r j) U <> 0 ->
  inverse_of n
    (fun i j => if (j =? r)%nat then A i r + U i else A i j)
    (fun i j => B i j
                - outer (matvec n B U)
                    (fun j => B r j / (1 + dot n (fun j => B r j) U)) i j).
Proof.
  intros Hr Hinv Hd.
  assert (Hdot : dot n U (fun i => B r i) = dot n (fun j => B r j) U).
  { unfold dot. apply rsum_ext. intros; ring. }
  pose proof (sherman_morrison_row n r (fun i j => A j i) (fun i j => B j i)
                U Hr (inverse_of_transpose _ _ _ Hinv)) as H.
  cbv beta in H. rewrite Hdot in H. specialize (H Hd).
  apply inverse_of_transpose in H. cbv beta in H.
  eapply inverse_of_agree; [| |exact H].
  - intros i j _ _. reflexivity.
  - intros i j _ _. unfold outer, vecmat, matvec. cbv beta.
    rewrite (rsum_ext n (fun l => U l * B i l) (fun l => B i l * U l))
      by (intros; ring).
    ring.
Qed.

(** ** [update_submatrix] *)

(** The new rows and columns are those of [full] with index [n + 1]
    removed. *)
Lemma update_vectors_skip (full : mat) (n : nat) :
  update_vectors full n
  = (fun j => if (j <=? n)%nat then full n j else full n (S j),
     fun i => if (i <=? n)%nat then full i n else full (S i) n).
Proof. reflexivity. Qed.

Lemma skip_succ_other (n i : nat) : i <> n -> skip (S n) i = skip n i.
Proof.
  intros Hne. unfold skip.
  destruct (Nat.ltb_spec i (S n)), (Nat.ltb_spec i n); lia.
Qed.

Lemma skip_succ_same (n : nat) : skip (S n) n = n.
Proof. unfold skip. destruct (Nat.ltb_spec n (S n)); lia. Qed.

Lemma leb_skip_succ (n j : nat) :
  (if (j <=? n)%nat then j else S j) = skip (S n) j.
Proof.
  unfold skip. destruct (Nat.leb_spec j n), (Nat.ltb_spec j (S n)); lia.
Qed.

(** The submatrix part: after the call [sub] is [full] without row and
    column [p], whatever [sub_inv] holds. *)
Lemma update_submatrix_sub (N p : nat) (full sub sub_inv : mat) :
  (1 <= p)%nat ->
  agree (N - 1) sub (submatrix full (p - 1)) ->
  agree (N - 1) (fst (update_submatrix N full sub sub_inv p))
    (submatrix full p).
Proof.
  intros Hp Hsub i j Hi Hj.
  destruct p as [|n]; [lia|].
  replace (S n - 1)%nat with n in * by lia.
  unfold update_submatrix. rewrite update_vectors_skip. cbn [fst].
  replace (S n - 1)%nat with n by lia.
  unfold submatrix.
  destruct (Nat.eqb_spec j n) as [->|Hjn].
  - rewrite skip_succ_same.
    destruct (Nat.leb_spec i n) as [Hle|Hgt]; unfold skip;
      destruct (Nat.ltb_spec i (S n)); try lia; reflexivity.
  - destruct (Nat.eqb_spec i n) as [->|Hin].
    + rewrite skip_succ_same.
      destruct (Nat.leb_spec j n) as [Hle|Hgt]; unfold skip;
        destruct (Nat.ltb_spec j (S n)); try lia; reflexivity.
    + rewrite (Hsub i j Hi Hj). unfold submatrix.
      rewrite !skip_succ_other by assumption. reflexivity.
Qed.

(** The inverse part (Sherman-Morrison twice): exact as long as the call
    does not divide by zero. *)
Lemma update_submatrix_inverse (N p : nat) (full sub sub_inv : mat) :
  (1 <= p < N)%nat ->
  inverse_of (N - 1) sub sub_inv ->
  row_denominator N full sub sub_inv p <> 0 ->
  col_denominator N full sub sub_inv p <> 0 ->
  inverse_of (N - 1)
    (fst (update_submatrix N full sub sub_inv p))
    (snd (update_submatrix N full sub sub_inv p)).
Proof.
  intros Hp Hinv Hd1 Hd2.
  unfold row_denominator, col_denominator in Hd1, Hd2.
  unfold update_submatrix. rewrite update_vectors_skip in *.
  cbn [fst snd]. cbv zeta in Hd1, Hd2.
  set (n := (p - 1)%nat) in *. set (M := (N - 1)%nat) in *.
  assert (Hn : (n < M)%nat) by (unfold n, M; lia).
  set (h := fun j : nat => if (j <=? n)%nat then full n j else full n (S j)) in *.
  set (v := fun i : nat => if (i <=? n)%nat then full i n else full (S i) n) in *.
  set (V := fun j : nat => h j - sub n j) in *.
  pose proof (sherman_morrison_row M n sub sub_inv V Hn Hinv Hd1) as H1.
  set (sub_inv1 := fun i j : nat =>
         sub_inv i j
         - outer (fun i0 : nat => sub_inv i0 n / (1 + dot M V (fun i1 => sub_inv i1 n)))
             (vecmat M V sub_inv) i j) in *.
  set (sub1 := fun i j : nat => if (i =? n)%nat then h j else sub i j) in *.
  assert (H1' : inverse_of M sub1 sub_inv1).
  { refine (inverse_of_agree M _ sub1 _ sub_inv1 _ _ H1).
    - intros i j _ _. unfold sub1, V.
      destruct (Nat.eqb_spec i n); [|reflexivity].
      clearbody h. ring.
    - intros i j _ _. reflexivity. }
  set (U := fun i : nat => v i - sub1 i n) in *.
  pose proof (sherman_morrison_col M n sub1 sub_inv1 U Hn H1' Hd2) as H2.
  refine (inverse_of_agree M _ _ _ _ _ _ H2).
  - intros i j _ _. unfold U.
    destruct (Nat.eqb_spec j n); [|reflexivity].
    unfold v. clearbody sub1. ring.
  - intros i j _ _. reflexivity.
Qed.

Lemma full_sing_spd : spd 3 full_sing.
Proof.
  split.
  - intros i j Hi Hj.
    destruct i as [|[|[|i]]]; try lia; destruct j as [|[|[|j]]]; try lia;
      reflexivity.
  - intros x [i [Hi Hx]].
    unfold quad_form, full_sing, mat_of_rows. simpl.
    assert (x 0%nat <> 0 \/ x 1%nat <> 0 \/ x 2%nat <> 0) as Hnz.
    { destruct i as [|[|[|i]]]; try lia; tauto. }
    assert (0 <= (x 0%nat + x 1%nat + x 2%nat) ^ 2) by apply pow2_ge_0.
    assert (0 <= (x 1%nat + x 2%nat) ^ 2) by apply pow2_ge_0.
    assert (0 <= (x 1%nat) ^ 2) by apply pow2_ge_0.
    destruct (Req_dec (x 1%nat) 0) as [E1|E1].
    + destruct (Req_dec (x 2%nat) 0) as [E2|E2].
      * assert (x 0%nat <> 0) by tauto. rewrite E1, E2. nra.
      * rewrite E1 in *. nra.
    + nra.
Qed.

Lemma sub_sing_inverse : inverse_of 2 sub_sing sub_inv_sing.
Proof.
  split; intros i j Hi Hj;
    destruct i as [|[|i]]; try lia; destruct j as [|[|j]]; try lia;
    unfold matmul, sub_sing, sub_inv_sing, mat_of_rows, eye; simpl; lra.
Qed.

Lemma row_denominator_sing :
  row_denominator 3 full_sing sub_sing sub_inv_sing 1 = 0.
Proof.
  unfold row_denominator, update_vectors, dot, full_sing, sub_sing,
    sub_inv_sing, mat_of_rows. simpl. lra.
Qed.

Lemma update_sing_not_inverse :
  ~ inverse_of 2
      (fst (update_submatrix 3 full_sing sub_sing sub_inv_sing 1))
      (snd (update_submatrix 3 full_sing sub_sing sub_inv_sing 1)).
Proof.
  intros [H _]. specialize (H O O ltac:(lia) ltac:(lia)).
  pose proof row_denominator_sing as Hd.
  unfold row_denominator, update_vectors, dot, full_sing, sub_sing,
    sub_inv_sing, mat_of_rows in Hd. simpl in Hd.
  unfold matmul, update_submatrix, update_vectors, dot, outer, vecmat, matvec,
    full_sing, sub_sing, sub_inv_sing, mat_of_rows, eye in H.
  simpl in H. rewrite Hd in H. unfold Rdiv in H. rewrite Rinv_0 in H.
  match type of H with
  | context [/ (1 + ?e)] => replace (1 + e) with (3 / 2) in H by lra
  end.
  lra.
Qed.

Lemma sub_sing_is_submatrix : agree 2 sub_sing (submatrix full_sing 0).
Proof.
  intros i j Hi Hj.
  destruct i as [|[|i]]; try lia; destruct j as [|[|j]]; try lia; reflexivity.
Qed.

Lemma sub_inv_next_inverse :
  inverse_of 2 (submatrix full_sing 1) sub_inv_next.
Proof.
  split; intros i j Hi Hj;
    destruct i as [|[|i]]; try lia; destruct j as [|[|j]]; try lia;
    unfold matmul, submatrix, skip, full_sing, sub_inv_next, mat_of_rows, eye;
    simpl; lra.
Qed.

(** C2 (evaluation at the failing input).  On a symmetric positive definite
    matrix of order 3, with [sub] the exact submatrix for index 0 and
    [sub_inv] its exact inverse, the advance to index 1 divides by
    [1. + np.dot(V, coln) = 0] in the row change, and the [sub_inv] it leaves
    is not the inverse of the new submatrix, although that submatrix is
    invertible (slicing and inverting from scratch succeeds). *)
Theorem update_submatrix_zero_denominator :
  spd 3 full_sing /\
  agree 2 sub_sing (submatrix full_sing 0) /\
  inverse_of 2 sub_sing sub_inv_sing /\
  inverse_of 2 (submatrix full_sing 1) sub_inv_next /\
  row_denominator 3 full_sing sub_sing sub_inv_sing 1 = 0 /\
  ~ inverse_of 2
      (fst (update_submatrix 3 full_sing sub_sing sub_inv_sing 1))
      (snd (update_submatrix 3 full_sing sub_sing sub_inv_sing 1)).
Proof.
  repeat split.
  - apply full_sing_spd.
  - apply full_sing_spd.
  - apply sub_sing_is_submatrix.
  - apply sub_sing_inverse.
  - apply sub_sing_inverse.
  - apply sub_inv_next_inverse.
  - apply sub_inv_next_inverse.
  - apply row_denominator_sing.
  - apply update_sing_not_inverse.
Qed.

(** The advance of the excluded index is exact whenever neither of its two
    divisions is a division by zero: [sub] becomes [full] without row and
    column [p], and [sub_inv] its inverse. *)
Theorem update_submatrix_exact (N p : nat) (full sub sub_inv : mat) :
  (1 <= p < N)%nat ->
  agree (N - 1) sub (submatrix full (p - 1)) ->
  inverse_of (N - 1) sub sub_inv ->
  row_denominator N full sub sub_inv p <> 0 ->
  col_denominator N full sub sub_inv p <> 0 ->
  agree (N - 1) (fst (update_submatrix N full sub sub_inv p))
    (submatrix full p) /\
  inverse_of (N - 1) (submatrix full p)
    (snd (update_submatrix N full sub sub_inv p)).
Proof.
  intros Hp Hsub Hinv Hd1 Hd2.
  assert (Hs := update_submatrix_sub N p full sub sub_inv ltac:(lia) Hsub).
  split; [exact Hs|].
  eapply inverse_of_agree;
    [exact Hs | intros i j _ _; reflexivity
    | apply update_submatrix_inverse; assumption].
Qed.

Lemma update_submatrix_exact_witness :
  agree 2 (fst (update_submatrix 3 full_diag eye eye 1))
    (submatrix full_diag 1) /\
  inverse_of 2 (submatrix full_diag 1)
    (snd (update_submatrix 3 full_diag eye eye 1)).
Proof.
  apply (update_submatrix_exact 3 1 full_diag eye eye).
  - lia.
  - intros i j Hi Hj.
    destruct i as [|[|i]]; try lia; destruct j as [|[|j]]; try lia;
      unfold submatrix, full_diag, mat_of_rows, eye; simpl; reflexivity.
  - split; intros i j Hi Hj;
      destruct i as [|[|i]]; try lia; destruct j as [|[|j]]; try lia;
      unfold matmul, eye; simpl; lra.
  - unfold row_denominator, update_vectors, dot, full_diag, mat_of_rows, eye.
    simpl. lra.
  - unfold col_denominator, update_vectors, dot, outer, vecmat, full_diag,
      mat_of_rows, eye.
    simpl. unfold Rdiv.
    match goal with
    | |- context [/ (1 + ?e)] => replace (1 + e) with 2 by lra
    end.
    lra.
Defined.

(** ** Quadratic forms and the Schur complement *)

Lemma quad_form_bil (n : nat) (A : mat) (x : vec) :
  quad_form n A x = bil_form n A x x.
Proof. reflexivity. Qed.

Lemma bil_form_ext (n : nat) (A A' : mat) (u u' v v' : vec) :
  agree n A A' ->
  (forall i, (i < n)%nat -> u i = u' i) ->
  (forall i, (i < n)%nat -> v i = v' i) ->
  bil_form n A u v = bil_form n A' u' v'.
Proof.
  intros HA Hu Hv. unfold bil_form.
  apply rsum_ext. intros i Hi. apply rsum_ext. intros j Hj.
  rewrite (HA i j), (Hu i), (Hv j) by assumption. reflexivity.
Qed.

Lemma bil_form_add_l (n : nat) (A : mat) (u u' v : vec) (t : R) :
  bil_form n A (fun i => u i + t * u' i) v
  = bil_form n A u v + t * bil_form n A u' v.
Proof.
  unfold bil_form. rewrite <- rsum_scal, <- rsum_plus.
  apply rsum_ext. intros i _.
  rewrite <- rsum_scal, <- rsum_plus.
  apply rsum_ext. intros j _. ring.
Qed.

Lemma bil_form_add_r (n : nat) (A : mat) (u v v' : vec) (t : R) :
  bil_form n A u (fun i => v i + t * v' i)
  = bil_form n A u v + t * bil_form n A u v'.
Proof.
  unfold bil_form. rewrite <- rsum_scal, <- rsum_plus.
  apply rsum_ext. intros i _.
  rewrite <- rsum_scal, <- rsum_plus.
  apply rsum_ext. intros j _. ring.
Qed.

Lemma bil_form_sym (n : nat) (A : mat) (u v : vec) :
  symmetric n A -> bil_form n A u v = bil_form n A v u.
Proof.
  intros HA. unfold bil_form. rewrite rsum_swap.
  apply rsum_ext. intros i Hi. apply rsum_ext. intros j Hj.
  rewrite (HA j i) by assumption. ring.
Qed.

(** [u^T A v] is [u . (A v)]. *)
Lemma bil_form_matvec (n : nat) (A : mat) (u v : vec) :
  bil_form n A u v = dot n u (matvec n A v).
Proof.
  unfold bil_form, dot, matvec. apply rsum_ext. intros i _.
  rewrite <- rsum_scal. apply rsum_ext. intros j _. ring.
Qed.

(** With [B] the inverse of [A], [A (B y) = y]. *)
Lemma matvec_inverse (n : nat) (A B : mat) (y : vec) (i : nat) :
  inverse_of n A B -> (i < n)%nat ->
  matvec n A (matvec n B y) i = y i.
Proof.
  intros [HAB _] Hi. unfold matvec.
  rewrite (rsum_ext n _ (fun j => rsum n (fun l => (A i j * B j l) * y l))).
  2:{ intros j _. rewrite <- rsum_scal. apply rsum_ext. intros; ring. }
  rewrite rsum_swap.
  rewrite (rsum_ext n _ (fun l => if (l =? i)%nat then y l else 0)).
  - apply rsum_delta; assumption.
  - intros l Hl. rewrite rsum_scal_r.
    pose proof (HAB i l Hi Hl) as E. unfold matmul in E. rewrite E.
    unfold eye. rewrite Nat.eqb_sym.
    destruct (Nat.eqb_spec l i); ring.
Qed.

Lemma vec_zero_dec (n : nat) (v : vec) :
  (forall i, (i < n)%nat -> v i = 0) \/ (exists i, (i < n)%nat /\ v i <> 0).
Proof.
  induction n as [|n [IH|[i [Hi Hv]]]].
  - left. intros; lia.
  - destruct (Req_dec (v n) 0) as [E|E].
    + left. intros i Hi. destruct (Nat.eq_dec i n) as [->|]; [exact E|].
      apply IH; lia.
    + right. exists n. split; [lia|exact E].
  - right. exists i. split; [lia|exact Hv].
Qed.

Lemma positive_definite_nonneg (n : nat) (A : mat) (v : vec) :
  positive_definite n A -> 0 <= quad_form n A v.
Proof.
  intros HA. destruct (vec_zero_dec n v) as [Hz|Hnz].
  - unfold quad_form.
    rewrite (rsum_ext n _ (fun _ => 0)); [rewrite rsum_zero; lra|].
    intros i Hi. rewrite (rsum_ext n _ (fun _ => 0)); [apply rsum_zero|].
    intros j _. rewrite (Hz i Hi). ring.
  - left. apply HA. exact Hnz.
Qed.

(** Splitting a quadratic form of order [S m] at the index [p]. *)
Lemma quad_form_split (m p : nat) (A : mat) (x : vec) :
  (p <= m)%nat ->
  quad_form (S m) A x
  = x p * A p p * x p
    + x p * rsum m (fun b => A p (skip p b) * x (skip p b))
    + x p * rsum m (fun a => x (skip p a) * A (skip p a) p)
    + quad_form m (submatrix A p) (fun a => x (skip p a)).
Proof.
  intros Hp. unfold quad_form, submatrix.
  rewrite (rsum_skip m p) by assumption.
  rewrite (rsum_skip m p (fun j => x p * A p j * x j)) by assumption.
  rewrite (rsum_ext m
    (fun i => rsum (S m) (fun j => x (skip p i) * A (skip p i) j * x j))
    (fun i => x p * (x (skip p i) * A (skip p i) p)
              + rsum m (fun j => x (skip p i) * A (skip p i) (skip p j)
                                 * x (skip p j)))).
  2:{ intros i _. rewrite (rsum_skip m p) by assumption. ring. }
  rewrite rsum_plus, rsum_scal.
  rewrite <- (rsum_scal m (x p) (fun b => A p (skip p b) * x (skip p b))).
  rewrite (rsum_ext m (fun i => x p * A p (skip p i) * x (skip p i))
             (fun i => x p * (A p (skip p i) * x (skip p i))))
    by (intros; ring).
  ring.
Qed.

Lemma submatrix_spd (m p : nat) (A : mat) :
  (p <= m)%nat -> spd (S m) A -> spd m (submatrix A p).
Proof.
  intros Hp [Hsym Hpd]. split.
  - intros i j Hi Hj. unfold submatrix.
    apply Hsym; apply skip_lt; assumption.
  - intros z [a [Ha Hz]].
    set (x := fun i : nat => if (i =? p)%nat then 0 else z (unskip p i)).
    assert (Hx : forall b, x (skip p b) = z b).
    { intros b. unfold x.
      destruct (Nat.eqb_spec (skip p b) p) as [E|_].
      - exfalso. exact (skip_neq _ _ E).
      - rewrite unskip_skip. reflexivity. }
    assert (Hxp : x p = 0) by (unfold x; rewrite Nat.eqb_refl; reflexivity).
    assert (Hq : 0 < quad_form (S m) A x).
    { apply Hpd. exists (skip p a). split; [apply skip_lt; exact Ha|].
      rewrite Hx. exact Hz. }
    rewrite (quad_form_split m p) in Hq by assumption.
    rewrite Hxp in Hq. rewrite quad_form_bil in Hq.
    rewrite (bil_form_ext m (submatrix A p) (submatrix A p)
               (fun a => x (skip p a)) z (fun a => x (skip p a)) z) in Hq.
    + rewrite quad_form_bil. lra.
    + intros i j _ _. reflexivity.
    + intros i _. apply Hx.
    + intros i _. apply Hx.
Qed.

(** ** The entries of [omega] after [write_back] *)

Section WriteBack.
Variables (n_tasks n_var : nat) (emp_covs Winv omega : stack) (y : mat).
Variables (p k : nat).

Let omega' := write_back n_tasks n_var emp_covs Winv omega y p.

Lemma write_back_diag :
  (k < n_tasks)%nat ->
  omega' p p k
  = 1 / emp_covs p p k
    + dot (n_var - 1) (vecmat (n_var - 1) (y k) (slice Winv k)) (y k).
Proof.
  intros Hk. unfold omega', write_back.
  rewrite Nat.eqb_refl. destruct (Nat.ltb_spec k n_tasks); [|lia].
  reflexivity.
Qed.

Lemma write_back_col (i : nat) :
  i <> p -> omega' i p k = y k (unskip p i).
Proof.
  intros Hi. unfold omega', write_back.
  rewrite Nat.eqb_refl. destruct (Nat.eqb_spec i p); [contradiction|].
  reflexivity.
Qed.

Lemma write_back_row (j : nat) :
  j <> p -> omega' p j k = y k (unskip p j).
Proof.
  intros Hj. unfold omega', write_back.
  rewrite Nat.eqb_refl. destruct (Nat.eqb_spec j p); [contradiction|].
  reflexivity.
Qed.

Lemma write_back_other (i j : nat) :
  i <> p -> j <> p -> omega' i j k = omega i j k.
Proof.
  intros Hi Hj. unfold omega', write_back.
  destruct (Nat.eqb_spec i p); [contradiction|].
  destruct (Nat.eqb_spec j p); [contradiction|].
  reflexivity.
Qed.
End WriteBack.

Lemma unskip_lt (m p i : nat) :
  (p <= m)%nat -> (i < S m)%nat -> i <> p -> (unskip p i < m)%nat.
Proof.
  unfold unskip. intros Hp Hi Hne. destruct (Nat.ltb_spec i p); lia.
Qed.

(** [np.dot(np.dot(y, B), y)] is [y . (B y)]. *)
Lemma dot_vecmat_matvec (n : nat) (B : mat) (y : vec) :
  dot n (vecmat n y B) y = dot n (matvec n B y) y.
Proof.
  unfold dot, vecmat, matvec.
  rewrite (rsum_ext n _ (fun j => rsum n (fun i => y i * B i j * y j)))
    by (intros j _; rewrite <- rsum_scal_r; reflexivity).
  rewrite rsum_swap. apply rsum_ext. intros i _.
  rewrite <- rsum_scal_r. apply rsum_ext. intros; ring.
Qed.

(** The step on one task, as a statement on matrices: [W] is [Omega]
    without row and column [p], [B] its inverse, and the new matrix has
    [y] in row and column [p] and [1/s + y^T B y] on the diagonal. *)
Lemma schur_complement_spd (m p : nat) (Omega Omega' B : mat) (y : vec)
    (s : R) :
  (p <= m)%nat ->
  spd (S m) Omega ->
  inverse_of m (submatrix Omega p) B ->
  0 < s ->
  Omega' p p = 1 / s + dot m (vecmat m y B) y ->
  (forall i, (i < S m)%nat -> i <> p -> Omega' i p = y (unskip p i)) ->
  (forall j, (j < S m)%nat -> j <> p -> Omega' p j = y (unskip p j)) ->
  (forall i j, i <> p -> j <> p -> Omega' i j = Omega i j) ->
  spd (S m) Omega'.
Proof.
  intros Hp Hspd Hinv Hs Hdiag Hcol Hrow Hother.
  pose proof (submatrix_spd m p Omega Hp Hspd) as [HWsym HWpd].
  destruct Hspd as [Hsym Hpd].
  split.
  - intros i j Hi Hj.
    destruct (Nat.eq_dec i p) as [->|Hip], (Nat.eq_dec j p) as [->|Hjp].
    + reflexivity.
    + rewrite Hrow, Hcol by assumption. reflexivity.
    + rewrite Hrow, Hcol by assumption. reflexivity.
    + rewrite !Hother by assumption. apply Hsym; assumption.
  - intros x [i [Hi Hx]].
    set (W := submatrix Omega p) in *.
    set (z := fun a : nat => x (skip p a)).
    set (w := matvec m B y).
    set (t := x p).
    assert (HzW : forall u : vec, bil_form m W u w = dot m u y).
    { intros u. rewrite bil_form_matvec. unfold dot.
      apply rsum_ext. intros a Ha. unfold w.
      rewrite (matvec_inverse m W B y a Hinv Ha). reflexivity. }
    assert (Hsplit : quad_form (S m) Omega' x
                     = quad_form m W (fun a => z a + t * w a) + t * t / s).
    { rewrite (quad_form_split m p) by assumption.
      rewrite Hdiag. fold t.
      rewrite (rsum_ext m (fun b => Omega' p (skip p b) * x (skip p b))
                 (fun b => z b * y b)).
      2:{ intros b Hb. rewrite Hrow, unskip_skip;
            [unfold z; ring|apply skip_lt; exact Hb|apply skip_neq]. }
      rewrite (rsum_ext m (fun a => x (skip p a) * Omega' (skip p a) p)
                 (fun a => z a * y a)).
      2:{ intros a Ha. rewrite Hcol, unskip_skip;
            [unfold z; ring|apply skip_lt; exact Ha|apply skip_neq]. }
      rewrite (quad_form_bil m (submatrix Omega' p)).
      rewrite (bil_form_ext m (submatrix Omega' p) W
                 (fun a => x (skip p a)) z (fun a => x (skip p a)) z).
      2:{ intros a b _ _. unfold W, submatrix.
          apply Hother; apply skip_neq. }
      2,3: (intros a _; reflexivity).
      rewrite quad_form_bil, bil_form_add_l, !bil_form_add_r.
      rewrite (bil_form_sym m W w z HWsym).
      rewrite !HzW. rewrite dot_vecmat_matvec. fold w.
      fold (dot m z y). field. lra. }
    rewrite Hsplit.
    pose proof (positive_definite_nonneg m W (fun a => z a + t * w a) HWpd)
      as Hge.
    destruct (Req_dec t 0) as [Ht|Ht].
    + assert (Hip : i <> p).
      { intros ->. apply Hx. exact Ht. }
      assert (0 < quad_form m W z) as Hz.
      { apply HWpd. exists (unskip p i). split.
        - apply unskip_lt; assumption.
        - unfold z. rewrite skip_unskip by assumption. exact Hx. }
      rewrite quad_form_bil in *.
      rewrite (bil_form_ext m W W (fun a => z a + t * w a) z
                 (fun a => z a + t * w a) z).
      * rewrite Ht. unfold Rdiv. lra.
      * intros a b _ _. reflexivity.
      * intros a _. rewrite Ht. ring.
      * intros a _. rewrite Ht. ring.
    + assert (0 < t * t / s).
      { apply Rdiv_lt_0_compat; [nra|exact Hs]. }
      lra.
Qed.

(** ** The step of the sweep on the store *)

Section StepFacts.
Context {L : Library}.
Variables (omega_loc emp_loc : loc) (n_samples : vec).
Variables (n_tasks n_var : nat) (rho : R).

(** What a step that ends without an exception has done: the submatrix
    phase returned the [W] and [Winv] now in the state, and [omega] is the
    [write_back] of some [y]. *)
Lemma step_p_returns (p : nat) (s s' : state) :
  step_p omega_loc emp_loc n_samples n_tasks n_var rho p s = (s', None) ->
  submatrix_phase n_tasks n_var (as_stack (st_heap s !!! omega_loc))
    (st_W s) (st_Winv s) p = Return (st_W s', st_Winv s') /\
  exists y : mat,
    st_heap s'
    = <[omega_loc :=
          array3 (shape (st_heap s !!! omega_loc))
            (write_back n_tasks n_var (as_stack (st_heap s !!! emp_loc))
               (st_Winv s') (as_stack (st_heap s !!! omega_loc)) y p)]>
        (st_heap s).
Proof.
  unfold step_p. intros H.
  destruct (submatrix_phase n_tasks n_var
              (as_stack (st_heap s !!! omega_loc)) (st_W s) (st_Winv s) p)
    as [[W Winv]|e]; [|discriminate].
  destruct (coordinate_descent _ _ _ _ _ _ _ _ _)
    as [[y w] [e|]]; [discriminate H|].
  injection H as <-. cbn.
  split; [reflexivity|]. exists y. reflexivity.
Qed.
End StepFacts.

(** ** The Newton-Raphson iteration *)

(** The number of steps never exceeds [maxiter]. *)
Lemma newton_steps_budget (func fprime : R -> R) (tol : R) (maxiter : nat)
    (p0 : R) :
  (snd (newton_steps func fprime tol maxiter p0) <= maxiter)%nat.
Proof.
  revert p0. induction maxiter as [|fuel IH]; intros p0; simpl; [lia|].
  destruct (Req_dec_T (fprime p0) 0) as [E|E]; [simpl; lia|].
  destruct (Rlt_dec _ tol) as [Hlt|Hlt]; [simpl; lia|].
  specialize (IH (p0 - func p0 / fprime p0)).
  destruct (newton_steps func fprime tol fuel _) as [r k]. simpl in *. lia.
Qed.

(** A property of the starting point that every Newton step preserves
    holds of the value returned. *)
Lemma newton_steps_invariant (P : R -> Prop) (func fprime : R -> R) (tol : R) :
  (forall p, P p -> fprime p <> 0 -> P (p - func p / fprime p)) ->
  forall (maxiter : nat) (p0 alpha : R),
    P p0 ->
    newton_value (fst (newton_steps func fprime tol maxiter p0)) = Some alpha ->
    P alpha.
Proof.
  intros Hstep. induction maxiter as [|fuel IH]; intros p0 alpha HP; simpl.
  - discriminate.
  - destruct (Req_dec_T (fprime p0) 0) as [E|E]; simpl.
    + intros [= <-]. exact HP.
    + destruct (Rlt_dec _ tol) as [Hlt|Hlt]; simpl.
      * intros [= <-]. apply Hstep; assumption.
      * specialize (IH (p0 - func p0 / fprime p0) alpha
                      (Hstep p0 HP E)).
        destruct (newton_steps func fprime tol fuel _) as [r k].
        exact IH.
Qed.

(** [1/t^2] lies above its tangents on the positive reals. *)
Lemma inv_sq_above_tangent (t0 t : R) :
  0 < t0 -> 0 < t ->
  / t0 ^ 2 - 2 * (t - t0) / t0 ^ 3 <= / t ^ 2.
Proof.
  intros H0 Ht.
  assert (E : / t ^ 2 - (/ t0 ^ 2 - 2 * (t - t0) / t0 ^ 3)
              = (t - t0) ^ 2 * (2 * t + t0) / (t ^ 2 * t0 ^ 3)).
  { field. split; lra. }
  assert (0 <= (t - t0) ^ 2 * (2 * t + t0) / (t ^ 2 * t0 ^ 3)).
  { apply Rmult_le_pos.
    - apply Rmult_le_pos; [apply pow2_ge_0|lra].
    - left. apply Rinv_0_lt_compat.
      apply Rmult_lt_0_compat; apply pow_lt; assumption. }
  lra.
Qed.

Lemma sqrt_above (S rho : R) :
  0 <= rho -> ~ sqrt S <= rho -> rho ^ 2 < S.
Proof.
  intros Hrho Hn. apply Rnot_le_lt. intros Hle. apply Hn.
  replace rho with (sqrt (rho ^ 2)).
  - apply sqrt_le_1_alt. exact Hle.
  - replace (rho ^ 2) with (rho * rho) by ring. apply sqrt_square. exact Hrho.
Qed.

Section TrustRegion.
Variables (n : nat) (c q : vec) (rho : R).
Hypothesis Hq : forall k, (k < n)%nat -> 0 < q k.

Let g := coord_g n c q rho.
Let g' := coord_g' n c q rho.

Lemma coord_g'_nonneg (alpha : R) : 0 <= alpha -> 0 <= g' alpha.
Proof.
  intros Ha. unfold g', coord_g', quad_trust_region_deriv.
  apply rsum_nonneg. intros k Hk. specialize (Hq k Hk).
  assert (0 < 1 + alpha * q k) by nra.
  apply Rmult_le_pos.
  - assert (0 <= c k * c k) by nra. nra.
  - left. apply Rinv_0_lt_compat. apply pow_lt. assumption.
Qed.

(** A Newton step from a point on the left of the root stays on the left
    of the root and does not move back. *)
Lemma newton_step_left (alpha : R) :
  0 <= alpha -> g alpha <= 0 -> g' alpha <> 0 ->
  0 <= alpha - g alpha / g' alpha /\ g (alpha - g alpha / g' alpha) <= 0.
Proof.
  intros Ha Hg Hg'.
  assert (Hpos : 0 < g' alpha).
  { pose proof (coord_g'_nonneg alpha Ha). lra. }
  set (d := - g alpha / g' alpha).
  assert (Hd : 0 <= d).
  { unfold d. apply Rmult_le_pos; [lra|].
    left. apply Rinv_0_lt_compat. exact Hpos. }
  replace (alpha - g alpha / g' alpha) with (alpha + d)
    by (unfold d; field; lra).
  split; [lra|].
  assert (Hdg : d * g' alpha = - g alpha) by (unfold d; field; lra).
  unfold g, coord_g, quad_trust_region in *.
  unfold g', coord_g', quad_trust_region_deriv in Hdg.
  rewrite <- rsum_scal in Hdg.
  assert (Hsum :
    rsum n (fun k => c k * c k / (1 + alpha * q k) ^ 2)
    + rsum n (fun k => - (d * (2 * (c k * c k) * q k
                                 / (1 + alpha * q k) ^ 3)))
    <= rsum n (fun k => c k * c k / (1 + (alpha + d) * q k) ^ 2)).
  { rewrite <- rsum_plus. apply rsum_le. intros k Hk.
    specialize (Hq k Hk).
    assert (H0 : 0 < 1 + alpha * q k) by nra.
    assert (H1 : 0 < 1 + (alpha + d) * q k) by nra.
    pose proof (inv_sq_above_tangent _ _ H0 H1) as Ht.
    assert (Hcc : 0 <= c k * c k) by nra.
    replace (c k * c k / (1 + alpha * q k) ^ 2
             + - (d * (2 * (c k * c k) * q k / (1 + alpha * q k) ^ 3)))
      with (c k * c k *
            (/ (1 + alpha * q k) ^ 2
             - 2 * (1 + (alpha + d) * q k - (1 + alpha * q k))
               / (1 + alpha * q k) ^ 3))
      by (field; lra).
    unfold Rdiv at 2. apply Rmult_le_compat_l; assumption. }
  rewrite (rsum_ext n
             (fun k => - (d * (2 * (c k * c k) * q k
                               / (1 + alpha * q k) ^ 3)))
             (fun k => (-1) * (d * (2 * (c k * c k) * q k
                                    / (1 + alpha * q k) ^ 3))))
    in Hsum by (intros; ring).
  rewrite rsum_scal in Hsum. lra.
Qed.

(** What the root-find returns, when it returns, is not negative and is
    not beyond the root. *)
Lemma newton_left_of_root (tol : R) (maxiter : nat) (alpha : R) :
  0 <= rho -> ~ sqrt (dot n c c) <= rho ->
  newton_value (fst (newton g 0 g' tol maxiter)) = Some alpha ->
  0 <= alpha /\ g alpha <= 0.
Proof.
  intros Hrho Hc2 Hret. unfold newton in Hret.
  apply (newton_steps_invariant (fun a => 0 <= a /\ g a <= 0) g g' tol)
    with (maxiter := maxiter) (p0 := 1 * 0).
  - intros p [Hp Hg] Hg'. apply newton_step_left; assumption.
  - split; [lra|]. rewrite Rmult_0_r.
    pose proof (sqrt_above _ _ Hrho Hc2) as Hlt.
    unfold g, coord_g, quad_trust_region, dot in *.
    rewrite (rsum_ext n _ (fun k => c k * c k)); [lra|].
    intros k _. field.
  - exact Hret.
Qed.
End TrustRegion.

(** ** The coordinate solver *)

Section CoordinateUpdate.
Variables (n_tasks n_var : nat) (n_samples : vec).
Variables (emp_covs Winv : stack) (u : mat) (rho : R) (p m : nat) (y : mat).

Let c := coord_c n_var n_samples emp_covs Winv u y p m.
Let q := coord_q n_samples emp_covs Winv p m.
Let g := coord_g n_tasks c q rho.
Let g' := coord_g' n_tasks c q rho.
Let tol := 15 / 10000000.

(** [c] in the terms of the specification: the scalar product runs over
    the positions of [y] other than [m]. *)
Lemma coord_c_formula (k : nat) :
  (m < n_var - 1)%nat ->
  c k = - n_samples k *
        (emp_covs p p k *
           rsum (n_var - 1)
             (fun j => if (j =? m)%nat then 0 else Winv j m k * y k j)
         + u k m).
Proof.
  intros Hm. unfold c, coord_c, h_12, y_1.
  replace (n_var - 1)%nat with (S (n_var - 2)) by lia.
  rewrite <- (rsum_skip_except (n_var - 2) m
                (fun j => Winv j m k * y k j)) by lia.
  reflexivity.
Qed.

Lemma coord_g_formula (alpha : R) :
  g alpha
  = rho ^ 2 - rsum n_tasks (fun k => c k ^ 2 / (1 + alpha * q k) ^ 2).
Proof.
  unfold g, coord_g, quad_trust_region. f_equal.
  apply rsum_ext. intros k _. unfold Rdiv. f_equal. ring.
Qed.

Lemma coordinate_update_small :
  sqrt (dot n_tasks c c) <= rho ->
  coordinate_update n_tasks n_var n_samples emp_covs Winv u rho p m y
  = Return (set_column y m (fun _ => 0), false).
Proof.
  intros Hle. unfold coordinate_update. fold c.
  destruct (Rle_dec (sqrt (dot n_tasks c c)) rho); [reflexivity|].
  contradiction.
Qed.

Lemma coordinate_update_large :
  ~ sqrt (dot n_tasks c c) <= rho ->
  coordinate_update n_tasks n_var n_samples emp_covs Winv u rho p m y
  = match newton_value (fst (newton g 0 g' tol 50)) with
    | None => Raise RuntimeError_newton
    | Some alpha =>
        Return (set_column y m (fun k => (alpha * c k) / (1 + alpha * q k)),
                if Rgt_dec (Rabs (g alpha)) (1 / 10) then true else false)
    end.
Proof.
  intros Hgt. unfold coordinate_update. fold c.
  destruct (Rle_dec (sqrt (dot n_tasks c c)) rho); [contradiction|].
  reflexivity.
Qed.
End CoordinateUpdate.

(** C1 (amended).  For the excluded row [p] and the coordinate [m], with
    [c_k = -n_samples_k (emp_cov_k[p,p] <h12_k, y1_k> + u_k[m])] and
    [q_k = n_samples_k emp_cov_k[p,p] Winv_k[m,m]]: the column written into
    [y[:, m]] is zero when the Euclidean norm of [c] is at most [rho];
    otherwise, when the Newton-Raphson iteration on
    [g(alpha) = rho^2 - sum_k c_k^2 / (1 + alpha q_k)^2] started at 0 returns
    [alpha], it is [alpha c_k / (1 + alpha q_k)], and that [alpha] is not
    negative and not beyond the root ([g(alpha) <= 0]) when [rho >= 0] and
    every [q_k] is positive; when the iteration does not return, its
    RuntimeError leaves the solver. *)
Theorem coordinate_update_spec (n_tasks n_var : nat) (n_samples : vec)
    (emp_covs Winv : stack) (u : mat) (rho : R) (p m : nat) (y : mat) :
  (m < n_var - 1)%nat ->
  let c := coord_c n_var n_samples emp_covs Winv u y p m in
  let q := coord_q n_samples emp_covs Winv p m in
  let g := coord_g n_tasks c q rho in
  let g' := coord_g' n_tasks c q rho in
  (forall k,
     c k = - n_samples k *
           (emp_covs p p k *
              rsum (n_var - 1)
                (fun j => if (j =? m)%nat then 0 else Winv j m k * y k j)
            + u k m)) /\
  (forall k, q k = n_samples k * emp_covs p p k * Winv m m k) /\
  (forall alpha,
     g alpha
     = rho ^ 2 - rsum n_tasks (fun k => c k ^ 2 / (1 + alpha * q k) ^ 2)) /\
  (sqrt (rsum n_tasks (fun k => c k * c k)) <= rho ->
   coordinate_update n_tasks n_var n_samples emp_covs Winv u rho p m y
   = Return (set_column y m (fun _ => 0), false)) /\
  (~ sqrt (rsum n_tasks (fun k => c k * c k)) <= rho ->
   match coordinate_update n_tasks n_var n_samples emp_covs Winv u rho p m y
   with
   | Return (y', _) =>
       exists alpha,
         newton_value (fst (newton g 0 g' (15 / 10000000) 50)) = Some alpha /\
         y' = set_column y m (fun k => (alpha * c k) / (1 + alpha * q k)) /\
         (0 <= rho -> (forall k, (k < n_tasks)%nat -> 0 < q k) ->
          0 <= alpha /\ g alpha <= 0)
   | Raise e =>
       e = RuntimeError_newton /\
       newton_value (fst (newton g 0 g' (15 / 10000000) 50)) = None
   end).
Proof.
  intros Hm c q g g'.
  split; [intros k; apply coord_c_formula; exact Hm|].
  split; [intros k; reflexivity|].
  split; [intros alpha; apply coord_g_formula|].
  split; [intros Hle; apply coordinate_update_small; exact Hle|].
  intros Hgt.
  rewrite coordinate_update_large by exact Hgt.
  fold c q g g'.
  destruct (newton_value (fst (newton g 0 g' (15 / 10000000) 50)))
    as [alpha|] eqn:Hnewton.
  - exists alpha. split; [reflexivity|]. split; [reflexivity|].
    intros Hrho Hq.
    apply (newton_left_of_root n_tasks c q rho Hq (15 / 10000000) 50 alpha
             Hrho Hgt Hnewton).
  - split; reflexivity.
Qed.

(** An iteration that does not return has used all its steps. *)
Lemma newton_steps_exhausted (func fprime : R -> R) (tol : R) :
  forall (maxiter : nat) (p0 : R),
    newton_value (fst (newton_steps func fprime tol maxiter p0)) = None ->
    snd (newton_steps func fprime tol maxiter p0) = maxiter.
Proof.
  induction maxiter as [|fuel IH]; intros p0; [reflexivity|].
  cbn [newton_steps]. cbv zeta.
  destruct (Req_dec_T (fprime p0) 0) as [E|E]; [discriminate|].
  destruct (Rlt_dec _ tol) as [Hlt|Hlt]; [discriminate|].
  specialize (IH (p0 - func p0 / fprime p0)).
  destruct (newton_steps func fprime tol fuel _) as [r k].
  cbn [fst snd] in *. intros Hnone. rewrite (IH Hnone). reflexivity.
Qed.

(** The budget of the root-find and the warning.  When the norm of [c]
    exceeds [rho], the root-find is called with the starting point 0, the
    tolerance 1.5e-6 and at most 50 steps.  Whenever it returns a value [alpha], the loop body ends without
    an exception, with [alpha c / (1 + alpha q)] written into [y[:, m]], and
    the count of "did not converge" warnings grows by one if and only if
    [|g(alpha)|] exceeds 0.1.  When it does not return, it has taken its 50
    steps and the loop body ends with its RuntimeError: nothing is written
    and nothing is warned. *)
Theorem newton_budget_and_warning (n_tasks n_var : nat) (n_samples : vec)
    (emp_covs Winv : stack) (u : mat) (rho : R) (p m : nat) (y : mat)
    (w : nat) :
  let c := coord_c n_var n_samples emp_covs Winv u y p m in
  let q := coord_q n_samples emp_covs Winv p m in
  let g := coord_g n_tasks c q rho in
  let g' := coord_g' n_tasks c q rho in
  ~ sqrt (dot n_tasks c c) <= rho ->
  (snd (newton g 0 g' (15 / 10000000) 50) <= 50)%nat /\
  (forall alpha,
     newton_value (fst (newton g 0 g' (15 / 10000000) 50)) = Some alpha ->
     exists w',
       coordinate_step n_tasks n_var n_samples emp_covs Winv u rho p m (y, w)
       = ((set_column y m (fun k => (alpha * c k) / (1 + alpha * q k)), w'),
          None) /\
       (Rabs (g alpha) > 1 / 10 -> w' = S w) /\
       (~ Rabs (g alpha) > 1 / 10 -> w' = w)) /\
  (newton_value (fst (newton g 0 g' (15 / 10000000) 50)) = None ->
   snd (newton g 0 g' (15 / 10000000) 50) = 50%nat /\
   coordinate_step n_tasks n_var n_samples emp_covs Winv u rho p m (y, w)
   = ((y, w), Some RuntimeError_newton)).
Proof.
  intros c q g g' Hgt.
  split; [apply newton_steps_budget|].
  split.
  - intros alpha Hnewton.
    unfold coordinate_step.
    rewrite coordinate_update_large by exact Hgt.
    fold c q g g'. rewrite Hnewton.
    destruct (Rgt_dec (Rabs (g alpha)) (1 / 10)) as [Hw|Hw].
    + exists (S w). split; [reflexivity|]. split; [reflexivity|].
      intros Hn. contradiction.
    + exists w. split; [reflexivity|]. split; [|reflexivity].
      intros Hy. contradiction.
  - intros Hnone. split.
    + revert Hnone. unfold newton. apply newton_steps_exhausted.
    + unfold coordinate_step.
      rewrite coordinate_update_large by exact Hgt.
      fold c q g g'. rewrite Hnone. reflexivity.
Qed.

(** ** The solver on data of large variance *)

Lemma c_large_value (k : nat) : c_large k = -1.
Proof.
  unfold c_large, coord_c, u_large, emp_large, stack_of, mat_of_rows, ones,
    skip. simpl. lra.
Qed.

Lemma q_large_value (k : nat) : q_large k = 1000000.
Proof.
  unfold q_large, coord_q, emp_large, Winv_large, stack_of, mat_of_rows, ones.
  simpl. lra.
Qed.

Lemma g_large_value (alpha : R) :
  coord_g 1 c_large q_large 0 alpha = - / (1 + alpha * 1000000) ^ 2.
Proof.
  unfold coord_g, quad_trust_region. cbn [rsum].
  rewrite c_large_value, q_large_value. unfold Rdiv. ring.
Qed.

Lemma g'_large_value (alpha : R) :
  coord_g' 1 c_large q_large 0 alpha = 2000000 / (1 + alpha * 1000000) ^ 3.
Proof.
  unfold coord_g', quad_trust_region_deriv. cbn [rsum].
  rewrite c_large_value, q_large_value. unfold Rdiv. ring.
Qed.

Lemma norm_c_large : ~ sqrt (dot 1 c_large c_large) <= 0.
Proof.
  unfold dot. cbn [rsum]. rewrite c_large_value.
  replace (0 + -1 * -1) with 1 by ring. rewrite sqrt_1. lra.
Qed.

(** The first step already ends the iteration when it is shorter than the
    tolerance. *)
Lemma newton_steps_first (func fprime : R -> R) (tol : R) (fuel : nat)
    (p0 : R) :
  fprime p0 <> 0 ->
  Rabs (p0 - func p0 / fprime p0 - p0) < tol ->
  newton_steps func fprime tol (S fuel) p0
  = (Root (p0 - func p0 / fprime p0), 1%nat).
Proof.
  intros Hder Hstep. simpl.
  destruct (Req_dec_T (fprime p0) 0) as [E|_]; [contradiction|].
  destruct (Rlt_dec _ tol) as [_|H]; [reflexivity|contradiction].
Qed.

Lemma newton_large :
  newton (coord_g 1 c_large q_large 0) 0 (coord_g' 1 c_large q_large 0)
    (15 / 10000000) 50
  = (Root (1 / 2000000), 1%nat).
Proof.
  unfold newton.
  assert (Hg : coord_g 1 c_large q_large 0 (1 * 0) = -1).
  { rewrite g_large_value. field. }
  assert (Hg' : coord_g' 1 c_large q_large 0 (1 * 0) = 2000000).
  { rewrite g'_large_value. field. }
  rewrite newton_steps_first.
  - rewrite Hg, Hg'. do 2 f_equal. field.
  - rewrite Hg'. lra.
  - rewrite Hg, Hg'.
    replace (1 * 0 - -1 / 2000000 - 1 * 0) with (1 / 2000000) by field.
    rewrite Rabs_pos_eq; lra.
Qed.

Lemma g_large_negative (alpha : R) :
  0 <= alpha -> coord_g 1 c_large q_large 0 alpha < 0.
Proof.
  intros Ha. rewrite g_large_value.
  apply Ropp_lt_gt_0_contravar, Rinv_0_lt_compat, pow_lt.
  assert (0 <= alpha * 1000000) by (apply Rmult_le_pos; lra).
  lra.
Qed.

Lemma coordinate_update_large_value :
  coordinate_update 1 2 ones emp_large Winv_large u_large 0 0 0 y_zero
  = Return (set_column y_zero 0
              (fun k => (1 / 2000000 * c_large k)
                        / (1 + 1 / 2000000 * q_large k)),
            true).
Proof.
  rewrite coordinate_update_large by exact norm_c_large.
  fold c_large q_large. rewrite newton_large. cbn [fst newton_value].
  rewrite g_large_value.
  destruct (Rgt_dec _ (1 / 10)) as [_|H]; [reflexivity|].
  exfalso. apply H.
  replace (- / (1 + 1 / 2000000 * 1000000) ^ 2) with (- (4 / 9)) by field.
  rewrite Rabs_Ropp, Rabs_pos_eq; lra.
Qed.

(** C1 (counterexample).  One task, two variables of variance 1000 and
    covariance 1, [rho = 0], first coordinate of the first sweep: the norm
    of [c] is 1, the root-find stops after its first step at
    [alpha = 1/2000000] because the step is below the tolerance, the column
    [alpha c / (1 + alpha q)] is written (with the warning), and [g] has no
    root among the non-negative numbers. *)
Lemma coordinate_update_without_root :
  ~ sqrt (rsum 1 (fun k => c_large k * c_large k)) <= 0 /\
  coordinate_update 1 2 ones emp_large Winv_large u_large 0 0 0 y_zero
  = Return (set_column y_zero 0
              (fun k => (1 / 2000000 * c_large k)
                        / (1 + 1 / 2000000 * q_large k)),
            true) /\
  ~ exists alpha, 0 <= alpha /\ coord_g 1 c_large q_large 0 alpha = 0.
Proof.
  split; [exact norm_c_large|].
  split; [exact coordinate_update_large_value|].
  intros [alpha [Ha Hg]].
  pose proof (g_large_negative alpha Ha). lra.
Qed.

Lemma coordinate_update_spec_witness :
  exists alpha,
    newton_value
      (fst (newton (coord_g 1 c_large q_large 0) 0
              (coord_g' 1 c_large q_large 0) (15 / 10000000) 50))
    = Some alpha /\
    0 <= alpha /\ coord_g 1 c_large q_large 0 alpha <= 0.
Proof.
  pose proof (coordinate_update_spec 1 2 ones emp_large Winv_large u_large
                0 0 0 y_zero ltac:(simpl; lia)) as H.
  cbv zeta in H. fold c_large q_large in H.
  destruct H as (_ & _ & _ & _ & H).
  specialize (H norm_c_large).
  rewrite coordinate_update_large_value in H.
  destruct H as [alpha (Hn & _ & Hroot)].
  exists alpha. split; [exact Hn|].
  apply Hroot; [lra|].
  intros k _. rewrite q_large_value. lra.
Defined.

Lemma newton_budget_and_warning_witness :
  coordinate_step 1 2 ones emp_large Winv_large u_large 0 0 0 (y_zero, 0%nat)
  = ((set_column y_zero 0
        (fun k => (1 / 2000000 * c_large k) / (1 + 1 / 2000000 * q_large k)),
      1%nat), None).
Proof.
  destruct (newton_budget_and_warning 1 2 ones emp_large Winv_large u_large
              0 0 0 y_zero 0 norm_c_large) as (_ & Hret & _).
  destruct (Hret (1 / 2000000)) as (w' & Hstep & Hwarn & _).
  - fold c_large q_large. rewrite newton_large. reflexivity.
  - rewrite Hstep, Hwarn; [reflexivity|].
    fold c_large q_large. rewrite g_large_value.
    replace (- / (1 + 1 / 2000000 * 1000000) ^ 2) with (- (4 / 9)) by field.
    rewrite Rabs_Ropp, Rabs_pos_eq; lra.
Defined.

(** ** When the root-find runs out of steps *)

(** If no step from a point of [P] is shorter than the tolerance, the
    iteration started in [P] uses up its steps. *)
Lemma newton_steps_not_converged (P : R -> Prop) (func fprime : R -> R)
    (tol : R) :
  (forall p, P p ->
     fprime p <> 0 /\ ~ Rabs (p - func p / fprime p - p) < tol /\
     P (p - func p / fprime p)) ->
  forall (maxiter : nat) (p0 : R),
    P p0 -> newton_steps func fprime tol maxiter p0 = (NotConverged, maxiter).
Proof.
  intros Hstep. induction maxiter as [|fuel IH]; intros p0 HP; [reflexivity|].
  destruct (Hstep p0 HP) as (Hd & Hs & HP').
  cbn [newton_steps]. cbv zeta.
  destruct (Req_dec_T (fprime p0) 0); [contradiction|].
  destruct (Rlt_dec _ tol); [contradiction|].
  rewrite (IH _ HP'). reflexivity.
Qed.

(** Without a penalty and with one task, [g] is negative everywhere; each
    Newton step from [alpha >= 0] has the length [(1 + alpha q) / (2 q)]. *)
Lemma newton_step_no_penalty (c q : vec) (alpha : R) :
  c 0%nat <> 0 -> 0 < q 0%nat -> 0 <= alpha ->
  coord_g' 1 c q 0 alpha <> 0 /\
  alpha - coord_g 1 c q 0 alpha / coord_g' 1 c q 0 alpha
  = alpha + (1 + alpha * q 0%nat) / (2 * q 0%nat).
Proof.
  intros Hc Hq Ha.
  assert (Hd : 0 < 1 + alpha * q 0%nat) by nra.
  unfold coord_g, coord_g', quad_trust_region, quad_trust_region_deriv.
  cbn [rsum].
  assert (Hg' : 0 + 2 * (c 0%nat * c 0%nat) * q 0%nat
                    / (1 + alpha * q 0%nat) ^ 3 <> 0).
  { rewrite Rplus_0_l. unfold Rdiv. apply Rmult_integral_contrapositive.
    split.
    - apply Rmult_integral_contrapositive. split; [|lra].
      apply Rmult_integral_contrapositive. split; [lra|].
      apply Rmult_integral_contrapositive. split; assumption.
    - apply Rinv_neq_0_compat. apply pow_nonzero. lra. }
  split; [exact Hg'|].
  field. repeat split; lra.
Qed.

(** The root-find fails, and its exception leaves the loop body, when
    [rho = 0], there is one task, [c] is not zero and [q] is positive and at
    most 333333 (so that no step is shorter than the tolerance). *)
Lemma coordinate_step_no_penalty (n_var : nat) (n_samples : vec)
    (emp_covs Winv : stack) (u : mat) (p m : nat) (y : mat) (w : nat) :
  let c := coord_c n_var n_samples emp_covs Winv u y p m in
  let q := coord_q n_samples emp_covs Winv p m in
  c 0%nat <> 0 ->
  0 < q 0%nat <= 333333 ->
  newton (coord_g 1 c q 0) 0 (coord_g' 1 c q 0) (15 / 10000000) 50
  = (NotConverged, 50%nat) /\
  coordinate_step 1 n_var n_samples emp_covs Winv u 0 p m (y, w)
  = ((y, w), Some RuntimeError_newton).
Proof.
  intros c q Hc [Hq0 Hq1].
  assert (Hnewton :
    newton (coord_g 1 c q 0) 0 (coord_g' 1 c q 0) (15 / 10000000) 50
    = (NotConverged, 50%nat)).
  { unfold newton.
    apply (newton_steps_not_converged (fun a => 0 <= a)); [|lra].
    intros a Ha.
    destruct (newton_step_no_penalty c q a Hc Hq0 Ha) as [Hd Hs].
    split; [exact Hd|]. rewrite Hs.
    assert (Hlen : 1 / (2 * q 0%nat) <= (1 + a * q 0%nat) / (2 * q 0%nat)).
    { unfold Rdiv. apply Rmult_le_compat_r.
      - left. apply Rinv_0_lt_compat. lra.
      - nra. }
    assert (Hmin : 15 / 10000000 < 1 / (2 * q 0%nat)).
    { apply Rlt_le_trans with (1 / 666666); [lra|].
      unfold Rdiv. apply Rmult_le_compat_l; [lra|].
      apply Rinv_le_contravar; lra. }
    split.
    - replace (a + (1 + a * q 0%nat) / (2 * q 0%nat) - a)
        with ((1 + a * q 0%nat) / (2 * q 0%nat)) by ring.
      rewrite Rabs_pos_eq by lra. lra.
    - lra. }
  split; [exact Hnewton|].
  unfold coordinate_step.
  rewrite coordinate_update_large.
  - fold c q. rewrite Hnewton. reflexivity.
  - fold c. unfold dot. cbn [rsum]. rewrite Rplus_0_l.
    intros Hle.
    assert (0 < c 0%nat * c 0%nat) by nra.
    pose proof (sqrt_lt_R0 _ H). lra.
Qed.

(** ** Loops: invariants and the origin of exceptions *)

Lemma for_range_invariant {St : Type} (P : St -> Prop)
    (body : nat -> St -> St * option exn) :
  (forall i s, P s -> P (fst (body i s))) ->
  forall count start s, P s -> P (fst (for_range body start count s)).
Proof.
  intros Hbody. induction count as [|c IH]; intros start s HP; simpl.
  - exact HP.
  - pose proof (Hbody start s HP) as H1.
    destruct (body start s) as [s' [e|]]; simpl in *.
    + exact H1.
    + apply IH. exact H1.
Qed.

Lemma for_range_raises {St : Type} (Q : exn -> Prop)
    (body : nat -> St -> St * option exn) :
  (forall i s e, snd (body i s) = Some e -> Q e) ->
  forall count start s e,
    snd (for_range body start count s) = Some e -> Q e.
Proof.
  intros Hbody. induction count as [|c IH]; intros start s e; simpl.
  - discriminate.
  - pose proof (Hbody start s) as H1.
    destruct (body start s) as [s' [e'|]]; simpl in *.
    + intros [= <-]. apply H1. reflexivity.
    + apply IH.
Qed.

(** ** Which exceptions the numerical part can raise *)

Section Exceptions.
Context {L : Library}.

Lemma coordinate_update_raises n_tasks n_var n_samples emp_covs Winv u rho
    p m y e :
  coordinate_update n_tasks n_var n_samples emp_covs Winv u rho p m y
  = Raise e ->
  e = RuntimeError_newton.
Proof.
  unfold coordinate_update.
  destruct (Rle_dec _ rho); [discriminate|].
  destruct (newton_value _); [discriminate|].
  intros [= <-]. reflexivity.
Qed.

Lemma coordinate_descent_raises n_tasks n_var n_samples emp_covs Winv u rho
    p yw e :
  snd (coordinate_descent n_tasks n_var n_samples emp_covs Winv u rho p yw)
  = Some e ->
  e = RuntimeError_newton.
Proof.
  unfold coordinate_descent.
  apply (for_range_raises (fun e => e = RuntimeError_newton)).
  intros m [y w] e'. unfold coordinate_step.
  destruct (coordinate_update _ _ _ _ _ _ _ _ _ _) as [[y' wd]|e0] eqn:E;
    simpl; [discriminate|].
  intros [= <-]. eapply coordinate_update_raises. exact E.
Qed.

Lemma inv_stack_raises M W n_k Winv e :
  inv_stack M W n_k Winv = Raise e -> e = LinAlgError.
Proof.
  induction n_k as [|k IH]; simpl; [discriminate|].
  destruct (inv_stack M W k Winv) as [Winv'|e'].
  - destruct (linalg_inv M (slice W k)); [discriminate|].
    intros [= <-]. reflexivity.
  - intros [= <-]. apply IH. reflexivity.
Qed.

Lemma submatrix_phase_raises n_tasks n_var omega W Winv p e :
  submatrix_phase n_tasks n_var omega W Winv p = Raise e ->
  e = LinAlgError.
Proof.
  unfold submatrix_phase. destruct (p =? 0)%nat; [|discriminate].
  destruct (inv_stack _ _ _ _) as [Winv'|e'] eqn:E; [discriminate|].
  intros [= <-]. eapply inv_stack_raises. exact E.
Qed.

Lemma step_p_raises omega_loc emp_loc n_samples n_tasks n_var rho p s e :
  snd (step_p omega_loc emp_loc n_samples n_tasks n_var rho p s) = Some e ->
  sweep_exception e.
Proof.
  unfold step_p, sweep_exception.
  destruct (submatrix_phase _ _ _ _ _ _) as [[W Winv]|e'] eqn:E; simpl.
  - destruct (coordinate_descent _ _ _ _ _ _ _ _ _) as [[y w] [e'|]] eqn:E2;
      simpl; [|discriminate].
    intros [= <-]. right.
    eapply coordinate_descent_raises. rewrite E2. reflexivity.
  - intros [= <-]. left.
    eapply submatrix_phase_raises. exact E.
Qed.

Lemma sweep_raises omega_loc emp_loc n_samples n_tasks n_var rho s e :
  snd (sweep omega_loc emp_loc n_samples n_tasks n_var rho s) = Some e ->
  sweep_exception e.
Proof.
  unfold sweep. apply (for_range_raises sweep_exception).
  intros i s0 e0. apply step_p_raises.
Qed.

Lemma dual_point_raises n_var n_samples omega emp_covs n_k A e :
  dual_point n_var n_samples omega emp_covs n_k A = Raise e ->
  e = LinAlgError \/ e = AssertionError_spd.
Proof.
  induction n_k as [|k IH]; simpl; [discriminate|].
  destruct (dual_point n_var n_samples omega emp_covs k A) as [A'|e'].
  - destruct (linalg_inv n_var (slice omega k)) as [B|].
    + destruct (is_spd n_var B); [discriminate|].
      intros [= <-]. tauto.
    + intros [= <-]. tauto.
  - intros [= <-]. apply IH. reflexivity.
Qed.

Lemma costs_raises n_tasks n_var n_samples rho omega emp_covs e :
  group_sparse_covariance_costs n_tasks n_var n_samples rho omega emp_covs
  = Raise e ->
  e = LinAlgError \/ e = AssertionError_spd.
Proof.
  unfold group_sparse_covariance_costs.
  destruct (dual_point _ _ _ _ _ _) as [A|e'] eqn:E; [discriminate|].
  intros [= <-]. eapply dual_point_raises. exact E.
Qed.
End Exceptions.

(** ** The outer loop *)

Section Optimize.
Context {L : Library}.
Variables (omega_loc emp_loc : loc) (n_samples : vec).
Variables (n_tasks n_var : nat) (rho : R).
Variables (tol : option R) (return_costs : bool).

Let costs_at (s : state) : result (R * R) :=
  group_sparse_covariance_costs n_tasks n_var n_samples rho
    (as_stack (st_heap s !!! omega_loc))
    (as_stack (st_heap s !!! emp_loc)).

Let run (remaining : nat) (s : state) (costs : list (R * R)) (done : nat) :=
  optimize omega_loc emp_loc n_samples n_tasks n_var rho tol return_costs
    remaining s costs done.

(** Everything the proofs need about a run of the loop, in one induction
    on the number of sweeps still allowed. *)
Lemma optimize_spec (remaining : nat) :
  forall (s : state) (costs : list (R * R)) (done : nat),
    let pr := run remaining s costs done in
    (done <= pr_sweeps pr <= done + remaining)%nat /\
    (pr_raised pr = None -> tol = None ->
     pr_sweeps pr = (done + remaining)%nat) /\
    (pr_raised pr = None -> (pr_sweeps pr < done + remaining)%nat ->
     exists t objective gap,
       tol = Some t /\
       costs_at (pr_state pr) = Return (objective, gap) /\ gap < t) /\
    (pr_raised pr = None -> return_costs = true ->
     exists new,
       pr_costs pr = (costs ++ new)%list /\
       length new = (pr_sweeps pr - done)%nat /\
       forall t, tol = Some t ->
         forall i, (S i < length new)%nat ->
           ~ snd (nth i new (0, 0)) < t) /\
    (return_costs = false -> pr_costs pr = costs) /\
    (forall e, pr_raised pr = Some e ->
       sweep_exception e \/ costs_exception e).
Proof.
  unfold run.
  induction remaining as [|rest IH]; intros s costs done; cbn zeta.
  - simpl.
    repeat split; try lia.
    + intros _ Hrc. exists nil. rewrite app_nil_r.
      repeat split; [simpl; lia|]. intros t _ i Hi. simpl in Hi. lia.
    + intros e. discriminate.
  - simpl.
    destruct (sweep omega_loc emp_loc n_samples n_tasks n_var rho s)
      as [s' [e|]] eqn:Hsweep.
    { simpl. repeat split; try lia; try discriminate.
      intros e' [= <-]. left.
      apply (sweep_raises omega_loc emp_loc n_samples n_tasks n_var rho s).
      rewrite Hsweep. reflexivity. }
    destruct (return_costs || bool_decide (is_Some tol)) eqn:Hneed.
    + fold (costs_at s').
      destruct (costs_at s') as [[objective gap]|e] eqn:Hcosts.
      2:{ simpl. repeat split; try lia; try discriminate.
          intros e' [= <-]. right.
          apply (costs_raises n_tasks n_var n_samples rho _ _ _ Hcosts). }
      set (costs' := if return_costs
                     then (costs ++ (objective, gap) :: nil)%list
                     else costs).
      assert (Hrec :
        forall pr,
          pr = optimize omega_loc emp_loc n_samples n_tasks n_var rho tol
                 return_costs rest s' costs' (S done) ->
          (forall t, tol = Some t -> ~ gap < t) ->
          (done <= pr_sweeps pr <= done + S rest)%nat /\
          (pr_raised pr = None -> tol = None ->
           pr_sweeps pr = (done + S rest)%nat) /\
          (pr_raised pr = None -> (pr_sweeps pr < done + S rest)%nat ->
           exists t objective gap,
             tol = Some t /\
             costs_at (pr_state pr) = Return (objective, gap) /\ gap < t) /\
          (pr_raised pr = None -> return_costs = true ->
           exists new,
             pr_costs pr = (costs ++ new)%list /\
             length new = (pr_sweeps pr - done)%nat /\
             forall t, tol = Some t ->
               forall i, (S i < length new)%nat ->
                 ~ snd (nth i new (0, 0)) < t) /\
          (return_costs = false -> pr_costs pr = costs) /\
          (forall e, pr_raised pr = Some e ->
             sweep_exception e \/ costs_exception e)).
      { intros pr -> Hgap.
        destruct (IH s' costs' (S done))
          as (Hb & Hnone & Hearly & Htrace & Hnotrace & Hexn).
        cbn zeta in *.
        split; [lia|]. split; [intros; rewrite Hnone by assumption; lia|].
        split; [intros Hr Hlt; apply Hearly; [exact Hr|lia]|].
        split.
        - intros Hr Hrc. destruct (Htrace Hr Hrc) as (new & E & Hlen & Hall).
          assert (Hc' : costs' = (costs ++ (objective, gap) :: nil)%list)
            by (unfold costs'; rewrite Hrc; reflexivity).
          exists ((objective, gap) :: new). split.
          + rewrite E, Hc', <- app_assoc. reflexivity.
          + split; [simpl; lia|].
            intros t Ht i Hi. destruct i as [|i]; simpl.
            * apply Hgap. exact Ht.
            * apply (Hall t Ht). simpl in Hi. lia.
        - split; [|exact Hexn].
          intros Hrc. rewrite (Hnotrace Hrc). unfold costs'.
          rewrite Hrc. reflexivity. }
      destruct tol as [t|] eqn:Htol.
      * destruct (Rlt_dec gap t) as [Hlt|Hge].
        -- (* break *)
           simpl. split; [lia|]. split; [discriminate|].
           split.
           { intros _ _. exists t, objective, gap.
             repeat split; assumption. }
           split.
           { intros _ Hrc. exists ((objective, gap) :: nil).
             unfold costs'. rewrite Hrc. split; [reflexivity|].
             split; [simpl; lia|].
             intros t' _ i Hi. simpl in Hi. lia. }
           split; [intros Hrc; unfold costs'; rewrite Hrc; reflexivity|].
           intros e. discriminate.
        -- apply Hrec; [reflexivity|].
           intros t' [= <-]. exact Hge.
      * apply Hrec; [reflexivity|]. intros t'. discriminate.
    + (* neither costs nor tolerance requested *)
      apply orb_false_iff in Hneed as [Hrc Htol].
      apply bool_decide_eq_false in Htol.
      assert (Hnone : tol = None).
      { destruct tol; [exfalso; apply Htol; eexists; reflexivity|reflexivity]. }
      destruct (IH s' costs (S done))
        as (Hb & Hnn & Hearly & Htrace & Hnotrace & Hexn).
      cbn zeta in *.
      split; [lia|]. split; [intros; rewrite Hnn by assumption; lia|].
      split.
      { intros Hr Hlt. destruct (Hearly Hr ltac:(lia)) as (t & _ & _ & Ht & _).
        rewrite Hnone in Ht. discriminate. }
      split; [intros _ Hrc'; rewrite Hrc in Hrc'; discriminate|].
      split; [exact Hnotrace|exact Hexn].
Qed.
End Optimize.

(** ** Writes to the store *)

Section Store.
Context {L : Library}.

Lemma covariance_loop_frame (l : list loc) :
  forall (h : heap) (emp : loc) (k : nat) (ac : bool) (a : loc),
    a <> emp -> covariance_loop h emp l k ac !! a = h !! a.
Proof.
  induction l as [|s rest IH]; intros h emp k ac a Ha; simpl.
  - reflexivity.
  - rewrite IH by exact Ha.
    rewrite !lookup_insert_ne by (intros E; apply Ha; symmetry; exact E).
    reflexivity.
Qed.

Lemma default_init_frame (n_k : nat) :
  forall (h : heap) (omega_loc emp_loc a : loc),
    a <> omega_loc ->
    default_init h omega_loc emp_loc n_k !! a = h !! a.
Proof.
  induction n_k as [|k IH]; intros h omega_loc emp_loc a Ha; simpl.
  - reflexivity.
  - rewrite lookup_insert_ne by (intros E; apply Ha; symmetry; exact E).
    apply IH. exact Ha.
Qed.

Lemma step_p_frame omega_loc emp_loc n_samples n_tasks n_var rho p s a :
  a <> omega_loc ->
  st_heap (fst (step_p omega_loc emp_loc n_samples n_tasks n_var rho p s))
    !! a
  = st_heap s !! a.
Proof.
  intros Ha. unfold step_p.
  destruct (submatrix_phase _ _ _ _ _ _) as [[W Winv]|e]; [|reflexivity].
  destruct (coordinate_descent _ _ _ _ _ _ _ _ _) as [[y w] [e|]]; simpl.
  - reflexivity.
  - apply lookup_insert_ne. intros E. apply Ha. symmetry. exact E.
Qed.

Lemma sweep_frame omega_loc emp_loc n_samples n_tasks n_var rho s a :
  a <> omega_loc ->
  st_heap (fst (sweep omega_loc emp_loc n_samples n_tasks n_var rho s)) !! a
  = st_heap s !! a.
Proof.
  intros Ha. unfold sweep.
  apply (for_range_invariant (fun s' => st_heap s' !! a = st_heap s !! a)).
  - intros p s0 H0. rewrite step_p_frame by exact Ha. exact H0.
  - reflexivity.
Qed.

Lemma optimize_frame omega_loc emp_loc n_samples n_tasks n_var rho tol
    return_costs (remaining : nat) :
  forall s costs done a,
    a <> omega_loc ->
    st_heap (pr_state (optimize omega_loc emp_loc n_samples n_tasks n_var
                         rho tol return_costs remaining s costs done)) !! a
    = st_heap s !! a.
Proof.
  induction remaining as [|rest IH]; intros s costs done a Ha; simpl.
  - reflexivity.
  - pose proof (sweep_frame omega_loc emp_loc n_samples n_tasks n_var rho
                  s a Ha) as Hs.
    destruct (sweep omega_loc emp_loc n_samples n_tasks n_var rho s)
      as [s' [e|]]; simpl in *; [exact Hs|].
    destruct (return_costs || bool_decide (is_Some tol)).
    + destruct (group_sparse_covariance_costs _ _ _ _ _ _)
        as [[objective gap]|e]; simpl; [|exact Hs].
      destruct tol as [t|].
      * destruct (Rlt_dec gap t); simpl; [exact Hs|].
        rewrite IH by exact Ha. exact Hs.
      * rewrite IH by exact Ha. exact Hs.
    + rewrite IH by exact Ha. exact Hs.
Qed.

(** A location of the caller's store is neither of the two arrays that
    [empirical_covariances] and the initialisation create. *)
Lemma alloc_fresh (h : heap) (a : loc) : a ∈ dom h -> a <> alloc h.
Proof.
  intros Ha E. subst a. exact (is_fresh (dom h) Ha).
Qed.

Lemma empirical_covariances_frame (h : heap) (tasks : tasks_arg)
    (ac : bool) (a : loc) :
  a ∈ dom h ->
  fst (empirical_covariances h tasks ac) !! a = h !! a.
Proof.
  intros Ha. unfold empirical_covariances.
  destruct tasks as [l|]; [|reflexivity].
  destruct (bool_decide _); [reflexivity|].
  destruct l as [|s0 rest]; [reflexivity|]. cbn [fst].
  rewrite covariance_loop_frame by (apply alloc_fresh; exact Ha).
  apply lookup_insert_ne. intros E. symmetry in E.
  exact (alloc_fresh h a Ha E).
Qed.

(** The covariance stack returned is a new array object. *)
Lemma empirical_covariances_new (h h1 : heap) (tasks : tasks_arg)
    (ac : bool) emp n_samples n_tasks n_var :
  empirical_covariances h tasks ac
  = (h1, Return (emp, n_samples, n_tasks, n_var)) ->
  emp = alloc h /\ emp ∈ dom h1.
Proof.
  unfold empirical_covariances.
  destruct tasks as [l|]; [|discriminate].
  destruct (bool_decide _); [discriminate|].
  destruct l as [|s0 rest]; [discriminate|].
  intros [= <- <- _ _ _]. split; [reflexivity|].
  apply elem_of_dom.
  set (l := s0 :: rest).
  assert (Hl : forall (l : list loc) (h' : heap) k,
             is_Some (h' !! alloc h) ->
             is_Some (covariance_loop h' (alloc h) l k ac !! alloc h)).
  { clear. induction l as [|s r IH]; intros h' k Hs; simpl; [exact Hs|].
    apply IH. rewrite lookup_insert_eq. eexists. reflexivity. }
  apply Hl. rewrite lookup_insert_eq. eexists. reflexivity.
Qed.

Lemma initialize_frame (h : heap) tasks rho ac pinit (a : loc) :
  a ∈ dom h ->
  fst (initialize h tasks rho ac pinit) !! a = h !! a.
Proof.
  intros Ha. unfold initialize.
  destruct (rho_rejected rho); [reflexivity|].
  pose proof (empirical_covariances_frame h tasks ac a Ha) as Hf.
  destruct (empirical_covariances h tasks ac) as [h1 [[[[emp ns] nt] nv]|e]]
    eqn:Hemp; cbn [fst] in *; [|exact Hf].
  assert (Ha1 : a ∈ dom h1).
  { apply elem_of_dom. rewrite Hf. apply elem_of_dom. exact Ha. }
  pose proof (alloc_fresh h1 a Ha1) as Hne.
  assert (Hh2 :
    match pinit with
    | Some init => <[alloc h1 := h1 !!! init]> h1
    | None =>
        default_init
          (<[alloc h1 := array3 (shape (h1 !!! emp)) (fun _ _ _ => 0)]> h1)
          (alloc h1) emp nt
    end !! a = h !! a).
  { destruct pinit as [init|].
    - rewrite lookup_insert_ne by (intros E; apply Hne; symmetry; exact E).
      exact Hf.
    - rewrite default_init_frame by exact Hne.
      rewrite lookup_insert_ne by (intros E; apply Hne; symmetry; exact E).
      exact Hf. }
  destruct (preallocate nv _); exact Hh2.
Qed.

(** The two stacks handed to the loop are new objects, and different. *)
Lemma initialize_new (h h2 : heap) tasks rho ac pinit emp omega ns nt nv :
  initialize h tasks rho ac pinit = (h2, Return (emp, omega, ns, nt, nv)) ->
  (emp ∉ dom h) /\ (omega ∉ dom h) /\ emp <> omega.
Proof.
  unfold initialize.
  destruct (rho_rejected rho); [discriminate|].
  destruct (empirical_covariances h tasks ac) as [h1 [[[[emp' ns'] nt'] nv']|e]]
    eqn:Hemp; [|discriminate].
  destruct (empirical_covariances_new _ _ _ _ _ _ _ _ Hemp) as [-> Hin].
  pose proof (empirical_covariances_frame h tasks ac) as Hf.
  rewrite Hemp in Hf. cbn [fst] in Hf.
  destruct (preallocate nv' _); [discriminate|].
  intros [= <- <- <- <- <- <-].
  split; [exact (is_fresh (dom h))|]. split.
  - intros Ho. apply (alloc_fresh h1 (alloc h1)); [|reflexivity].
    apply elem_of_dom. rewrite (Hf _ Ho). apply elem_of_dom. exact Ho.
  - intros E. apply (alloc_fresh h1 (alloc h1)); [|reflexivity].
    rewrite E in Hin. exact Hin.
Qed.
End Store.

(** ** [empirical_covariances] *)

Lemma symmetrize_symmetric (M : mat) (i j : nat) :
  symmetrize M i j = symmetrize M j i.
Proof. unfold symmetrize. lra. Qed.

Lemma normalize_sum (n : nat) (counts : vec) :
  rsum n counts <> 0 -> rsum n (normalize n counts) = 1.
Proof.
  intros H. unfold normalize.
  rewrite (rsum_ext n _ (fun k => counts k * / rsum n counts))
    by (intros; reflexivity).
  rewrite rsum_scal_r. field. exact H.
Qed.

Section Covariances.
Context {L : Library}.

(** The loop fills the slices [k0, k0 + len(tasks)) of [emp_covs] with
    the symmetrized covariances and changes nothing else in it. *)
Lemma covariance_loop_spec (l : list loc) :
  forall (h : heap) (emp : loc) (k0 : nat) (ac : bool),
    emp ∉ l ->
    let h' := covariance_loop h emp l k0 ac in
    shape (h' !!! emp) = shape (h !!! emp) /\
    forall i j k,
      as_stack (h' !!! emp) i j k
      = if (k0 <=? k)%nat && (k <? k0 + length l)%nat
        then symmetrize
               (empirical_covariance (h !!! nth (k - k0) l emp) ac) i j
        else as_stack (h !!! emp) i j k.
Proof.
  induction l as [|s rest IH]; intros h emp k0 ac Hnotin; cbn zeta.
  - simpl. split; [reflexivity|]. intros i j k.
    destruct (Nat.leb_spec k0 k), (Nat.ltb_spec k (k0 + 0)); try lia;
      reflexivity.
  - assert (Hs : s <> emp).
    { intros ->. apply Hnotin. left. }
    assert (Hrest : emp ∉ rest).
    { intros Hin. apply Hnotin. right. exact Hin. }
    cbn [covariance_loop].
    rewrite !lookup_total_insert_eq. cbn [shape].
    set (cov := empirical_covariance (h !!! s) ac).
    set (h2 := <[emp := _]> (<[emp := _]> h)).
    destruct (IH h2 emp (S k0) ac Hrest) as [Hsh Hval]. cbn zeta in *.
    assert (Hemp2 : h2 !!! emp
                    = array3 (shape (h !!! emp))
                        (set_slice
                           (as_stack
                              (array3 (shape (h !!! emp))
                                 (set_slice (as_stack (h !!! emp)) k0 cov)))
                           k0
                           (symmetrize
                              (slice
                                 (as_stack
                                    (array3 (shape (h !!! emp))
                                       (set_slice (as_stack (h !!! emp))
                                          k0 cov))) k0)))).
    { unfold h2. rewrite lookup_total_insert_eq. reflexivity. }
    split.
    + rewrite Hsh, Hemp2. reflexivity.
    + intros i j k. rewrite Hval.
      assert (Hother : forall a, a <> emp -> h2 !!! a = h !!! a).
      { intros a Ha. unfold h2.
        rewrite !lookup_total_insert_ne
          by (intros E; apply Ha; symmetry; exact E).
        reflexivity. }
      destruct (Nat.leb_spec (S k0) k) as [Hle|Hgt];
        destruct (Nat.ltb_spec k (S k0 + length rest)) as [Hlt|Hge];
        cbn [andb].
      * (* a later slice *)
        destruct (Nat.leb_spec k0 k); [|lia].
        destruct (Nat.ltb_spec k (k0 + length (s :: rest)));
          [|simpl in *; lia].
        cbn [andb].
        replace (k - k0)%nat with (S (k - S k0)) by lia. cbn [nth].
        rewrite Hother; [reflexivity|].
        intros E. apply Hrest. rewrite <- E.
        apply list_elem_of_In. apply nth_In. lia.
      * (* beyond the tasks *)
        destruct (Nat.ltb_spec k (k0 + length (s :: rest)));
          [simpl in *; lia|].
        rewrite andb_false_r. rewrite Hemp2.
        unfold as_stack at 1, array3. cbn [data].
        unfold set_slice. destruct (Nat.eqb_spec k k0); [lia|].
        unfold as_stack at 1. cbn [data].
        destruct (Nat.eqb_spec k k0); [lia|]. reflexivity.
      * (* k <= k0 *)
        rewrite Hemp2. unfold as_stack at 1, array3. cbn [data].
        unfold set_slice at 1.
        destruct (Nat.eqb_spec k k0) as [->|Hne].
        -- destruct (Nat.leb_spec k0 k0); [|lia].
           destruct (Nat.ltb_spec k0 (k0 + length (s :: rest)));
             [|simpl in *; lia].
           cbn [andb]. rewrite Nat.sub_diag. cbn [nth].
           unfold symmetrize, slice, as_stack, set_slice. cbn [data].
           rewrite Nat.eqb_refl. reflexivity.
        -- destruct (Nat.leb_spec k0 k); [lia|]. cbn [andb].
           unfold as_stack at 1. cbn [data]. unfold set_slice.
           destruct (Nat.eqb_spec k k0); [lia|]. reflexivity.
      * lia.
Qed.

(** With a non-empty sequence of tasks of one feature count the
    validation passes. *)
Lemma feature_check_passes (h : heap) (l : list loc) (n_var : nat) :
  (forall s, s ∈ l -> dim (h !!! s) 1 = n_var) ->
  bool_decide
    (1 < size (list_to_set (C := gset nat)
                 (map (fun s => dim (h !!! s) 1) l)))%nat
  = false.
Proof.
  intros Hall. apply bool_decide_eq_false.
  assert (Hsub : list_to_set (C := gset nat)
                   (map (fun s => dim (h !!! s) 1) l) ⊆ {[n_var]}).
  { intros x Hx. apply elem_of_list_to_set in Hx.
    apply list_elem_of_In in Hx. apply in_map_iff in Hx.
    destruct Hx as [s [<- Hs]]. apply elem_of_singleton.
    apply Hall. apply list_elem_of_In. exact Hs. }
  apply subseteq_size in Hsub. rewrite size_singleton in Hsub. lia.
Qed.

Lemma empirical_covariances_returns (h : heap) (s0 : loc)
    (rest : list loc) (ac : bool) (n_var : nat) :
  (forall s, s ∈ s0 :: rest -> dim (h !!! s) 1 = n_var) ->
  empirical_covariances h (TaskSeq (s0 :: rest)) ac
  = (covariance_loop
       (<[alloc h := array3 (n_var :: n_var :: length (s0 :: rest) :: nil)
                       (fun _ _ _ => 0)]> h)
       (alloc h) (s0 :: rest) 0 ac,
     Return (alloc h,
             normalize (length (s0 :: rest))
               (sample_counts h (s0 :: rest)),
             length (s0 :: rest), n_var)).
Proof.
  intros Hall. unfold empirical_covariances.
  rewrite (feature_check_passes h (s0 :: rest) n_var Hall).
  rewrite (Hall s0) by left. reflexivity.
Qed.
End Covariances.

Lemma sample_counts_nth {L : Library} (h : heap) (l : list loc) (d : loc)
    (k : nat) :
  (k < length l)%nat ->
  sample_counts h l k = INR (dim (h !!! nth k l d) 0).
Proof.
  intros Hk. unfold sample_counts. f_equal.
  rewrite (nth_indep _ O (dim (h !!! d) 0)) by (rewrite length_map; exact Hk).
  apply (map_nth (fun s => dim (h !!! s) 0)).
Qed.

(** C8.  For a non-empty sequence of stored task matrices (arrays with two
    axes) with one feature count [n_var] and at least one sample in all,
    [empirical_covariances] returns; the covariance stack has shape
    [(n_var, n_var, n_tasks)]; its matrix for the task [k] is
    [(M + M^T) / 2], entry by entry [(M[i, j] + M[j, i]) / 2], for the
    covariance [M] that [empirical_covariance] returns on the samples of
    that task, and so equals its own transpose; each weight is the task's
    sample count over the total count, and the weights sum to 1. *)
Theorem empirical_covariances_spec {L : Library} (h : heap) (s0 : loc)
    (rest : list loc) (ac : bool) (n_var : nat) :
  (forall s, s ∈ s0 :: rest -> s ∈ dom h) ->
  (forall s, s ∈ s0 :: rest -> length (shape (h !!! s)) = 2%nat) ->
  (forall s, s ∈ s0 :: rest -> dim (h !!! s) 1 = n_var) ->
  0 < rsum (length (s0 :: rest)) (sample_counts h (s0 :: rest)) ->
  exists (h' : heap) (emp : loc) (n_samples : vec),
    empirical_covariances h (TaskSeq (s0 :: rest)) ac
    = (h', Return (emp, n_samples, length (s0 :: rest), n_var)) /\
    shape (h' !!! emp) = n_var :: n_var :: length (s0 :: rest) :: nil /\
    (forall k, (k < length (s0 :: rest))%nat -> forall i j,
       as_stack (h' !!! emp) i j k
       = (empirical_covariance (h !!! nth k (s0 :: rest) s0) ac i j
          + empirical_covariance (h !!! nth k (s0 :: rest) s0) ac j i) / 2) /\
    (forall k, (k < length (s0 :: rest))%nat -> forall i j,
       as_stack (h' !!! emp) i j k = as_stack (h' !!! emp) j i k) /\
    (forall k, (k < length (s0 :: rest))%nat ->
       n_samples k
       = INR (dim (h !!! nth k (s0 :: rest) s0) 0)
         / rsum (length (s0 :: rest)) (sample_counts h (s0 :: rest))) /\
    rsum (length (s0 :: rest)) n_samples = 1.
Proof.
  intros Hdom _ Hfeat Htotal.
  set (l := s0 :: rest) in *.
  rewrite (empirical_covariances_returns h s0 rest ac n_var Hfeat).
  fold l.
  set (h0 := <[alloc h := array3 (n_var :: n_var :: length l :: nil)
                            (fun _ _ _ => 0)]> h).
  assert (Hfresh : alloc h ∉ l).
  { intros Hin. exact (alloc_fresh h (alloc h) (Hdom _ Hin) eq_refl). }
  destruct (covariance_loop_spec l h0 (alloc h) 0 ac Hfresh) as [Hsh Hval].
  cbn zeta in Hsh, Hval.
  assert (Hslice : forall k, (k < length l)%nat -> forall i j,
            as_stack (covariance_loop h0 (alloc h) l 0 ac !!! alloc h) i j k
            = symmetrize (empirical_covariance (h !!! nth k l s0) ac) i j).
  { intros k Hk i j. rewrite Hval.
    destruct (Nat.leb_spec 0 k); [|lia].
    destruct (Nat.ltb_spec k (0 + length l)); [|lia]. cbn [andb].
    rewrite Nat.sub_0_r. rewrite (nth_indep l (alloc h) s0) by exact Hk.
    unfold h0. rewrite lookup_total_insert_ne; [reflexivity|].
    intros E. apply Hfresh. rewrite E.
    apply list_elem_of_In. apply nth_In. exact Hk. }
  eexists _, _, _. split; [reflexivity|].
  split.
  { rewrite Hsh. unfold h0. rewrite lookup_total_insert_eq. reflexivity. }
  split; [intros k Hk i j; rewrite (Hslice k Hk i j); reflexivity|].
  split.
  { intros k Hk i j. rewrite !Hslice by exact Hk.
    apply symmetrize_symmetric. }
  split.
  { intros k Hk. unfold normalize.
    rewrite (sample_counts_nth h l s0 k Hk). reflexivity. }
  apply normalize_sum. lra.
Qed.

(** ** The whole call *)

Section Call.
Context {L : Library}.
Variables (h : heap) (tasks : tasks_arg) (rho : pyval) (max_iter : nat).
Variables (tol : option R) (ac return_costs : bool) (pinit : option loc).

Let r := group_sparse_covariance h tasks rho max_iter tol ac return_costs
           pinit.

(** The call written in terms of [initialize] and [optimize]. *)
Lemma call_cases :
  (exists h2 e,
      initialize h tasks rho ac pinit = (h2, Raise e) /\
      r = stop h2 (Raised e)) \/
  (exists h2 emp omega ns nt nv,
      initialize h tasks rho ac pinit
      = (h2, Return (emp, omega, ns, nt, nv)) /\
      ((rho_real rho = None /\ max_iter = O /\
        r = stop h2 (Returned emp omega
                       (if return_costs then Some nil else None))) \/
       (max_iter <> O /\
        ((rho_real rho = None /\ r = stop h2 NonFiniteRho) \/
         (exists rv, rho_real rho = Some rv /\
                     shape (h2 !!! omega) <> shape (h2 !!! emp) /\
                     r = stop h2 MisfitStart))) \/
       (exists rv,
           rho_real rho = Some rv /\
           (max_iter <> O -> shape (h2 !!! omega) = shape (h2 !!! emp)) /\
           let pr := optimize omega emp ns nt nv rv tol return_costs
                       max_iter
                       {| st_heap := h2; st_W := fun _ _ _ => 0;
                          st_Winv := fun _ _ _ => 0; st_warnings := O |}
                       nil O in
           final_heap r = st_heap (pr_state pr) /\
           sweeps_done r = pr_sweeps pr /\
           warnings_emitted r = st_warnings (pr_state pr) /\
           out r = match pr_raised pr with
                   | Some e => Raised e
                   | None => Returned emp omega
                               (if return_costs then Some (pr_costs pr)
                                else None)
                   end))).
Proof.
  unfold r, group_sparse_covariance.
  destruct (initialize h tasks rho ac pinit)
    as [h2 [[[[[emp omega] ns] nt] nv]|e]] eqn:Hinit.
  - right. exists h2, emp, omega, ns, nt, nv. split; [reflexivity|].
    destruct (rho_real rho) as [rv|].
    + destruct (bool_decide_reflect
                  (shape (h2 !!! omega) = shape (h2 !!! emp))) as [Hsh|Hsh];
        cbn [negb andb].
      * right. right. exists rv. split; [reflexivity|].
        split; [intros _; exact Hsh|]. cbn zeta. repeat split; reflexivity.
      * destruct max_iter as [|n]; cbn [Nat.eqb negb].
        -- right. right. exists rv. split; [reflexivity|].
           split; [intros H0; contradiction|]. cbn zeta.
           repeat split; reflexivity.
        -- right. left. split; [discriminate|]. right. exists rv.
           split; [reflexivity|]. split; [exact Hsh|reflexivity].
    + destruct max_iter as [|n].
      * left. repeat split; reflexivity.
      * right. left. split; [discriminate|]. left.
        split; reflexivity.
  - left. exists h2, e. split; reflexivity.
Qed.

(** The call on a finite [rho] and an initial stack of the shape of
    [emp_covs] is the optimisation loop. *)
Lemma call_optimize (h2 : heap) (emp omega : loc) (ns : vec) (nt nv : nat)
    (rv : R) :
  initialize h tasks rho ac pinit = (h2, Return (emp, omega, ns, nt, nv)) ->
  rho_real rho = Some rv ->
  (max_iter <> O -> shape (h2 !!! omega) = shape (h2 !!! emp)) ->
  r = let pr := optimize omega emp ns nt nv rv tol return_costs max_iter
                  {| st_heap := h2; st_W := fun _ _ _ => 0;
                     st_Winv := fun _ _ _ => 0; st_warnings := O |}
                  nil O in
      {| final_heap := st_heap (pr_state pr);
         out := match pr_raised pr with
                | Some e => Raised e
                | None => Returned emp omega
                            (if return_costs then Some (pr_costs pr)
                             else None)
                end;
         sweeps_done := pr_sweeps pr;
         warnings_emitted := st_warnings (pr_state pr) |}.
Proof.
  intros Hinit Hrho Hsh. unfold r, group_sparse_covariance.
  rewrite Hinit, Hrho.
  destruct max_iter as [|n].
  - rewrite andb_false_r. reflexivity.
  - rewrite (bool_decide_eq_true_2 _ (Hsh (Nat.neq_succ_0 n))).
    reflexivity.
Qed.
End Call.

(** C10.  The call leaves every array object of the caller's store as it
    was: the task matrices are only read, the warm start is copied, and the
    two stacks returned are new objects, so that the in-place updates of the
    precision stack never reach an array the caller passed. *)
Theorem caller_arrays_unchanged {L : Library} (h : heap) (tasks : tasks_arg)
    (rho : pyval) (max_iter : nat) (tol : option R) (ac return_costs : bool)
    (pinit : option loc) (a : loc) :
  a ∈ dom h ->
  final_heap (group_sparse_covariance h tasks rho max_iter tol ac
                return_costs pinit) !! a
  = h !! a /\
  forall emp omega costs,
    out (group_sparse_covariance h tasks rho max_iter tol ac return_costs
           pinit)
    = Returned emp omega costs ->
    emp <> a /\ omega <> a.
Proof.
  intros Ha.
  pose proof (initialize_frame h tasks rho ac pinit a Ha) as Hinit.
  destruct (call_cases h tasks rho max_iter tol ac return_costs pinit)
    as [(h2 & e & Hi & Hr)
       |(h2 & emp & omega & ns & nt & nv & Hi & Hcases)].
  - rewrite Hr. cbn. rewrite Hi in Hinit. split; [exact Hinit|].
    intros ? ? ?. discriminate.
  - rewrite Hi in Hinit. cbn [fst] in Hinit.
    destruct (initialize_new _ _ _ _ _ _ _ _ _ _ _ Hi) as (He & Ho & _).
    assert (Hnew : emp <> a /\ omega <> a).
    { split; intros ->; [apply He|apply Ho]; exact Ha. }
    destruct Hcases
      as [(_ & _ & Hr)
         |[(_ & [(_ & Hr)|(rv & _ & _ & Hr)])|(rv & _ & _ & Hr)]].
    + rewrite Hr. cbn. split; [exact Hinit|].
      intros ? ? ? [= <- <- _]. exact Hnew.
    + rewrite Hr. cbn. split; [exact Hinit|]. intros ? ? ?. discriminate.
    + rewrite Hr. cbn. split; [exact Hinit|]. intros ? ? ?. discriminate.
    + cbn zeta in Hr. destruct Hr as (Hf & _ & _ & Hout).
      split.
      * rewrite Hf, optimize_frame; [exact Hinit|].
        intros ->. apply Ho. exact Ha.
      * intros emp' omega' costs. rewrite Hout.
        destruct (pr_raised _); [discriminate|].
        intros [= <- <- _]. exact Hnew.
Qed.

(** ** The sweeps the outer loop runs *)

Section Sweeps.
Context {L : Library}.
Variables (omega_loc emp_loc : positive) (n_samples : vec).
Variables (n_tasks n_var : nat) (rho : R).

Let costs_at := costs_after omega_loc emp_loc n_samples n_tasks n_var rho.






End Sweeps.


(** ** Validation *)

Section Validation.
Context {L : Library}.

Lemma empirical_covariances_raises (h h1 : heap) tasks ac e :
  empirical_covariances h tasks ac = (h1, Raise e) ->
  h1 = h /\
  (e = ValueError_not_iterable \/ e = ValueError_features
   \/ e = IndexError_no_task).
Proof.
  unfold empirical_covariances.
  destruct tasks as [l|]; [|intros [= <- <-]; tauto].
  destruct (bool_decide _); [intros [= <- <-]; tauto|].
  destruct l; [intros [= <- <-]; tauto|discriminate].
Qed.

Lemma preallocate_raises n_var omega e :
  preallocate n_var omega = Some e ->
  e = ValueError_negative_dimensions \/ e = IndexError_shape.
Proof.
  unfold preallocate. destruct (n_var <? 2)%nat; [intros [= <-]; tauto|].
  destruct (shape omega) as [|s0 [|s1 [|s2 sh]]];
    try (intros [= <-]; tauto).
  destruct (_ || _); [intros [= <-]; tauto|discriminate].
Qed.

Lemma initialize_raises (h h2 : heap) tasks rho ac pinit e :
  initialize h tasks rho ac pinit = (h2, Raise e) ->
  (rho_rejected rho = true /\ e = ValueError_rho /\ h2 = h) \/
  (rho_rejected rho = false /\ e <> ValueError_rho).
Proof.
  unfold initialize.
  destruct (rho_rejected rho); [intros [= <- <-]; tauto|].
  right. split; [reflexivity|].
  destruct (empirical_covariances h tasks ac)
    as [h1 [[[[emp ns] nt] nv]|e']] eqn:Hemp.
  - destruct (preallocate nv _) as [e'|] eqn:Hpre; [|discriminate].
    injection H as _ <-.
    destruct (preallocate_raises _ _ _ Hpre) as [->| ->]; discriminate.
  - injection H as _ <-.
    destruct (empirical_covariances_raises _ _ _ _ _ Hemp)
      as [_ [->|[->| ->]]]; discriminate.
Qed.

Lemma rho_rejected_true_call h tasks rho max_iter tol ac return_costs
    pinit :
  rho_rejected rho = true ->
  group_sparse_covariance h tasks rho max_iter tol ac return_costs pinit
  = stop h (Raised ValueError_rho).
Proof.
  intros Hrej. unfold group_sparse_covariance, initialize.
  rewrite Hrej. reflexivity.
Qed.

Lemma rho_rejected_false_call h tasks rho max_iter tol ac return_costs
    pinit :
  rho_rejected rho = false ->
  out (group_sparse_covariance h tasks rho max_iter tol ac return_costs
         pinit)
  <> Raised ValueError_rho.
Proof.
  intros Hacc.
  destruct (call_cases h tasks rho max_iter tol ac return_costs pinit)
    as [(h2 & e & Hi & Hr)
       |(h2 & emp & omega & ns & nt & nv & Hi & Hcases)].
  - rewrite Hr. cbn. intros [= ->].
    destruct (initialize_raises _ _ _ _ _ _ _ Hi) as [(Hrej & _)|(_ & Hne)].
    + rewrite Hacc in Hrej. discriminate.
    + apply Hne. reflexivity.
  - destruct Hcases
      as [(_ & _ & Hr)
         |[(_ & [(_ & Hr)|(rv & _ & _ & Hr)])|(rv & _ & _ & Hr)]].
    + rewrite Hr. discriminate.
    + rewrite Hr. discriminate.
    + rewrite Hr. discriminate.
    + cbn zeta in Hr. destruct Hr as (_ & _ & _ & Hout). rewrite Hout.
      destruct (pr_raised _) as [e|] eqn:Hraised; [|discriminate].
      intros [= ->].
      match type of Hraised with
      | pr_raised (optimize _ _ _ _ _ _ _ _ _ ?s _ _) = _ =>
          destruct (optimize_spec omega emp ns nt nv rv tol return_costs
                      max_iter s nil O) as (_ & _ & _ & _ & _ & Hexn)
      end.
      destruct (Hexn _ Hraised) as [[E|E]|[E|E]]; discriminate.
Qed.

(** What [not isinstance(rho, (int, float)) or rho < 0] decides. *)
Lemma rho_rejected_iff (rho : pyval) :
  rho_rejected rho = true <->
  match rho with
  | PyInt z => (z < 0)%Z
  | PyLong _ => True
  | PyBool _ => False
  | PyFloat (FNum x) => x < 0
  | PyFloat FNegInf => True
  | PyFloat FPosInf => False
  | PyFloat FNaN => False
  | PyStr _ => True
  | PyNone => True
  end.
Proof.
  destruct rho as [z|z|b|[x| | |]|s|]; simpl;
    try (split; [discriminate|contradiction]);
    try (split; [intros _; exact I|reflexivity]).
  - apply Z.ltb_lt.
  - destruct (Rlt_dec x 0); split; try discriminate; try tauto.
Qed.
End Validation.

(** C5 (amended).  The call raises the validation error on [rho], before
    anything else happens (the store is untouched, no sweep is run), exactly
    when [rho] is not an [int] or a [float] or is negative: a string, [None],
    a [long], a negative integer, a negative float, minus infinity.  Every
    other [int] or [float] is accepted, [bool]s, NaN and plus infinity
    included. *)
Theorem rho_validation {L : Library} (h : heap) (tasks : tasks_arg)
    (rho : pyval) (max_iter : nat) (tol : option R) (ac return_costs : bool)
    (pinit : option loc) :
  (rho_rejected rho = true <->
   match rho with
   | PyInt z => (z < 0)%Z
   | PyLong _ => True
   | PyBool _ => False
   | PyFloat (FNum x) => x < 0
   | PyFloat FNegInf => True
   | PyFloat FPosInf => False
   | PyFloat FNaN => False
   | PyStr _ => True
   | PyNone => True
   end) /\
  (rho_rejected rho = true ->
   group_sparse_covariance h tasks rho max_iter tol ac return_costs pinit
   = stop h (Raised ValueError_rho)) /\
  (rho_rejected rho = false ->
   out (group_sparse_covariance h tasks rho max_iter tol ac return_costs
          pinit)
   <> Raised ValueError_rho).
Proof.
  split; [apply rho_rejected_iff|].
  split; [apply rho_rejected_true_call|apply rho_rejected_false_call].
Qed.

(** With a tolerance the cost evaluator runs after every sweep whether or
    not the costs are recorded: the sweeps and the stop are the same. *)
Lemma optimize_costs_irrelevant {L : Library} (omega_loc emp_loc : positive)
    (n_samples : vec) (n_tasks n_var : nat) (rho t : R) (return_costs : bool)
    (remaining : nat) :
  forall (s : state) (c1 c2 : list (R * R)) (done : nat),
    let pr1 := optimize omega_loc emp_loc n_samples n_tasks n_var rho
                 (Some t) return_costs remaining s c1 done in
    let pr2 := optimize omega_loc emp_loc n_samples n_tasks n_var rho
                 (Some t) true remaining s c2 done in
    pr_state pr1 = pr_state pr2 /\ pr_sweeps pr1 = pr_sweeps pr2 /\
    pr_raised pr1 = pr_raised pr2.
Proof.
  induction remaining as [|rest IH]; intros s c1 c2 done; cbn zeta.
  - cbn. repeat split.
  - cbn [optimize].
    destruct (sweep omega_loc emp_loc n_samples n_tasks n_var rho s)
      as [s' [e|]]; [cbn; repeat split|].
    rewrite bool_decide_eq_true_2 by (eexists; reflexivity).
    rewrite orb_true_r. cbn [orb].
    destruct (group_sparse_covariance_costs _ _ _ _ _ _)
      as [[objective gap]|e]; [|cbn; repeat split].
    destruct (Rlt_dec gap t); [cbn; repeat split|].
    apply IH.
Qed.

(** ** The initial precision stack *)

Section Initial.
Context {L : Library}.

Lemma default_init_spec (n_k : nat) :
  forall (h : heap) (omega_loc emp_loc : loc),
    omega_loc <> emp_loc ->
    let h' := default_init h omega_loc emp_loc n_k in
    h' !!! emp_loc = h !!! emp_loc /\
    shape (h' !!! omega_loc) = shape (h !!! omega_loc) /\
    forall i j k,
      as_stack (h' !!! omega_loc) i j k
      = if (k <? n_k)%nat
        then (if (i =? j)%nat then 1 / as_stack (h !!! emp_loc) i i k
              else 0)
        else as_stack (h !!! omega_loc) i j k.
Proof.
  induction n_k as [|n IH]; intros h omega_loc emp_loc Hne; cbn zeta.
  - simpl. repeat split; reflexivity.
  - destruct (IH h omega_loc emp_loc Hne) as (Hemp & Hsh & Hval).
    cbn zeta in *. cbn [default_init].
    rewrite lookup_total_insert_eq.
    rewrite lookup_total_insert_ne by exact Hne.
    split; [exact Hemp|]. split; [exact Hsh|].
    intros i j k. unfold as_stack at 1, array3. cbn [data].
    unfold set_slice.
    destruct (Nat.eqb_spec k n) as [->|Hk].
    + destruct (Nat.ltb_spec n (S n)); [|lia]. rewrite Hemp. reflexivity.
    + rewrite Hval.
      destruct (Nat.ltb_spec k n), (Nat.ltb_spec k (S n)); try lia;
        reflexivity.
Qed.

Lemma preallocate_none n_var omega :
  preallocate n_var omega = None -> (2 <= n_var)%nat.
Proof.
  unfold preallocate. destruct (Nat.ltb_spec n_var 2); [discriminate|].
  intros _. assumption.
Qed.
End Initial.

Section WarmStart.
Context {L : Library}.
Variables (h : heap) (s0 : loc) (rest : list loc) (rho : pyval).
Variables (ac : bool) (n_var : nat).

Let l := s0 :: rest.
Let h0 : heap :=
  <[alloc h := array3 (n_var :: n_var :: length l :: nil)
                 (fun _ _ _ => 0)]> h.
Let h1 : heap := covariance_loop h0 (alloc h) l 0 ac.
Let ns : vec := normalize (length l) (sample_counts h l).

Hypothesis Hacc : rho_rejected rho = false.
Hypothesis Hdom : forall s, s ∈ l -> s ∈ dom h.
Hypothesis Hfeat : forall s, s ∈ l -> dim (h !!! s) 1 = n_var.

Lemma tasks_not_fresh : alloc h ∉ l.
Proof.
  intros Hin. exact (alloc_fresh h (alloc h) (Hdom _ Hin) eq_refl).
Qed.

Lemma covariances_shape :
  shape (h1 !!! alloc h) = n_var :: n_var :: length l :: nil.
Proof.
  destruct (covariance_loop_spec l h0 (alloc h) 0 ac tasks_not_fresh)
    as [Hsh _].
  cbn zeta in Hsh. unfold h1. rewrite Hsh. unfold h0.
  rewrite lookup_total_insert_eq. reflexivity.
Qed.

Lemma covariances_in_store : alloc h ∈ dom h1.
Proof.
  pose proof (empirical_covariances_returns h s0 rest ac n_var Hfeat) as E.
  apply (empirical_covariances_new _ _ _ _ _ _ _ _ E).
Qed.

Lemma covariances_frame (a : loc) : a ∈ dom h -> h1 !!! a = h !!! a.
Proof.
  intros Ha.
  pose proof (empirical_covariances_frame h (TaskSeq l) ac a Ha) as E.
  unfold l in E.
  rewrite (empirical_covariances_returns h s0 rest ac n_var Hfeat) in E.
  cbn [fst] in E. fold l h0 h1 in E.
  rewrite !lookup_total_alt, E. reflexivity.
Qed.

Lemma omega_not_emp : alloc h1 <> alloc h.
Proof.
  intros E. apply (alloc_fresh h1 (alloc h1)); [|reflexivity].
  rewrite E. exact covariances_in_store.
Qed.

(** With a warm start: the copy is the initial [omega], whatever its
    shape. *)
Lemma initialize_warm (init : loc) :
  init ∈ dom h ->
  initialize h (TaskSeq l) rho ac (Some init)
  = (<[alloc h1 := h !!! init]> h1,
     match preallocate n_var (h !!! init) with
     | Some e => Raise e
     | None => Return (alloc h, alloc h1, ns, length l, n_var)
     end).
Proof.
  intros Hinit. unfold initialize. rewrite Hacc. unfold l.
  rewrite (empirical_covariances_returns h s0 rest ac n_var Hfeat).
  fold l h0 h1 ns. cbn zeta.
  rewrite lookup_total_insert_eq.
  rewrite (covariances_frame init Hinit).
  destruct (preallocate n_var (h !!! init)); reflexivity.
Qed.

(** Without one: every [omega_k] is the inverse of the diagonal of
    [emp_covs_k]. *)
Lemma initialize_default :
  exists h2,
    fst (initialize h (TaskSeq l) rho ac None) = h2 /\
    h2 !!! alloc h = h1 !!! alloc h /\
    shape (h2 !!! alloc h1) = n_var :: n_var :: length l :: nil /\
    forall k, (k < length l)%nat -> forall i j,
      as_stack (h2 !!! alloc h1) i j k
      = if (i =? j)%nat then 1 / as_stack (h1 !!! alloc h) i i k else 0.
Proof.
  unfold initialize. rewrite Hacc. unfold l.
  rewrite (empirical_covariances_returns h s0 rest ac n_var Hfeat).
  fold l h0 h1 ns. cbn zeta.
  set (h' := <[alloc h1 := array3 (shape (h1 !!! alloc h))
                             (fun _ _ _ => 0)]> h1).
  destruct (default_init_spec (length l) h' (alloc h1) (alloc h)
              omega_not_emp) as (Hemp & Hsh & Hval).
  cbn zeta in *.
  assert (Hh' : h' !!! alloc h = h1 !!! alloc h).
  { unfold h'. apply lookup_total_insert_ne. exact omega_not_emp. }
  exists (default_init h' (alloc h1) (alloc h) (length l)).
  split; [destruct (preallocate _ _); reflexivity|].
  split; [rewrite Hemp; exact Hh'|].
  split.
  - rewrite Hsh. unfold h'. rewrite lookup_total_insert_eq. cbn [shape].
    exact covariances_shape.
  - intros k Hk i j. rewrite Hval.
    destruct (Nat.ltb_spec k (length l)); [|lia].
    rewrite Hh'. reflexivity.
Qed.

End WarmStart.

(** C6 (amended).  A warm start is not validated against [(n_var, n_var,
    n_tasks)]: for valid tasks and an accepted [rho], and whenever the
    preallocation of the work arrays succeeds (the warm start has three axes
    and its first two are not empty), the initialisation returns with a copy
    of the warm start as the initial [omega], a new object, whatever the
    shape.  With [max_iter = 0] the call returns that copy as the precision
    stack; with a finite [rho] and a warm start of the shape of [emp_covs]
    the call is the optimisation loop started on the copy.  Without a warm
    start every [omega_k] is the inverse of the diagonal of [emp_covs_k]. *)
Theorem warm_start_is_copied {L : Library} (h : heap) (s0 : loc)
    (rest : list loc) (rho : pyval) (ac : bool) (n_var : nat) (init : loc) :
  rho_rejected rho = false ->
  (forall s, s ∈ s0 :: rest -> s ∈ dom h) ->
  (forall s, s ∈ s0 :: rest -> dim (h !!! s) 1 = n_var) ->
  init ∈ dom h ->
  preallocate n_var (h !!! init) = None ->
  exists (h2 : heap) (emp omega : loc) (ns : vec),
    initialize h (TaskSeq (s0 :: rest)) rho ac (Some init)
    = (h2, Return (emp, omega, ns, length (s0 :: rest), n_var)) /\
    h2 !!! omega = h !!! init /\
    omega <> init /\
    shape (h2 !!! emp) = n_var :: n_var :: length (s0 :: rest) :: nil /\
    (forall tol return_costs,
       let r := group_sparse_covariance h (TaskSeq (s0 :: rest)) rho 0 tol
                  ac return_costs (Some init) in
       out r = Returned emp omega (if return_costs then Some nil else None) /\
       final_heap r !!! omega = h !!! init) /\
    (forall rv max_iter tol return_costs,
       rho_real rho = Some rv ->
       shape (h !!! init) = n_var :: n_var :: length (s0 :: rest) :: nil ->
       let pr := optimize omega emp ns (length (s0 :: rest)) n_var rv tol
                   return_costs max_iter
                   {| st_heap := h2; st_W := fun _ _ _ => 0;
                      st_Winv := fun _ _ _ => 0; st_warnings := O |}
                   nil O in
       group_sparse_covariance h (TaskSeq (s0 :: rest)) rho max_iter tol ac
         return_costs (Some init)
       = {| final_heap := st_heap (pr_state pr);
            out := match pr_raised pr with
                   | Some e => Raised e
                   | None => Returned emp omega
                               (if return_costs then Some (pr_costs pr)
                                else None)
                   end;
            sweeps_done := pr_sweeps pr;
            warnings_emitted := st_warnings (pr_state pr) |}) /\
    exists h2' : heap,
      fst (initialize h (TaskSeq (s0 :: rest)) rho ac None) = h2' /\
      shape (h2' !!! omega) = n_var :: n_var :: length (s0 :: rest) :: nil /\
      forall k, (k < length (s0 :: rest))%nat -> forall i j,
        as_stack (h2' !!! omega) i j k
        = if (i =? j)%nat then 1 / as_stack (h2' !!! emp) i i k else 0.
Proof.
  intros Hacc Hdom Hfeat Hinit Hpre.
  pose proof (initialize_warm h s0 rest rho ac n_var Hacc Hfeat init Hinit)
    as Hwarm.
  cbn zeta in Hwarm. rewrite Hpre in Hwarm.
  pose proof (omega_not_emp h s0 rest ac n_var Hfeat) as Hne.
  cbn zeta in Hne.
  pose proof (covariances_shape h s0 rest ac n_var Hdom) as Hshape.
  cbn zeta in Hshape.
  eexists _, _, _, _. split; [exact Hwarm|].
  split; [apply lookup_total_insert_eq|].
  split.
  { intros E.
    match type of E with
    | alloc ?h1 = _ => apply (alloc_fresh h1 (alloc h1)); [|reflexivity]
    end.
    rewrite E. apply elem_of_dom.
    pose proof (empirical_covariances_frame h (TaskSeq (s0 :: rest)) ac init
                  Hinit) as F.
    rewrite (empirical_covariances_returns h s0 rest ac n_var Hfeat) in F.
    cbn [fst] in F. rewrite F. apply elem_of_dom. exact Hinit. }
  split.
  { rewrite lookup_total_insert_ne by exact Hne. exact Hshape. }
  split.
  { intros tol return_costs. cbn zeta. unfold group_sparse_covariance.
    rewrite Hwarm.
    destruct (rho_real rho);
      [cbn [Nat.eqb negb]; rewrite andb_false_r|];
      (split; [reflexivity|apply lookup_total_insert_eq]). }
  split.
  { intros rv max_iter tol return_costs Hrho Hfit. cbn zeta.
    apply (call_optimize h (TaskSeq (s0 :: rest)) rho max_iter tol ac
             return_costs (Some init) _ _ _ _ _ _ rv Hwarm Hrho).
    intros _. rewrite lookup_total_insert_eq.
    rewrite lookup_total_insert_ne by exact Hne.
    rewrite Hshape. exact Hfit. }
  destruct (initialize_default h s0 rest rho ac n_var Hacc Hdom Hfeat)
    as (h2' & E & Hemp & Hsh & Hval).
  cbn zeta in *.
  exists h2'. split; [exact E|]. split; [exact Hsh|].
  intros k Hk i j. rewrite (Hval k Hk i j), Hemp. reflexivity.
Qed.

(** ** Identical tasks *)

Lemma uniform_slice (n_tasks : nat) (A : stack) (k k' : nat) :
  uniform n_tasks A -> (k < n_tasks)%nat -> (k' < n_tasks)%nat ->
  slice A k = slice A k'.
Proof.
  intros HA Hk Hk'. unfold slice.
  apply functional_extensionality. intros i.
  apply functional_extensionality. intros j.
  apply HA; assumption.
Qed.

Lemma uniform_row (n_tasks : nat) (y : mat) (k k' : nat) :
  uniform_rows n_tasks y -> (k < n_tasks)%nat -> (k' < n_tasks)%nat ->
  y k = y k'.
Proof.
  intros Hy Hk Hk'. apply functional_extensionality. intros j.
  apply Hy; assumption.
Qed.

Section Uniform.
Context {L : Library}.
Variables (n_tasks n_var : nat) (n_samples : vec) (emp_covs : stack).
Hypothesis Hns : uniform_vec n_tasks n_samples.
Hypothesis Hemp : uniform n_tasks emp_covs.

Lemma coord_c_uniform (Winv : stack) (u y : mat) (p m : nat) :
  uniform n_tasks Winv -> uniform_rows n_tasks u ->
  uniform_rows n_tasks y ->
  uniform_vec n_tasks (coord_c n_var n_samples emp_covs Winv u y p m).
Proof.
  intros HW Hu Hy k k' Hk Hk'. unfold coord_c, h_12, y_1.
  rewrite (Hns k k'), (Hemp k k'), (Hu k k') by assumption.
  f_equal. f_equal. f_equal. apply rsum_ext. intros j _.
  rewrite (HW k k'), (Hy k k') by assumption. reflexivity.
Qed.

Lemma coord_q_uniform (Winv : stack) (p m : nat) :
  uniform n_tasks Winv ->
  uniform_vec n_tasks (coord_q n_samples emp_covs Winv p m).
Proof.
  intros HW k k' Hk Hk'. unfold coord_q.
  rewrite (Hns k k'), (Hemp k k'), (HW k k') by assumption. reflexivity.
Qed.

Lemma coordinate_update_uniform (Winv : stack) (u y y' : mat) (rho : R)
    (p m : nat) (warned : bool) :
  uniform n_tasks Winv -> uniform_rows n_tasks u ->
  uniform_rows n_tasks y ->
  coordinate_update n_tasks n_var n_samples emp_covs Winv u rho p m y
  = Return (y', warned) ->
  uniform_rows n_tasks y'.
Proof.
  intros HW Hu Hy. unfold coordinate_update.
  pose proof (coord_c_uniform Winv u y p m HW Hu Hy) as Hc.
  pose proof (coord_q_uniform Winv p m HW) as Hq.
  destruct (Rle_dec _ rho).
  - intros [= <- _]. intros k k' Hk Hk' j. unfold set_column.
    destruct (j =? m)%nat; [reflexivity|apply Hy; assumption].
  - destruct (newton_value _) as [alpha|]; [|discriminate].
    intros [= <- _]. intros k k' Hk Hk' j. unfold set_column.
    destruct (j =? m)%nat; [|apply Hy; assumption].
    rewrite (Hc k k'), (Hq k k') by assumption. reflexivity.
Qed.

Lemma coordinate_descent_uniform (Winv : stack) (u : mat) (rho : R)
    (p : nat) (yw : mat * nat) :
  uniform n_tasks Winv -> uniform_rows n_tasks u ->
  uniform_rows n_tasks (fst yw) ->
  uniform_rows n_tasks
    (fst (fst (coordinate_descent n_tasks n_var n_samples emp_covs Winv u
                 rho p yw))).
Proof.
  intros HW Hu Hy. unfold coordinate_descent.
  apply (for_range_invariant (fun yw => uniform_rows n_tasks (fst yw))).
  - intros m [y w] Hy0. unfold coordinate_step.
    destruct (coordinate_update _ _ _ _ _ _ _ _ _ _) as [[y' wd]|e] eqn:E;
      cbn [fst].
    + exact (coordinate_update_uniform Winv u y y' rho p m wd HW Hu Hy0 E).
    + exact Hy0.
  - exact Hy.
Qed.

Lemma inv_stack_spec (M : nat) (W : stack) (n_k : nat) :
  forall Winv0 Winv,
    inv_stack M W n_k Winv0 = Return Winv ->
    forall k, (k < n_k)%nat ->
      exists B, linalg_inv M (slice W k) = Some B /\
                forall i j, Winv i j k = B i j.
Proof.
  induction n_k as [|n IH]; intros Winv0 Winv Hret k Hk; [lia|].
  cbn [inv_stack] in Hret.
  destruct (inv_stack M W n Winv0) as [Winv'|e] eqn:Hrec; [|discriminate].
  destruct (linalg_inv M (slice W n)) as [B|] eqn:HB; [|discriminate].
  injection Hret as <-.
  destruct (Nat.eq_dec k n) as [->|Hne].
  - exists B. split; [exact HB|]. intros i j. unfold set_slice.
    rewrite Nat.eqb_refl. reflexivity.
  - destruct (IH Winv0 Winv' Hrec k ltac:(lia)) as (B' & HB' & Hval).
    exists B'. split; [exact HB'|]. intros i j. unfold set_slice.
    destruct (Nat.eqb_spec k n); [contradiction|]. apply Hval.
Qed.

Lemma submatrix_phase_uniform (omega W Winv W' Winv' : stack) (p : nat) :
  uniform n_tasks omega -> uniform n_tasks W -> uniform n_tasks Winv ->
  submatrix_phase n_tasks n_var omega W Winv p = Return (W', Winv') ->
  uniform n_tasks W' /\ uniform n_tasks Winv'.
Proof.
  intros Ho HW HWi. unfold submatrix_phase.
  destruct (p =? 0)%nat.
  - destruct (inv_stack _ _ _ _) as [Wi|e] eqn:Hinv; [|discriminate].
    intros [= <- <-].
    assert (HW0 : uniform n_tasks (fun i j k => omega (S i) (S j) k)).
    { intros k k' Hk Hk' i j. apply Ho; assumption. }
    split; [exact HW0|].
    intros k k' Hk Hk' i j.
    destruct (inv_stack_spec _ _ _ _ _ Hinv k Hk) as (B & HB & Hv).
    destruct (inv_stack_spec _ _ _ _ _ Hinv k' Hk') as (B' & HB' & Hv').
    rewrite (uniform_slice n_tasks _ k k' HW0 Hk Hk') in HB.
    rewrite HB in HB'. injection HB' as <-.
    rewrite Hv, Hv'. reflexivity.
  - unfold update_stack. intros [= <- <-].
    split; intros k k' Hk Hk' i j;
      destruct (Nat.ltb_spec k n_tasks); try lia;
      destruct (Nat.ltb_spec k' n_tasks); try lia;
      rewrite ?(uniform_slice n_tasks omega k k' Ho Hk Hk'),
              ?(uniform_slice n_tasks W k k' HW Hk Hk'),
              ?(uniform_slice n_tasks Winv k k' HWi Hk Hk');
      reflexivity.
Qed.

Lemma write_back_uniform (Winv omega : stack) (y : mat) (p : nat) :
  uniform n_tasks Winv -> uniform n_tasks omega ->
  uniform_rows n_tasks y ->
  uniform n_tasks (write_back n_tasks n_var emp_covs Winv omega y p).
Proof.
  intros HW Ho Hy k k' Hk Hk' i j. unfold write_back.
  destruct (Nat.ltb_spec k n_tasks); [|lia].
  destruct (Nat.ltb_spec k' n_tasks); [|lia].
  rewrite (uniform_slice n_tasks Winv k k' HW Hk Hk'),
          (uniform_row n_tasks y k k' Hy Hk Hk'),
          (Hemp k k' Hk Hk'), (Ho k k' Hk Hk').
  reflexivity.
Qed.
End Uniform.

Section UniformRun.
Context {L : Library}.
Variables (omega_loc emp_loc : loc) (n_samples : vec).
Variables (n_tasks n_var : nat) (rho : R).
Hypothesis Hloc : omega_loc <> emp_loc.
Hypothesis Hns : uniform_vec n_tasks n_samples.

Lemma step_p_uniform (p : nat) (s : state) :
  uniform_state omega_loc emp_loc n_tasks s ->
  uniform_state omega_loc emp_loc n_tasks
    (fst (step_p omega_loc emp_loc n_samples n_tasks n_var rho p s)).
Proof.
  intros (Ho & He & HW & HWi). unfold step_p.
  destruct (submatrix_phase _ _ _ _ _ _) as [[W Winv]|e] eqn:Hphase;
    [|repeat split; assumption].
  destruct (submatrix_phase_uniform n_tasks n_var _ _ _ W Winv p Ho HW HWi
              Hphase) as [HW' HWi'].
  set (y0 := fun k j : nat =>
               as_stack (st_heap s !!! omega_loc) (skip p j) p k).
  set (u := fun k j : nat =>
              as_stack (st_heap s !!! emp_loc) (skip p j) p k).
  assert (Hy0 : uniform_rows n_tasks y0).
  { intros k k' Hk Hk' j. apply Ho; assumption. }
  assert (Hu : uniform_rows n_tasks u).
  { intros k k' Hk Hk' j. apply He; assumption. }
  pose proof (coordinate_descent_uniform n_tasks n_var n_samples
                (as_stack (st_heap s !!! emp_loc)) Hns He Winv u rho p
                (y0, st_warnings s) HWi' Hu Hy0) as Hy.
  destruct (coordinate_descent _ _ _ _ _ _ _ _ _) as [[y w] [e|]];
    cbn [fst] in *.
  - repeat split; assumption.
  - unfold uniform_state. cbn [st_heap st_W st_Winv].
    rewrite lookup_total_insert_eq.
    rewrite lookup_total_insert_ne by exact Hloc.
    repeat split; try assumption.
    apply (write_back_uniform n_tasks n_var
             (as_stack (st_heap s !!! emp_loc)) He); assumption.
Qed.

Lemma sweep_uniform (s : state) :
  uniform_state omega_loc emp_loc n_tasks s ->
  uniform_state omega_loc emp_loc n_tasks
    (fst (sweep omega_loc emp_loc n_samples n_tasks n_var rho s)).
Proof.
  intros Hs. unfold sweep.
  apply (for_range_invariant (uniform_state omega_loc emp_loc n_tasks)).
  - intros p s0. apply step_p_uniform.
  - exact Hs.
Qed.

Lemma optimize_uniform tol return_costs (remaining : nat) :
  forall s costs done,
    uniform_state omega_loc emp_loc n_tasks s ->
    uniform_state omega_loc emp_loc n_tasks
      (pr_state (optimize omega_loc emp_loc n_samples n_tasks n_var rho tol
                   return_costs remaining s costs done)).
Proof.
  induction remaining as [|rest IH]; intros s costs done Hs; simpl.
  - exact Hs.
  - pose proof (sweep_uniform s Hs) as Hs'.
    destruct (sweep omega_loc emp_loc n_samples n_tasks n_var rho s)
      as [s' [e|]]; cbn [fst] in Hs'; [exact Hs'|].
    destruct (return_costs || bool_decide (is_Some tol)).
    + destruct (group_sparse_covariance_costs _ _ _ _ _ _)
        as [[objective gap]|e]; [|exact Hs'].
      destruct tol as [t|].
      * destruct (Rlt_dec gap t); [exact Hs'|apply IH; exact Hs'].
      * apply IH; exact Hs'.
    + apply IH; exact Hs'.
Qed.
End UniformRun.

Section IdenticalTasks.
Context {L : Library}.
Variables (h : heap) (s0 : loc) (rest : list loc) (ac : bool).

Let l := s0 :: rest.
Let n_var := dim (h !!! s0) 1.
Let h0 : heap :=
  <[alloc h := array3 (n_var :: n_var :: length l :: nil)
                 (fun _ _ _ => 0)]> h.
Let h1 : heap := covariance_loop h0 (alloc h) l 0 ac.

Hypothesis Hdom : forall s, s ∈ l -> s ∈ dom h.
Hypothesis Hsame : forall s, s ∈ l -> h !!! s = h !!! s0.

Lemma identical_features : forall s, s ∈ l -> dim (h !!! s) 1 = n_var.
Proof. intros s Hs. rewrite (Hsame s Hs). reflexivity. Qed.

Lemma identical_covariances :
  uniform (length l) (as_stack (h1 !!! alloc h)).
Proof.
  assert (Hfresh : alloc h ∉ l) by exact (tasks_not_fresh h s0 rest Hdom).
  destruct (covariance_loop_spec l h0 (alloc h) 0 ac Hfresh) as [_ Hval].
  cbn zeta in Hval. fold h1 in Hval.
  assert (Hk : forall k, (k < length l)%nat -> forall i j,
            as_stack (h1 !!! alloc h) i j k
            = symmetrize (empirical_covariance (h !!! s0) ac) i j).
  { intros k Hk i j. rewrite Hval.
    destruct (Nat.leb_spec 0 k); [|lia].
    destruct (Nat.ltb_spec k (0 + length l)); [|lia]. cbn [andb].
    assert (Hin : nth (k - 0) l (alloc h) ∈ l).
    { apply list_elem_of_In. apply nth_In. lia. }
    unfold h0. rewrite lookup_total_insert_ne.
    - rewrite (Hsame _ Hin). reflexivity.
    - intros E. apply Hfresh. rewrite E. exact Hin. }
  intros k k' Hk1 Hk2 i j. rewrite !Hk by assumption. reflexivity.
Qed.

Lemma identical_weights :
  uniform_vec (length l) (normalize (length l) (sample_counts h l)).
Proof.
  intros k k' Hk Hk'. unfold normalize.
  rewrite (sample_counts_nth h l s0 k Hk),
          (sample_counts_nth h l s0 k' Hk').
  rewrite (Hsame (nth k l s0)), (Hsame (nth k' l s0));
    [reflexivity| |]; apply list_elem_of_In, nth_In; assumption.
Qed.

(** The store handed to the loop, with and without a warm start. *)
Lemma identical_initial_state (pinit : option loc) :
  match pinit with
  | None => True
  | Some init =>
      init ∈ dom h /\ uniform (length l) (as_stack (h !!! init))
  end ->
  uniform_state (alloc h1) (alloc h) (length l)
    {| st_heap :=
         match pinit with
         | None =>
             default_init
               (<[alloc h1 := array3 (shape (h1 !!! alloc h))
                                (fun _ _ _ => 0)]> h1)
               (alloc h1) (alloc h) (length l)
         | Some init => <[alloc h1 := h1 !!! init]> h1
         end;
       st_W := fun _ _ _ => 0;
       st_Winv := fun _ _ _ => 0;
       st_warnings := O |}.
Proof.
  intros Hinit.
  pose proof (omega_not_emp h s0 rest ac n_var identical_features) as Hne.
  cbn zeta in Hne. fold l h0 h1 in Hne.
  unfold uniform_state. cbn [st_heap st_W st_Winv].
  assert (Hzero : uniform (length l) (fun _ _ _ => 0)).
  { intros k k' _ _ i j. reflexivity. }
  destruct pinit as [init|].
  - destruct Hinit as [Hin Hu].
    rewrite lookup_total_insert_eq.
    rewrite lookup_total_insert_ne by exact Hne.
    pose proof (covariances_frame h s0 rest ac n_var identical_features
                  init Hin) as E.
    cbn zeta in E. fold l h0 h1 in E. rewrite E.
    repeat split; try assumption. exact identical_covariances.
  - set (h' := <[alloc h1 := array3 (shape (h1 !!! alloc h))
                               (fun _ _ _ => 0)]> h1).
    destruct (default_init_spec (length l) h' (alloc h1) (alloc h) Hne)
      as (Hemp & _ & Hval).
    cbn zeta in *.
    assert (Hh' : h' !!! alloc h = h1 !!! alloc h).
    { unfold h'. apply lookup_total_insert_ne. exact Hne. }
    rewrite Hemp, Hh'.
    repeat split; try assumption; [|exact identical_covariances].
    intros k k' Hk Hk' i j. rewrite !Hval.
    destruct (Nat.ltb_spec k (length l)); [|lia].
    destruct (Nat.ltb_spec k' (length l)); [|lia].
    rewrite Hh'.
    rewrite (identical_covariances k k' Hk Hk'). reflexivity.
Qed.
End IdenticalTasks.

(** C9.  When all the tasks hold the same sample matrix (and the warm
    start, if there is one, holds the same matrix for every task), the
    precision matrices the call returns are the same for every task, for any
    [rho]; so are the covariance matrices. *)
Theorem identical_tasks_identical_precisions {L : Library} (h : heap)
    (s0 : loc) (rest : list loc) (rho : pyval) (max_iter : nat)
    (tol : option R) (ac return_costs : bool) (pinit : option loc) :
  (forall s, s ∈ s0 :: rest -> s ∈ dom h) ->
  (forall s, s ∈ s0 :: rest -> h !!! s = h !!! s0) ->
  match pinit with
  | None => True
  | Some init =>
      init ∈ dom h /\ uniform (length (s0 :: rest)) (as_stack (h !!! init))
  end ->
  match out (group_sparse_covariance h (TaskSeq (s0 :: rest)) rho max_iter
               tol ac return_costs pinit) with
  | Returned emp omega _ =>
      uniform (length (s0 :: rest))
        (as_stack
           (final_heap (group_sparse_covariance h (TaskSeq (s0 :: rest)) rho
                          max_iter tol ac return_costs pinit) !!! omega)) /\
      uniform (length (s0 :: rest))
        (as_stack
           (final_heap (group_sparse_covariance h (TaskSeq (s0 :: rest)) rho
                          max_iter tol ac return_costs pinit) !!! emp))
  | _ => True
  end.
Proof.
  intros Hdom Hsame Hinit.
  pose proof (identical_features h s0 rest Hsame) as Hfeat.
  pose proof (identical_initial_state h s0 rest ac Hdom Hsame pinit Hinit)
    as Hstate.
  pose proof (identical_weights h s0 rest Hsame) as Hns.
  pose proof (omega_not_emp h s0 rest ac _ Hfeat) as Hne.
  cbn zeta in *.
  unfold group_sparse_covariance, initialize.
  destruct (rho_rejected rho); [exact I|].
  rewrite (empirical_covariances_returns h s0 rest ac _ Hfeat).
  cbn zeta.
  match type of Hstate with
  | uniform_state _ _ _ {| st_heap := ?hh |} => set (h2 := hh) in *
  end.
  destruct (preallocate _ _); [exact I|].
  destruct (rho_real rho) as [rv|].
  - destruct (negb _ && negb _); [exact I|].
    cbn [final_heap out].
    match goal with
    | |- context [optimize ?o ?e ?ns ?nt ?nv rv tol return_costs max_iter ?s
                    nil O] =>
        pose proof (optimize_uniform o e ns nt nv rv Hne Hns tol return_costs
                      max_iter s nil O Hstate) as Hfinal;
        set (pr := optimize o e ns nt nv rv tol return_costs max_iter s nil O)
          in *
    end.
    destruct (pr_raised pr); [exact I|].
    destruct Hfinal as (Ho & He & _). split; assumption.
  - destruct max_iter as [|n]; [|exact I].
    cbn. destruct Hstate as (Ho & He & _). split; assumption.
Qed.

(** ** The precision stack along a run *)

Lemma for_range_always_invariant {St : Type} (I P : nat -> St -> Prop)
    (body : nat -> St -> St * option exn) (stop : nat) :
  (forall i s s', (i < stop)%nat -> I i s -> P i s ->
     body i s = (s', None) -> I (S i) s') ->
  forall count start s s',
    (start + count = stop)%nat ->
    I start s ->
    for_range_always P body start count s ->
    for_range body start count s = (s', None) ->
    I stop s'.
Proof.
  intros Hbody. induction count as [|c IH]; intros start s s' Hstop HI HP.
  - cbn. intros [= <-]. replace stop with start by lia. exact HI.
  - cbn [for_range]. cbn [for_range_always] in HP. destruct HP as [HP Hrest].
    destruct (body start s) as [s1 [e|]] eqn:Hb; [discriminate|].
    intros Hfor.
    apply (IH (S start) s1 s'); [lia| |exact Hrest|exact Hfor].
    apply (Hbody start s s1); [lia|exact HI|exact HP|exact Hb].
Qed.

Section Invariant.
Context {L : Library}.
Variables (omega_loc emp_loc : positive) (n_samples : vec).
Variables (n_tasks n_var : nat) (rho : R).
Hypothesis Hloc : omega_loc <> emp_loc.
Hypothesis Hlib :
  forall A B, linalg_inv (n_var - 1) A = Some B -> inverse_of (n_var - 1) A B.

(** What the submatrix phase of the step [p] leaves. *)
Lemma submatrix_phase_maintains (omega W Winv W' Winv' : stack) (p : nat) :
  (p < n_var)%nat ->
  submatrix_phase n_tasks n_var omega W Winv p = Return (W', Winv') ->
  ((0 < p)%nat ->
   forall k, (k < n_tasks)%nat ->
     agree (n_var - 1) (slice W k) (submatrix (slice omega k) (p - 1)) /\
     inverse_of (n_var - 1) (slice W k) (slice Winv k) /\
     row_denominator n_var (slice omega k) (slice W k) (slice Winv k) p <> 0 /\
     col_denominator n_var (slice omega k) (slice W k) (slice Winv k) p
     <> 0) ->
  forall k, (k < n_tasks)%nat ->
    agree (n_var - 1) (slice W' k) (submatrix (slice omega k) p) /\
    inverse_of (n_var - 1) (submatrix (slice omega k) p) (slice Winv' k).
Proof.
  intros Hp Hphase Hprev k Hk. unfold submatrix_phase in Hphase.
  destruct (Nat.eqb_spec p 0) as [->|Hp0].
  - destruct (inv_stack _ _ _ _) as [Winv1|e] eqn:Hinv; [|discriminate].
    injection Hphase as <- <-.
    destruct (inv_stack_spec _ _ _ _ _ Hinv k Hk) as (B & HB & Hval).
    assert (Hsub : agree (n_var - 1)
                     (slice (fun i j k0 => omega (S i) (S j) k0) k)
                     (submatrix (slice omega k) 0)).
    { intros i j _ _. reflexivity. }
    split; [exact Hsub|].
    apply (inverse_of_agree (n_var - 1) _ _ B _ Hsub).
    + intros i j _ _. symmetry. apply Hval.
    + apply Hlib. exact HB.
  - unfold update_stack in Hphase. injection Hphase as <- <-.
    destruct (Hprev ltac:(lia) k Hk) as (Hsub & Hinv & Hd1 & Hd2).
    pose proof (update_submatrix_sub n_var p (slice omega k) (slice W k)
                  (slice Winv k) ltac:(lia) Hsub) as Hs.
    pose proof (update_submatrix_inverse n_var p (slice omega k) (slice W k)
                  (slice Winv k) ltac:(lia) Hinv Hd1 Hd2) as Hi.
    split.
    + intros i j Hi' Hj'. unfold slice at 1.
      destruct (Nat.ltb_spec k n_tasks); [|lia]. apply Hs; assumption.
    + apply (inverse_of_agree (n_var - 1) _ _ _ _) with (3 := Hi).
      * exact Hs.
      * intros i j _ _. unfold slice at 4.
        destruct (Nat.ltb_spec k n_tasks); [|lia]. reflexivity.
Qed.

Lemma step_p_invariant (p : nat) (s s' : state) :
  (p < n_var)%nat ->
  well_conditioned omega_loc emp_loc n_tasks n_var s ->
  ((0 < p)%nat -> maintained omega_loc n_tasks n_var (p - 1) s) ->
  regular_step omega_loc n_tasks n_var p s ->
  step_p omega_loc emp_loc n_samples n_tasks n_var rho p s = (s', None) ->
  well_conditioned omega_loc emp_loc n_tasks n_var s' /\
  maintained omega_loc n_tasks n_var p s'.
Proof.
  intros Hp [Hspd Hvar] Hprev Hreg Hstep.
  destruct (step_p_returns _ _ _ _ _ _ _ _ _ Hstep)
    as (Hphase & y & Hheap).
  assert (HW := submatrix_phase_maintains _ _ _ _ _ p Hp Hphase).
  assert (HW' : forall k, (k < n_tasks)%nat ->
            agree (n_var - 1) (slice (st_W s') k)
              (submatrix (slice (as_stack (st_heap s !!! omega_loc)) k) p) /\
            inverse_of (n_var - 1)
              (submatrix (slice (as_stack (st_heap s !!! omega_loc)) k) p)
              (slice (st_Winv s') k)).
  { apply HW. intros Hp0 k Hk.
    destruct (Hprev Hp0 k Hk) as [Ha Hi]. destruct (Hreg Hp0 k Hk) as [H1 H2].
    repeat split; assumption || apply Hi. }
  clear HW.
  assert (Hemp : st_heap s' !!! emp_loc = st_heap s !!! emp_loc).
  { rewrite Hheap. apply lookup_total_insert_ne. exact Hloc. }
  assert (Hother : forall k i j, i <> p -> j <> p ->
            as_stack (st_heap s' !!! omega_loc) i j k
            = as_stack (st_heap s !!! omega_loc) i j k).
  { intros k i j Hi Hj. rewrite Hheap, lookup_total_insert_eq.
    unfold as_stack at 1, array3. cbn [data].
    apply write_back_other; assumption. }
  split; [split|].
  - intros k Hk.
    destruct (HW' k Hk) as [_ Hinv].
    rewrite Hheap, lookup_total_insert_eq.
    destruct n_var as [|m]; [lia|].
    replace (S m - 1)%nat with m in * by lia.
    apply (schur_complement_spd m p
             (slice (as_stack (st_heap s !!! omega_loc)) k) _
             (slice (st_Winv s') k) (y k)
             (as_stack (st_heap s !!! emp_loc) p p k)).
    + lia.
    + apply Hspd; exact Hk.
    + exact Hinv.
    + apply Hvar; [exact Hp|exact Hk].
    + unfold slice, as_stack at 1, array3. cbn [data].
      rewrite write_back_diag by exact Hk.
      replace (S m - 1)%nat with m by lia. reflexivity.
    + intros i _ Hi. unfold slice, as_stack at 1, array3. cbn [data].
      apply write_back_col; exact Hi.
    + intros j _ Hj. unfold slice, as_stack at 1, array3. cbn [data].
      apply write_back_row; exact Hj.
    + intros i j Hi Hj. unfold slice, as_stack at 1, array3. cbn [data].
      apply write_back_other; assumption.
  - intros q k Hq Hk. rewrite Hemp. apply Hvar; assumption.
  - intros k Hk. destruct (HW' k Hk) as [Hsub Hinv].
    assert (Hsub' : agree (n_var - 1) (slice (st_W s') k)
                      (submatrix
                         (slice (as_stack (st_heap s' !!! omega_loc)) k) p)).
    { intros i j Hi Hj. rewrite (Hsub i j Hi Hj).
      unfold submatrix, slice. symmetry. apply Hother; apply skip_neq. }
    split; [exact Hsub'|].
    apply (inverse_of_agree (n_var - 1) _ _ (slice (st_Winv s') k) _)
      with (3 := Hinv).
    + intros i j Hi Hj. symmetry. apply Hsub; assumption.
    + intros i j _ _. reflexivity.
Qed.

(** A sweep that divides by zero nowhere keeps every precision matrix
    symmetric positive definite. *)
Lemma sweep_invariant (s s' : state) :
  well_conditioned omega_loc emp_loc n_tasks n_var s ->
  for_range_always (regular_step omega_loc n_tasks n_var)
    (step_p omega_loc emp_loc n_samples n_tasks n_var rho) O n_var s ->
  sweep omega_loc emp_loc n_samples n_tasks n_var rho s = (s', None) ->
  well_conditioned omega_loc emp_loc n_tasks n_var s'.
Proof.
  intros Hgood Hreg Hsweep. unfold sweep in Hsweep.
  apply (for_range_always_invariant
           (fun p t => well_conditioned omega_loc emp_loc n_tasks n_var t /\
                       ((0 < p)%nat ->
                        maintained omega_loc n_tasks n_var (p - 1) t))
           (regular_step omega_loc n_tasks n_var)
           (step_p omega_loc emp_loc n_samples n_tasks n_var rho) n_var)
    with (count := n_var) (start := O) (s := s) (s' := s').
  - intros p t t' Hp [Hg Hm] Hr Hstep.
    destruct (step_p_invariant p t t' Hp Hg Hm Hr Hstep) as [Hg' Hm'].
    split; [exact Hg'|]. intros _.
    replace (S p - 1)%nat with p by lia. exact Hm'.
  - lia.
  - split; [exact Hgood|]. intros H0. lia.
  - exact Hreg.
  - exact Hsweep.
Qed.

Lemma optimize_invariant (tol : option R) (return_costs : bool)
    (remaining : nat) :
  forall (s : state) (costs : list (R * R)) (done : nat),
    well_conditioned omega_loc emp_loc n_tasks n_var s ->
    regular_run omega_loc emp_loc n_samples n_tasks n_var rho remaining s ->
    pr_raised (optimize omega_loc emp_loc n_samples n_tasks n_var rho tol
                 return_costs remaining s costs done) = None ->
    well_conditioned omega_loc emp_loc n_tasks n_var
      (pr_state (optimize omega_loc emp_loc n_samples n_tasks n_var rho tol
                   return_costs remaining s costs done)).
Proof.
  induction remaining as [|rest IH]; intros s costs done Hgood Hreg.
  - cbn. intros _. exact Hgood.
  - cbn [optimize]. cbn [regular_run] in Hreg. destruct Hreg as [Hsw Hrest].
    pose proof (sweep_invariant s) as Hinv.
    destruct (sweep omega_loc emp_loc n_samples n_tasks n_var rho s)
      as [s1 [e|]]; [cbn; discriminate|].
    specialize (Hinv s1 Hgood Hsw eq_refl).
    destruct (return_costs || bool_decide (is_Some tol)).
    + destruct (group_sparse_covariance_costs _ _ _ _ _ _)
        as [[objective gap]|e]; [|cbn; discriminate].
      destruct tol as [t|].
      * destruct (Rlt_dec gap t); [cbn; intros _; exact Hinv|].
        apply IH; assumption.
      * apply IH; assumption.
    + apply IH; assumption.
Qed.
End Invariant.

(** The precision matrices the call returns are symmetric positive definite
    when the initial ones are, the variances are positive, [np.linalg.inv]
    returns the inverse, and no step divides by zero in
    [update_submatrix]. *)
Theorem returned_precisions_spd {L : Library} (h h2 : gmap positive ndarray)
    (tasks : tasks_arg) (rho : pyval) (max_iter : nat) (tol : option R)
    (ac return_costs : bool) (pinit : option positive)
    (emp omega : positive) (ns : vec) (nt nv : nat) (rv : R) :
  initialize h tasks rho ac pinit = (h2, Return (emp, omega, ns, nt, nv)) ->
  rho_real rho = Some rv ->
  (forall A B, linalg_inv (nv - 1) A = Some B -> inverse_of (nv - 1) A B) ->
  (forall p k, (p < nv)%nat -> (k < nt)%nat ->
     0 < as_stack (h2 !!! emp) p p k) ->
  (forall k, (k < nt)%nat -> spd nv (slice (as_stack (h2 !!! omega)) k)) ->
  regular_run omega emp ns nt nv rv max_iter
    {| st_heap := h2; st_W := fun _ _ _ => 0; st_Winv := fun _ _ _ => 0;
       st_warnings := O |} ->
  forall emp' omega' costs,
    out (group_sparse_covariance h tasks rho max_iter tol ac return_costs
           pinit)
    = Returned emp' omega' costs ->
    omega' = omega /\
    forall k, (k < nt)%nat ->
      spd nv
        (slice (as_stack
                  (final_heap (group_sparse_covariance h tasks rho max_iter
                                 tol ac return_costs pinit) !!! omega')) k).
Proof.
  intros Hinit Hrho Hlib Hvar Hspd Hreg emp' omega' costs.
  destruct (initialize_new _ _ _ _ _ _ _ _ _ _ _ Hinit) as (_ & _ & Hne).
  unfold group_sparse_covariance. rewrite Hinit, Hrho.
  destruct (negb _ && negb _); [cbn; discriminate|].
  cbn [out final_heap].
  set (s0 := {| st_heap := h2; st_W := fun _ _ _ => 0;
                st_Winv := fun _ _ _ => 0; st_warnings := O |}) in *.
  pose proof (optimize_invariant omega emp ns nt nv rv
                ltac:(intros E; apply Hne; symmetry; exact E) Hlib tol
                return_costs max_iter s0 nil O) as Hopt.
  destruct (pr_raised _) as [e|]; [discriminate|].
  intros [= <- <- _]. split; [reflexivity|].
  apply Hopt; [|exact Hreg|reflexivity].
  split; [exact Hspd|exact Hvar].
Qed.

(** ** Concrete runs *)

Lemma demo_tasks_stored (s : positive) : s ∈ demo_tasks -> s ∈ dom demo_heap.
Proof.
  unfold demo_tasks. intros Hs. apply elem_of_dom.
  apply elem_of_cons in Hs as [->|Hs]; [eexists; reflexivity|].
  apply elem_of_cons in Hs as [->|Hs]; [eexists; reflexivity|].
  apply elem_of_nil in Hs. contradiction.
Qed.

Lemma demo_tasks_same (s : positive) :
  s ∈ demo_tasks -> demo_heap !!! s = demo_heap !!! 1%positive.
Proof.
  unfold demo_tasks. intros Hs.
  apply elem_of_cons in Hs as [->|Hs]; [reflexivity|].
  apply elem_of_cons in Hs as [->|Hs]; [reflexivity|].
  apply elem_of_nil in Hs. contradiction.
Qed.

Lemma demo_tasks_features (s : positive) :
  s ∈ demo_tasks -> dim (demo_heap !!! s) 1 = 2%nat.
Proof.
  intros Hs. rewrite (demo_tasks_same s Hs). reflexivity.
Qed.

Lemma demo_tasks_axes (s : positive) :
  s ∈ demo_tasks -> length (shape (demo_heap !!! s)) = 2%nat.
Proof.
  intros Hs. rewrite (demo_tasks_same s Hs). reflexivity.
Qed.

Lemma demo_misfit_stored : 3%positive ∈ dom demo_heap.
Proof. apply elem_of_dom. eexists. reflexivity. Qed.

Lemma demo_samples_total :
  0 < rsum (length demo_tasks) (sample_counts demo_heap demo_tasks).
Proof.
  unfold demo_tasks. cbn [length rsum]. unfold sample_counts.
  cbn [map nth].
  replace (dim (demo_heap !!! 1%positive) 0) with 2%nat by reflexivity.
  replace (dim (demo_heap !!! 2%positive) 0) with 2%nat by reflexivity.
  simpl. lra.
Qed.

(** ** The initial state without a warm start *)

Section DefaultStart.
Context {L : Library}.
Variables (h : gmap positive ndarray) (s0 : positive) (rest : list positive).
Variables (rho : pyval) (ac : bool) (n_var : nat).

Let l := s0 :: rest.
Let h0 : gmap positive ndarray :=
  <[alloc h := array3 (n_var :: n_var :: length l :: nil)
                 (fun _ _ _ => 0)]> h.
Let h1 : gmap positive ndarray := covariance_loop h0 (alloc h) l 0 ac.
Let ns : vec := normalize (length l) (sample_counts h l).

Hypothesis Hacc : rho_rejected rho = false.
Hypothesis Hdom : forall s, s ∈ l -> s ∈ dom h.
Hypothesis Hfeat : forall s, s ∈ l -> dim (h !!! s) 1 = n_var.
Hypothesis Hvar : (2 <= n_var)%nat.

Lemma covariances_value (k : nat) :
  (k < length l)%nat ->
  forall i j,
    as_stack (h1 !!! alloc h) i j k
    = symmetrize (empirical_covariance (h !!! nth k l s0) ac) i j.
Proof.
  intros Hk i j.
  pose proof (tasks_not_fresh h s0 rest Hdom) as Hfresh.
  destruct (covariance_loop_spec l h0 (alloc h) 0 ac Hfresh) as [_ Hval].
  cbn zeta in Hval. unfold h1. rewrite Hval.
  destruct (Nat.leb_spec 0 k); [|lia].
  destruct (Nat.ltb_spec k (0 + length l)); [|lia]. cbn [andb].
  rewrite Nat.sub_0_r. rewrite (nth_indep l (alloc h) s0) by exact Hk.
  unfold h0. rewrite lookup_total_insert_ne; [reflexivity|].
  intros E. apply Hfresh. rewrite E.
  apply list_elem_of_In. apply nth_In. exact Hk.
Qed.

(** The initialisation returns; [omega] and [emp_covs] have the same shape,
    [emp_covs] holds the symmetrized covariances and every [omega_k] is the
    inverse of the diagonal of [emp_covs_k]. *)
Lemma initialize_default_state :
  exists h2,
    initialize h (TaskSeq l) rho ac None
    = (h2, Return (alloc h, alloc h1, ns, length l, n_var)) /\
    shape (h2 !!! alloc h) = n_var :: n_var :: length l :: nil /\
    shape (h2 !!! alloc h1) = n_var :: n_var :: length l :: nil /\
    (forall k, (k < length l)%nat -> forall i j,
       as_stack (h2 !!! alloc h) i j k
       = symmetrize (empirical_covariance (h !!! nth k l s0) ac) i j) /\
    (forall k, (k < length l)%nat -> forall i j,
       as_stack (h2 !!! alloc h1) i j k
       = if (i =? j)%nat then 1 / as_stack (h2 !!! alloc h) i i k else 0).
Proof.
  destruct (initialize_default h s0 rest rho ac n_var Hacc Hdom Hfeat)
    as (h2 & E & Hemp & Hsh & Hval).
  cbn zeta in *. fold l h0 h1 in E, Hemp, Hsh, Hval.
  exists h2.
  assert (Hpre : preallocate n_var (h2 !!! alloc h1) = None).
  { unfold preallocate. destruct (Nat.ltb_spec n_var 2); [lia|].
    rewrite Hsh. destruct (Nat.eqb_spec n_var 0); [lia|]. reflexivity. }
  split.
  { revert E Hpre. unfold initialize. rewrite Hacc. unfold l.
    rewrite (empirical_covariances_returns h s0 rest ac n_var Hfeat).
    fold l h0 h1 ns. cbn zeta.
    destruct (preallocate n_var _) as [e|] eqn:Hp; cbn [fst];
      intros <- Hpre; [|reflexivity].
    rewrite Hp in Hpre. discriminate. }
  split.
  { rewrite Hemp. apply (covariances_shape h s0 rest ac n_var Hdom). }
  split; [exact Hsh|].
  split.
  { intros k Hk i j. rewrite Hemp. apply covariances_value. exact Hk. }
  intros k Hk i j. rewrite (Hval k Hk i j), Hemp. reflexivity.
Qed.
End DefaultStart.

(** ** Two variables with no covariance between them *)

Lemma inv_stack_returns {L : Library} (M : nat) (W : stack) (n_k : nat)
    (Winv0 : stack) :
  (forall k, (k < n_k)%nat -> linalg_inv M (slice W k) <> None) ->
  exists Winv, inv_stack M W n_k Winv0 = Return Winv.
Proof.
  induction n_k as [|n IH]; intros Hall; cbn [inv_stack].
  - eexists. reflexivity.
  - destruct IH as [Winv' ->]; [intros k Hk; apply Hall; lia|].
    destruct (linalg_inv M (slice W n)) as [B|] eqn:HB.
    + eexists. reflexivity.
    + exfalso. apply (Hall n); [lia|exact HB].
Qed.

Lemma coordinate_descent_zero (n_tasks : nat) (n_samples : vec)
    (emp_covs Winv : stack) (u : mat) (rho : R) (p : nat) (y : mat)
    (w : nat) :
  (forall k, (k < n_tasks)%nat -> u k 0%nat = 0) ->
  0 <= rho ->
  coordinate_descent n_tasks 2 n_samples emp_covs Winv u rho p (y, w)
  = ((set_column y 0 (fun _ => 0), w), None).
Proof.
  intros Hu Hrho. unfold coordinate_descent. cbn [Nat.sub for_range].
  unfold coordinate_step.
  rewrite coordinate_update_small; [reflexivity|].
  unfold dot.
  rewrite (rsum_ext n_tasks _ (fun _ => 0)), rsum_zero, sqrt_0; [exact Hrho|].
  intros k Hk. unfold coord_c. cbn [Nat.sub rsum]. rewrite (Hu k Hk). ring.
Qed.

Lemma step_p_zero_covariance {L : Library} (omega_loc emp_loc : positive)
    (n_samples : vec) (n_tasks : nat) (rho : R) (p : nat) (s : state)
    (W' Winv' : stack) :
  shape (st_heap s !!! omega_loc) = shape (st_heap s !!! emp_loc) ->
  (forall k, (k < n_tasks)%nat ->
     as_stack (st_heap s !!! emp_loc) (skip p 0) p k = 0) ->
  0 <= rho ->
  submatrix_phase n_tasks 2 (as_stack (st_heap s !!! omega_loc)) (st_W s)
    (st_Winv s) p = Return (W', Winv') ->
  step_p omega_loc emp_loc n_samples n_tasks 2 rho p s
  = ({| st_heap :=
          <[omega_loc :=
              array3 (shape (st_heap s !!! omega_loc))
                (write_back n_tasks 2 (as_stack (st_heap s !!! emp_loc))
                   Winv' (as_stack (st_heap s !!! omega_loc))
                   (set_column
                      (fun k j =>
                         as_stack (st_heap s !!! omega_loc) (skip p j) p k)
                      0 (fun _ => 0)) p)]> (st_heap s);
        st_W := W'; st_Winv := Winv'; st_warnings := st_warnings s |}, None).
Proof.
  intros Hsh Hu Hrho Hphase. unfold step_p.
  rewrite Hphase. rewrite coordinate_descent_zero; [reflexivity| |exact Hrho].
  exact Hu.
Qed.

(** For two variables the advance to the index 1 divides by
    [1 + (full[0, 0] - sub[0, 0]) * sub_inv[0, 0]] and by 1. *)
Lemma denominators_order_2 (full sub sub_inv : mat) :
  row_denominator 2 full sub sub_inv 1
  = 1 + (full 0%nat 0%nat - sub 0%nat 0%nat) * sub_inv 0%nat 0%nat /\
  col_denominator 2 full sub sub_inv 1 = 1.
Proof.
  unfold row_denominator, col_denominator, update_vectors, dot.
  cbn [Nat.sub rsum Nat.leb Nat.eqb]. split; ring.
Qed.

(** The inverse by cofactors of a matrix of order 1. *)
Lemma cofactor_inv_order_1 (A B : mat) :
  cofactor_inv 1 A = Some B ->
  A 0%nat 0%nat <> 0 /\ B 0%nat 0%nat = / A 0%nat 0%nat /\ inverse_of 1 A B.
Proof.
  unfold cofactor_inv.
  assert (Hdet : det 1 A = A 0%nat 0%nat).
  { cbn [det rsum pow]. ring. }
  rewrite Hdet.
  destruct (Req_dec_T (A 0%nat 0%nat) 0) as [E|E]; [discriminate|].
  intros [= <-]. split; [exact E|].
  assert (HB : (-1) ^ (0 + 0)
               * det (1 - 1) (fun i' j' => A (skip 0 i') (skip 0 j'))
               / A 0%nat 0%nat = / A 0%nat 0%nat).
  { cbn [Nat.add Nat.sub det pow]. field. exact E. }
  split; [exact HB|].
  split; intros i j Hi Hj;
    assert (i = 0%nat) as -> by lia; assert (j = 0%nat) as -> by lia;
    unfold matmul, eye; cbn [rsum Nat.eqb Nat.add Nat.sub det pow]; field;
    exact E.
Qed.

Lemma exact_inverse_order_1 (A B : mat) :
  linalg_inv (2 - 1) A = Some B -> inverse_of (2 - 1) A B.
Proof.
  intros H. apply (cofactor_inv_order_1 A B). exact H.
Qed.

(** A diagonal matrix of order 2 with positive entries. *)
Lemma diagonal_spd_2 (A : mat) :
  0 < A 0%nat 0%nat -> 0 < A 1%nat 1%nat ->
  A 0%nat 1%nat = 0 -> A 1%nat 0%nat = 0 ->
  spd 2 A.
Proof.
  intros H0 H1 H01 H10. split.
  - intros i j Hi Hj.
    destruct i as [|[|i]]; try lia; destruct j as [|[|j]]; try lia;
      congruence.
  - intros x [i [Hi Hx]]. unfold quad_form. cbn [rsum].
    rewrite H01, H10.
    assert (x 0%nat <> 0 \/ x 1%nat <> 0) as Hnz.
    { destruct i as [|[|i]]; try lia; tauto. }
    assert (0 <= x 0%nat * x 0%nat) by nra.
    assert (0 <= x 1%nat * x 1%nat) by nra.
    destruct Hnz as [Hz|Hz].
    + assert (0 < x 0%nat * x 0%nat) by nra. nra.
    + assert (0 < x 1%nat * x 1%nat) by nra. nra.
Qed.

Lemma det_order_1 (A : mat) : det 1 A = A 0%nat 0%nat.
Proof. cbn [det rsum pow]. ring. Qed.

Lemma cofactor_inv_order_1_some (A : mat) :
  A 0%nat 0%nat <> 0 -> cofactor_inv 1 A <> None.
Proof.
  intros HA. unfold cofactor_inv. rewrite det_order_1.
  destruct (Req_dec_T (A 0%nat 0%nat) 0); [contradiction|discriminate].
Qed.

(** One sweep, in exact arithmetic, on tasks of two variables that all have
    the variance [v] and no covariance, from the default initial [omega]:
    every coordinate stays at zero, the sweep returns and divides by zero
    nowhere. *)
Section TwoVariables.
Variables (omega_loc emp_loc : positive) (n_samples : vec) (n_tasks : nat).
Variables (rho v : R) (h2 : gmap positive ndarray).
Hypothesis Hloc : omega_loc <> emp_loc.
Hypothesis Hsh : shape (h2 !!! omega_loc) = shape (h2 !!! emp_loc).
Hypothesis Hrho : 0 <= rho.
Hypothesis Hv : 0 < v.
Hypothesis Hemp :
  forall k i j, (k < n_tasks)%nat -> (i < 2)%nat -> (j < 2)%nat ->
    as_stack (h2 !!! emp_loc) i j k = if (i =? j)%nat then v else 0.
Hypothesis Homega :
  forall k i j, (k < n_tasks)%nat -> (i < 2)%nat -> (j < 2)%nat ->
    as_stack (h2 !!! omega_loc) i j k = if (i =? j)%nat then 1 / v else 0.

Let s0 : state :=
  {| st_heap := h2; st_W := fun _ _ _ => 0; st_Winv := fun _ _ _ => 0;
     st_warnings := O |}.

Lemma two_variables_first_step :
  exists s1,
    step_p omega_loc emp_loc n_samples n_tasks 2 rho 0 s0 = (s1, None) /\
    shape (st_heap s1 !!! omega_loc) = shape (st_heap s1 !!! emp_loc) /\
    st_heap s1 !!! emp_loc = h2 !!! emp_loc /\
    forall k, (k < n_tasks)%nat ->
      as_stack (st_heap s1 !!! omega_loc) 0%nat 0%nat k
      = st_W s1 0%nat 0%nat k.
Proof.
  destruct (inv_stack_returns 1
              (fun i j k => as_stack (h2 !!! omega_loc) (S i) (S j) k)
              n_tasks (fun _ _ _ => 0)) as [Winv1 Hinv].
  { intros k Hk. apply cofactor_inv_order_1_some. unfold slice.
    rewrite Homega by (exact Hk || lia). cbn [Nat.eqb].
    unfold Rdiv. rewrite Rmult_1_l. apply Rinv_neq_0_compat. lra. }
  eexists. split.
  { apply step_p_zero_covariance with
      (W' := fun i j k => as_stack (h2 !!! omega_loc) (S i) (S j) k)
      (Winv' := Winv1).
    - exact Hsh.
    - intros k Hk. cbn [st_heap s0]. unfold skip. cbn [Nat.ltb Nat.leb].
      rewrite Hemp by (exact Hk || lia). reflexivity.
    - exact Hrho.
    - unfold submatrix_phase. cbn [Nat.eqb Nat.sub st_heap s0].
      rewrite Hinv. reflexivity. }
  cbn [st_heap st_W s0].
  rewrite lookup_total_insert_eq.
  rewrite lookup_total_insert_ne by exact Hloc.
  split; [exact Hsh|]. split; [reflexivity|].
  intros k Hk. unfold as_stack at 1, array3. cbn [data].
  rewrite write_back_diag by exact Hk.
  rewrite Hemp, Homega by (exact Hk || lia). cbn [Nat.eqb Nat.sub].
  unfold dot, vecmat, set_column. cbn [rsum Nat.eqb]. ring.
Qed.

Lemma two_variables_second_step (s1 : state) :
  shape (st_heap s1 !!! omega_loc) = shape (st_heap s1 !!! emp_loc) ->
  st_heap s1 !!! emp_loc = h2 !!! emp_loc ->
  exists s2,
    step_p omega_loc emp_loc n_samples n_tasks 2 rho 1 s1 = (s2, None).
Proof.
  intros Hsh1 Hemp1. eexists.
  apply step_p_zero_covariance with
    (W' := fst (update_stack n_tasks 2 (as_stack (st_heap s1 !!! omega_loc))
                  (st_W s1) (st_Winv s1) 1))
    (Winv' := snd (update_stack n_tasks 2
                     (as_stack (st_heap s1 !!! omega_loc))
                     (st_W s1) (st_Winv s1) 1)).
  - exact Hsh1.
  - intros k Hk. rewrite Hemp1. unfold skip. cbn [Nat.ltb Nat.leb].
    rewrite Hemp by (exact Hk || lia). reflexivity.
  - exact Hrho.
  - unfold submatrix_phase. cbn [Nat.eqb]. reflexivity.
Qed.

Lemma two_variables_sweep :
  (exists s2,
      sweep omega_loc emp_loc n_samples n_tasks 2 rho s0 = (s2, None)) /\
  for_range_always (regular_step omega_loc n_tasks 2)
    (step_p omega_loc emp_loc n_samples n_tasks 2 rho) 0 2 s0.
Proof.
  destruct two_variables_first_step as (s1 & Hstep1 & Hsh1 & Hemp1 & Hdiag).
  destruct (two_variables_second_step s1 Hsh1 Hemp1) as (s2 & Hstep2).
  split.
  - exists s2. unfold sweep. cbn [for_range]. rewrite Hstep1, Hstep2.
    reflexivity.
  - cbn [for_range_always]. rewrite Hstep1, Hstep2.
    split; [intros H0; lia|]. split; [|exact I].
    intros _ k Hk.
    destruct (denominators_order_2
                (slice (as_stack (st_heap s1 !!! omega_loc)) k)
                (slice (st_W s1) k) (slice (st_Winv s1) k)) as [-> ->].
    unfold slice. rewrite (Hdiag k Hk). split; lra.
Qed.

(** With [max_iter = 1], no tolerance and no cost trace, the optimisation
    loop runs this sweep and stops. *)
Lemma two_variables_optimize :
  pr_raised (optimize omega_loc emp_loc n_samples n_tasks 2 rho None false 1
               s0 nil O) = None /\
  pr_sweeps (optimize omega_loc emp_loc n_samples n_tasks 2 rho None false 1
               s0 nil O) = 1%nat /\
  regular_run omega_loc emp_loc n_samples n_tasks 2 rho 1 s0.
Proof.
  destruct two_variables_sweep as [[s2 Hsweep] Hreg].
  cbn [optimize regular_run]. rewrite Hsweep.
  rewrite bool_decide_eq_false_2 by (intros [x Hx]; discriminate).
  cbn [orb optimize pr_raised pr_sweeps].
  split; [reflexivity|]. split; [reflexivity|]. split; [exact Hreg|exact I].
Qed.
End TwoVariables.

(** *** A run on two identical tasks *)

Lemma demo_covariance (i j : nat) :
  (i < 2)%nat -> (j < 2)%nat ->
  symmetrize (sample_covariance two_samples true) i j
  = if (i =? j)%nat then 1 / 2 else 0.
Proof.
  intros Hi Hj.
  destruct i as [|[|i]]; try lia; destruct j as [|[|j]]; try lia;
    unfold symmetrize, sample_covariance, as_mat, two_samples, array2,
      mat_of_rows, dim;
    cbn [shape data nth rsum INR Nat.eqb]; lra.
Qed.

Lemma demo_task_matrix (k : nat) :
  (k < 2)%nat -> demo_heap !!! nth k demo_tasks 1%positive = two_samples.
Proof.
  intros Hk. destruct k as [|[|k]]; try lia; reflexivity.
Qed.

(** The initial state of the run: both stacks have the shape (2, 2, 2),
    every covariance matrix is half the identity and every precision matrix
    twice the identity. *)
Lemma demo_initial_state :
  exists (h2 : gmap positive ndarray) (emp omega : positive) (ns : vec),
    initialize demo_heap (TaskSeq demo_tasks) (PyInt 10) true None
    = (h2, Return (emp, omega, ns, 2%nat, 2%nat)) /\
    omega <> emp /\
    shape (h2 !!! omega) = shape (h2 !!! emp) /\
    (forall k i j, (k < 2)%nat -> (i < 2)%nat -> (j < 2)%nat ->
       as_stack (h2 !!! emp) i j k = if (i =? j)%nat then 1 / 2 else 0) /\
    (forall k i j, (k < 2)%nat -> (i < 2)%nat -> (j < 2)%nat ->
       as_stack (h2 !!! omega) i j k
       = if (i =? j)%nat then 1 / (1 / 2) else 0).
Proof.
  destruct (initialize_default_state demo_heap 1%positive (2%positive :: nil)
              (PyInt 10) true 2 eq_refl demo_tasks_stored
              demo_tasks_features ltac:(lia))
    as (h2 & Hinit & Hshe & Hsho & Hemp & Homega).
  cbn [length] in *.
  eexists h2, _, _, _. split; [exact Hinit|].
  destruct (initialize_new _ _ _ _ _ _ _ _ _ _ _ Hinit) as (_ & _ & Hne).
  split; [intros E; apply Hne; symmetry; exact E|].
  split; [rewrite Hshe, Hsho; reflexivity|].
  assert (He : forall k i j, (k < 2)%nat -> (i < 2)%nat -> (j < 2)%nat ->
            as_stack (h2 !!! alloc demo_heap) i j k
            = if (i =? j)%nat then 1 / 2 else 0).
  { intros k i j Hk Hi Hj. rewrite (Hemp k Hk i j).
    change (nth k (1%positive :: 2%positive :: nil) 1%positive)
      with (nth k demo_tasks 1%positive).
    rewrite (demo_task_matrix k Hk). apply demo_covariance; assumption. }
  split; [exact He|].
  intros k i j Hk Hi Hj. rewrite (Homega k Hk i j).
  destruct (Nat.eqb_spec i j) as [->|_]; [|reflexivity].
  rewrite (He k j j Hk Hj Hj), Nat.eqb_refl. reflexivity.
Qed.

(** The run returns after its one sweep, and no step of it divides by
    zero. *)
Lemma demo_run_returns :
  exists (h2 : gmap positive ndarray) (emp omega : positive) (ns : vec),
    initialize demo_heap (TaskSeq demo_tasks) (PyInt 10) true None
    = (h2, Return (emp, omega, ns, 2%nat, 2%nat)) /\
    out demo_run = Returned emp omega None /\
    sweeps_done demo_run = 1%nat /\
    (forall p k, (p < 2)%nat -> (k < 2)%nat ->
       0 < as_stack (h2 !!! emp) p p k) /\
    (forall k, (k < 2)%nat -> spd 2 (slice (as_stack (h2 !!! omega)) k)) /\
    regular_run omega emp ns 2 2 10 1
      {| st_heap := h2; st_W := fun _ _ _ => 0; st_Winv := fun _ _ _ => 0;
         st_warnings := O |}.
Proof.
  destruct demo_initial_state
    as (h2 & emp & omega & ns & Hinit & Hne & Hsh & Hemp & Homega).
  destruct (two_variables_optimize omega emp ns 2 10 (1 / 2) h2 Hne Hsh
              ltac:(lra) ltac:(lra) Hemp Homega) as (Hraised & Hsweeps & Hreg).
  exists h2, emp, omega, ns. split; [exact Hinit|].
  split; [|split; [|split; [|split]]].
  - unfold demo_run.
    rewrite (call_optimize _ _ _ _ _ _ _ _ _ _ _ _ _ _ 10 Hinit eq_refl
               (fun _ => Hsh)).
    cbn [out]. rewrite Hraised. reflexivity.
  - unfold demo_run.
    rewrite (call_optimize _ _ _ _ _ _ _ _ _ _ _ _ _ _ 10 Hinit eq_refl
               (fun _ => Hsh)).
    cbn [sweeps_done]. exact Hsweeps.
  - intros p k Hp Hk. rewrite (Hemp k p p Hk Hp Hp), Nat.eqb_refl. lra.
  - intros k Hk. apply diagonal_spd_2; unfold slice;
      rewrite Homega by (exact Hk || lia); cbn [Nat.eqb]; lra.
  - exact Hreg.
Qed.

Lemma returned_precisions_spd_witness :
  exists emp omega : positive,
    out demo_run = Returned emp omega None /\
    forall k, (k < 2)%nat ->
      spd 2 (slice (as_stack (final_heap demo_run !!! omega)) k).
Proof.
  destruct demo_run_returns
    as (h2 & emp & omega & ns & Hinit & Hout & _ & Hvar & Hspd & Hreg).
  exists emp, omega. split; [exact Hout|].
  apply (returned_precisions_spd demo_heap h2 (TaskSeq demo_tasks) (PyInt 10)
           1 None true false None emp omega ns 2 2 10 Hinit eq_refl
           exact_inverse_order_1 Hvar Hspd Hreg emp omega None Hout).
Defined.


Lemma warm_start_is_copied_witness :
  exists (h2 : gmap positive ndarray) (emp omega : positive) (ns : vec),
    initialize demo_heap (TaskSeq demo_tasks) (PyInt 1) true
      (Some 3%positive)
    = (h2, Return (emp, omega, ns, 2%nat, 2%nat)) /\
    h2 !!! omega = misfit /\ omega <> 3%positive /\
    out (group_sparse_covariance demo_heap (TaskSeq demo_tasks) (PyInt 1)
           0 None true false (Some 3%positive))
    = Returned emp omega None.
Proof.
  destruct (warm_start_is_copied demo_heap 1%positive (2%positive :: nil)
              (PyInt 1) true 2 3%positive eq_refl demo_tasks_stored
              demo_tasks_features demo_misfit_stored eq_refl)
    as (h2 & emp & omega & ns & Heq & Hcopy & Hnew & _ & Hzero & _).
  exists h2, emp, omega, ns. split; [exact Heq|].
  split; [exact Hcopy|]. split; [exact Hnew|].
  exact (proj1 (Hzero None false)).
Defined.

(** C6 (counterexample).  Two tasks of two variables and a warm start of
    shape [(3, 3, 1)]: the initialisation raises nothing and returns with
    the copy of the warm start as [omega]; with [max_iter = 0] the call
    returns it as it is, a precision stack of shape [(3, 3, 1)] for two
    tasks of two variables. *)
Lemma misfit_warm_start_accepted :
  shape (demo_heap !!! 3%positive) <> 2%nat :: 2%nat :: 2%nat :: nil /\
  exists h2 emp omega ns,
    initialize demo_heap (TaskSeq demo_tasks) (PyInt 1) true
      (Some 3%positive)
    = (h2, Return (emp, omega, ns, 2%nat, 2%nat)) /\
    h2 !!! omega = misfit /\
    let r := group_sparse_covariance demo_heap (TaskSeq demo_tasks)
               (PyInt 1) 0 None true false (Some 3%positive) in
    out r = Returned emp omega None /\
    shape (final_heap r !!! omega) = 3%nat :: 3%nat :: 1%nat :: nil.
Proof.
  split; [discriminate|].
  pose proof (initialize_warm demo_heap 1%positive (2%positive :: nil)
                (PyInt 1) true 2 eq_refl demo_tasks_features 3%positive
                demo_misfit_stored) as Hwarm.
  cbn zeta in Hwarm.
  replace (preallocate 2 (demo_heap !!! 3%positive)) with (@None exn)
    in Hwarm by reflexivity.
  eexists _, _, _, _. split; [exact Hwarm|].
  split; [apply lookup_total_insert_eq|].
  cbn zeta. unfold group_sparse_covariance. unfold demo_tasks.
  rewrite Hwarm. cbn [rho_real Nat.eqb negb]. rewrite andb_false_r.
  cbn zeta. cbn [optimize out final_heap pr_state pr_raised st_heap].
  split; [reflexivity|].
  rewrite lookup_total_insert_eq. reflexivity.
Qed.

Lemma empirical_covariances_spec_witness :
  exists (h' : gmap positive ndarray) (emp : positive) (n_samples : vec),
    empirical_covariances demo_heap (TaskSeq demo_tasks) true
    = (h', Return (emp, n_samples, 2%nat, 2%nat)) /\
    (forall i j,
       as_stack (h' !!! emp) i j 0%nat
       = (sample_covariance two_samples true i j
          + sample_covariance two_samples true j i) / 2) /\
    (forall i j, as_stack (h' !!! emp) i j 0%nat
                 = as_stack (h' !!! emp) j i 0%nat) /\
    rsum 2 n_samples = 1.
Proof.
  destruct (empirical_covariances_spec demo_heap 1%positive
              (2%positive :: nil) true 2 demo_tasks_stored
              demo_tasks_axes demo_tasks_features demo_samples_total)
    as (h' & emp & ns & Heq & _ & Hval & Hsym & _ & Hsum).
  exists h', emp, ns. split; [exact Heq|].
  split; [intros i j; apply (Hval 0%nat); simpl; lia|].
  split; [intros i j; apply (Hsym 0%nat); simpl; lia|exact Hsum].
Defined.

Lemma caller_arrays_unchanged_witness :
  (final_heap demo_run !! 1%positive = demo_heap !! 1%positive /\
   exists emp omega : positive,
     out demo_run = Returned emp omega None /\
     emp <> 1%positive /\ omega <> 1%positive) /\
  final_heap (group_sparse_covariance demo_heap (TaskSeq demo_tasks)
                (PyInt 10) 1 None true false (Some 3%positive))
    !! 3%positive
  = demo_heap !! 3%positive.
Proof.
  split.
  - destruct (caller_arrays_unchanged demo_heap (TaskSeq demo_tasks)
                (PyInt 10) 1 None true false None 1%positive
                (demo_tasks_stored 1%positive ltac:(left)))
      as [Hframe Hnew].
    destruct demo_run_returns as (h2 & emp & omega & ns & _ & Hout & _).
    split; [exact Hframe|].
    exists emp, omega. split; [exact Hout|].
    exact (Hnew emp omega None Hout).
  - apply (caller_arrays_unchanged demo_heap (TaskSeq demo_tasks) (PyInt 10)
             1 None true false (Some 3%positive) 3%positive
             demo_misfit_stored).
Defined.

Lemma identical_tasks_witness :
  exists emp omega : positive,
    out demo_run = Returned emp omega None /\
    uniform 2 (as_stack (final_heap demo_run !!! omega)) /\
    uniform 2 (as_stack (final_heap demo_run !!! emp)).
Proof.
  pose proof (identical_tasks_identical_precisions demo_heap 1%positive
                (2%positive :: nil) (PyInt 10) 1 None true false None
                demo_tasks_stored demo_tasks_same I) as H.
  destruct demo_run_returns as (h2 & emp & omega & ns & _ & Hout & _).
  change (group_sparse_covariance demo_heap
            (TaskSeq (1%positive :: 2%positive :: nil)) (PyInt 10) 1 None
            true false None) with demo_run in H.
  rewrite Hout in H.
  exists emp, omega. split; [exact Hout|exact H].
Defined.

(** Without a warm start, valid tasks with at least two variables pass the
    whole initialisation. *)
Lemma initialize_default_returns {L : Library} (h : gmap positive ndarray)
    (s0 : positive) (rest : list positive) (rho : pyval) (ac : bool)
    (n_var : nat) :
  rho_rejected rho = false ->
  (forall s, s ∈ s0 :: rest -> s ∈ dom h) ->
  (forall s, s ∈ s0 :: rest -> dim (h !!! s) 1 = n_var) ->
  (2 <= n_var)%nat ->
  exists h2 emp omega ns,
    initialize h (TaskSeq (s0 :: rest)) rho ac None
    = (h2, Return (emp, omega, ns, length (s0 :: rest), n_var)).
Proof.
  intros Hacc Hdom Hfeat Hn.
  destruct (initialize_default h s0 rest rho ac n_var Hacc Hdom Hfeat)
    as (h2 & _ & _ & Hsh & _).
  cbn zeta in Hsh. revert Hsh.
  unfold initialize. rewrite Hacc.
  rewrite (empirical_covariances_returns h s0 rest ac n_var Hfeat).
  cbn zeta. intros Hsh.
  match goal with
  | |- context [preallocate n_var ?omega] =>
      assert (Hpre : preallocate n_var omega = None)
  end.
  { unfold preallocate. destruct (Nat.ltb_spec n_var 2); [lia|].
    match goal with
    | |- context [shape ?a] =>
        assert (E : shape a = n_var :: n_var :: length (s0 :: rest) :: nil)
    end.
    { destruct (initialize_default h s0 rest rho ac n_var Hacc Hdom Hfeat)
        as (h2' & E2 & _ & Hsh' & _).
      cbn zeta in *. unfold initialize in E2. rewrite Hacc in E2.
      rewrite (empirical_covariances_returns h s0 rest ac n_var Hfeat) in E2.
      cbn zeta in E2.
      destruct (preallocate _ _) in E2; cbn [fst] in E2; rewrite E2;
        exact Hsh'. }
    rewrite E. destruct (Nat.eqb_spec n_var 0); [lia|]. reflexivity. }
  rewrite Hpre. eexists _, _, _, _. reflexivity.
Qed.

(** An accepted [rho] that is not a finite number reaches the sweeps. *)
Lemma call_nonfinite {L : Library} (h h2 : gmap positive ndarray) tasks rho
    max_iter tol ac return_costs pinit x :
  rho_real rho = None ->
  initialize h tasks rho ac pinit = (h2, Return x) ->
  out (group_sparse_covariance h tasks rho (S max_iter) tol ac return_costs
         pinit)
  = NonFiniteRho.
Proof.
  intros Hrho Hinit. unfold group_sparse_covariance.
  rewrite Hinit, Hrho. destruct x as [[[[emp omega] ns] nt] nv]. reflexivity.
Qed.

(** C5 (counterexample).  NaN and plus infinity are floats that are not
    below zero: on two valid tasks the call raises no validation error for
    them and goes on to the sweeps. *)
Lemma nonfinite_rho_accepted :
  out (group_sparse_covariance demo_heap (TaskSeq demo_tasks)
         (PyFloat FNaN) 1 None true false None)
  = NonFiniteRho /\
  out (group_sparse_covariance demo_heap (TaskSeq demo_tasks)
         (PyFloat FPosInf) 1 None true false None)
  = NonFiniteRho.
Proof.
  split.
  - destruct (initialize_default_returns demo_heap 1%positive
                (2%positive :: nil) (PyFloat FNaN) true 2 eq_refl
                demo_tasks_stored demo_tasks_features ltac:(lia))
      as (h2 & emp & omega & ns & Hinit).
    exact (call_nonfinite demo_heap h2 (TaskSeq demo_tasks) (PyFloat FNaN)
             0 None true false None _ eq_refl Hinit).
  - destruct (initialize_default_returns demo_heap 1%positive
                (2%positive :: nil) (PyFloat FPosInf) true 2 eq_refl
                demo_tasks_stored demo_tasks_features ltac:(lia))
      as (h2 & emp & omega & ns & Hinit).
    exact (call_nonfinite demo_heap h2 (TaskSeq demo_tasks) (PyFloat FPosInf)
             0 None true false None _ eq_refl Hinit).
Qed.

(** *** A step that divides by zero *)









(** *** A run without penalty *)

Lemma single_task_stored (s : positive) :
  s ∈ 1%positive :: nil -> s ∈ dom single_heap.
Proof.
  intros Hs. apply elem_of_dom.
  apply elem_of_cons in Hs as [->|Hs]; [eexists; reflexivity|].
  apply elem_of_nil in Hs. contradiction.
Qed.

Lemma single_task_features (s : positive) :
  s ∈ 1%positive :: nil -> dim (single_heap !!! s) 1 = 2%nat.
Proof.
  intros Hs.
  apply elem_of_cons in Hs as [->|Hs]; [reflexivity|].
  apply elem_of_nil in Hs. contradiction.
Qed.

Lemma skewed_covariance (i j : nat) :
  (i < 2)%nat -> (j < 2)%nat ->
  symmetrize (sample_covariance skewed true) i j
  = mat_of_rows ((1 / 2 :: 1 / 2 :: nil) :: (1 / 2 :: 1 :: nil) :: nil) i j.
Proof.
  intros Hi Hj.
  destruct i as [|[|i]]; try lia; destruct j as [|[|j]]; try lia;
    unfold symmetrize, sample_covariance, as_mat, skewed, array2,
      mat_of_rows, dim;
    cbn [shape data nth rsum INR]; lra.
Qed.

(** C7 (evaluation at the failing input).  One task with two correlated
    variables (the samples (1, 1) and (0, 1), taken as centered) and
    [rho = 0], a value the docstring allows ("zero is no regularization"):
    the validation accepts [rho], the first root-find of the first sweep
    uses up its 50 steps, and the call ends with the RuntimeError of
    [scipy.optimize.newton], which the code does not catch; no coordinate
    is written and the computation does not continue. *)
Theorem root_find_failure_aborts :
  rho_rejected (PyInt 0) = false /\
  out (group_sparse_covariance single_heap (TaskSeq (1%positive :: nil))
         (PyInt 0) 1 None true false None)
  = Raised RuntimeError_newton.
Proof.
  split; [reflexivity|].
  destruct (initialize_default_state single_heap 1%positive nil (PyInt 0)
              true 2 eq_refl single_task_stored single_task_features
              ltac:(lia))
    as (h2 & Hinit & Hshe & Hsho & Hemp & Homega).
  cbn [length] in *.
  assert (He : forall i j, (i < 2)%nat -> (j < 2)%nat ->
            as_stack (h2 !!! alloc single_heap) i j 0%nat
            = mat_of_rows ((1 / 2 :: 1 / 2 :: nil) :: (1 / 2 :: 1 :: nil)
                           :: nil) i j).
  { intros i j Hi Hj. rewrite (Hemp 0%nat ltac:(lia) i j).
    apply skewed_covariance; assumption. }
  set (emp := alloc single_heap) in *.
  match type of Hsho with
  | shape (h2 !!! ?o) = _ => set (omega := o) in *
  end.
  match type of Hinit with
  | _ = (_, Return (_, _, ?n, _, _)) => set (ns := n) in *
  end.
  assert (Hns : ns 0%nat = 1).
  { unfold ns, normalize, sample_counts. cbn [map nth rsum].
    replace (dim (single_heap !!! 1%positive) 0) with 2%nat by reflexivity.
    cbn [INR]. field. }
  rewrite (call_optimize _ _ _ _ _ _ _ _ _ _ _ _ _ _ (IZR 0) Hinit eq_refl
             (fun _ => eq_trans Hsho (eq_sym Hshe))).
  cbn zeta. cbn [optimize]. unfold sweep. cbn [for_range].
  set (s0 := {| st_heap := h2; st_W := fun _ _ _ => 0;
                st_Winv := fun _ _ _ => 0; st_warnings := O |}).
  assert (Hstep : exists s',
            step_p omega emp ns 1 2 (IZR 0) 0 s0
            = (s', Some RuntimeError_newton)).
  { unfold step_p. cbn [st_heap st_W st_Winv st_warnings s0].
    unfold submatrix_phase. cbn [Nat.eqb Nat.sub].
    destruct (inv_stack 1 (fun i j k => as_stack (h2 !!! omega) (S i) (S j) k)
                1 (fun _ _ _ => 0)) as [Winv|e] eqn:Hinv.
    2:{ exfalso. cbn [inv_stack] in Hinv.
        destruct (linalg_inv 1 _) as [B|] eqn:HB; [discriminate|].
        revert HB. apply cofactor_inv_order_1_some. unfold slice.
        rewrite (Homega 0%nat ltac:(lia)), (He 1%nat 1%nat) by lia.
        cbn [Nat.eqb mat_of_rows nth]. lra. }
    destruct (inv_stack_spec _ _ _ _ _ Hinv 0%nat ltac:(lia))
      as (B & HB & Hval).
    destruct (cofactor_inv_order_1 _ _ HB) as (_ & HB0 & _).
    unfold slice in HB0.
    rewrite (Homega 0%nat ltac:(lia)), (He 1%nat 1%nat) in HB0 by lia.
    cbn [Nat.eqb mat_of_rows nth] in HB0.
    unfold coordinate_descent. cbn [Nat.sub for_range].
    match goal with
    | |- context [coordinate_step 1 2 ns ?E ?W ?u _ 0 0 (?y, ?w)] =>
        destruct (coordinate_step_no_penalty 2 ns E W u 0 0 y w)
          as [_ Hraise]
    end; [| |rewrite Hraise; eexists; reflexivity].
    - unfold coord_c, skip. cbn [Nat.sub rsum Nat.ltb Nat.leb].
      rewrite Hns, (He 1%nat 0%nat) by lia. cbn [mat_of_rows nth]. lra.
    - unfold coord_q. rewrite Hns, (He 0%nat 0%nat), Hval, HB0 by lia.
      cbn [mat_of_rows nth]. split; [|lra].
      replace (1 * (1 / 2) * / (1 / 1)) with (1 / 2) by field. lra. }
  destruct Hstep as [s' ->]. reflexivity.
Qed.

(** * The other functions of the module: proofs *)

(** ** Loops whose body keeps a property or raises *)

Lemma for_range_steps {St : Type} (P : St -> Prop) (Q : exn -> Prop)
    (body : nat -> St -> St * option exn) :
  forall (count start : nat) (s : St),
    (forall i t, (start <= i < start + count)%nat -> P t ->
       match body i t with
       | (t', None) => P t'
       | (_, Some e) => Q e
       end) ->
    P s ->
    match for_range body start count s with
    | (s', None) => P s'
    | (_, Some e) => Q e
    end.
Proof.
  induction count as [|c IH]; intros start s Hbody HP; cbn [for_range].
  - exact HP.
  - pose proof (Hbody start s ltac:(lia) HP) as H1.
    destruct (body start s) as [s1 [e|]]; [exact H1|].
    apply IH; [|exact H1].
    intros i t Hi. apply Hbody. lia.
Qed.

Section Steps.
Context {L : Library}.
Variables (omega_loc emp_loc : positive) (n_samples : vec).
Variables (n_tasks n_var : nat) (rho : R).
Variables (P : state -> Prop) (Q : exn -> Prop).
Hypothesis Hstep :
  forall p s, (p < n_var)%nat -> P s ->
    match step_p omega_loc emp_loc n_samples n_tasks n_var rho p s with
    | (s', None) => P s'
    | (_, Some e) => Q e
    end.
Hypothesis Hcosts : forall e, costs_exception e -> Q e.

Lemma sweep_steps (s : state) :
  P s ->
  match sweep omega_loc emp_loc n_samples n_tasks n_var rho s with
  | (s', None) => P s'
  | (_, Some e) => Q e
  end.
Proof.
  intros HP. unfold sweep. apply for_range_steps; [|exact HP].
  intros p t Hp. apply Hstep. lia.
Qed.

(** A property that every step of a sweep keeps holds of the state the
    optimisation loop ends in; an exception is one of a step or of the cost
    evaluator. *)
Lemma optimize_steps (tol : option R) (return_costs : bool)
    (remaining : nat) :
  forall (s : state) (costs : list (R * R)) (done : nat),
    P s ->
    match pr_raised (optimize omega_loc emp_loc n_samples n_tasks n_var rho
                       tol return_costs remaining s costs done) with
    | None =>
        P (pr_state (optimize omega_loc emp_loc n_samples n_tasks n_var rho
                       tol return_costs remaining s costs done))
    | Some e => Q e
    end.
Proof.
  induction remaining as [|rest IH]; intros s costs done HP.
  - cbn. exact HP.
  - cbn [optimize]. pose proof (sweep_steps s HP) as Hs.
    destruct (sweep omega_loc emp_loc n_samples n_tasks n_var rho s)
      as [s1 [e|]]; [cbn; exact Hs|].
    destruct (return_costs || bool_decide (is_Some tol)).
    + destruct (group_sparse_covariance_costs _ _ _ _ _ _)
        as [[objective gap]|e] eqn:Hc.
      * destruct tol as [t|].
        -- destruct (Rlt_dec gap t); [cbn; exact Hs|]. apply IH. exact Hs.
        -- apply IH. exact Hs.
      * cbn. apply Hcosts. exact (costs_raises _ _ _ _ _ _ _ Hc).
    + apply IH. exact Hs.
Qed.
End Steps.

(** ** [rho_max] *)

Lemma rmax_upper (n : nat) (f : nat -> R) (i : nat) :
  (i <= n)%nat -> f i <= rmax n f.
Proof.
  induction n as [|n IH]; intros Hi; cbn [rmax].
  - replace i with 0%nat by lia. lra.
  - destruct (Nat.eq_dec i (S n)) as [->|Hne].
    + apply Rmax_r.
    + apply Rle_trans with (rmax n f); [apply IH; lia|apply Rmax_l].
Qed.

Lemma rmax_least (n : nat) (f : nat -> R) (b : R) :
  (forall i, (i <= n)%nat -> f i <= b) -> rmax n f <= b.
Proof.
  induction n as [|n IH]; intros H; cbn [rmax].
  - apply H. lia.
  - apply Rmax_lub; [apply IH; intros; apply H; lia|apply H; lia].
Qed.

Lemma matrix_max_upper (n : nat) (M : mat) (r : R) (i j : nat) :
  matrix_max n M = Some r -> (i < n)%nat -> (j < n)%nat -> M i j <= r.
Proof.
  destruct n as [|m]; [discriminate|]. intros [= <-] Hi Hj.
  apply Rle_trans with (rmax m (fun j' => M i j')).
  - apply (rmax_upper m (fun j' => M i j')). lia.
  - apply (rmax_upper m (fun i' => rmax m (fun j' => M i' j'))). lia.
Qed.

Lemma matrix_max_least (n : nat) (M : mat) (b : R) :
  (0 < n)%nat ->
  (forall i j, (i < n)%nat -> (j < n)%nat -> M i j <= b) ->
  exists r, matrix_max n M = Some r /\ r <= b.
Proof.
  destruct n as [|m]; [lia|]. intros _ H. eexists. split; [reflexivity|].
  apply rmax_least. intros i Hi. apply rmax_least. intros j Hj.
  apply H; lia.
Qed.

(** [rho_max] bounds the group norm of every off-diagonal entry of the
    weighted covariances, and is the least such bound that is not
    negative. *)
Lemma rho_max_upper (n_var n_tasks : nat) (emp_covs : stack)
    (n_samples : vec) (r : R) (i j : nat) :
  rho_max n_var n_tasks emp_covs n_samples = Some r ->
  (i < n_var)%nat -> (j < n_var)%nat -> i <> j ->
  sqrt (rsum n_tasks (fun k => (emp_covs i j k * n_samples k) ^ 2)) <= r.
Proof.
  intros Hr Hi Hj Hne. unfold rho_max in Hr.
  pose proof (matrix_max_upper _ _ _ i j Hr Hi Hj) as H.
  unfold group_norm in H.
  destruct (Nat.eqb_spec i j) as [E|_]; [contradiction|]. exact H.
Qed.

Lemma rho_max_least (n_var n_tasks : nat) (emp_covs : stack)
    (n_samples : vec) (b : R) :
  (0 < n_var)%nat -> 0 <= b ->
  (forall i j, (i < n_var)%nat -> (j < n_var)%nat -> i <> j ->
     sqrt (rsum n_tasks (fun k => (emp_covs i j k * n_samples k) ^ 2)) <= b) ->
  exists r, rho_max n_var n_tasks emp_covs n_samples = Some r /\ r <= b.
Proof.
  intros Hn Hb H. unfold rho_max. apply matrix_max_least; [exact Hn|].
  intros i j Hi Hj. unfold group_norm.
  destruct (Nat.eqb_spec i j) as [E|Hne].
  - rewrite (rsum_ext n_tasks _ (fun _ => 0)), rsum_zero, sqrt_0;
      [exact Hb|].
    intros k _. ring.
  - apply H; assumption.
Qed.

(** ** The solver at a penalty of at least [rho_max] *)

Section FullSparsity.
Context {L : Library}.
Variables (n_tasks n_var : nat) (n_samples : vec) (emp_covs : stack).
Variables (rho : R) (p : nat).
Hypothesis Hp : (p < n_var)%nat.
Hypothesis Hbound :
  forall i j, (i < n_var)%nat -> (j < n_var)%nat -> i <> j ->
    sqrt (rsum n_tasks (fun k => (emp_covs i j k * n_samples k) ^ 2)) <= rho.

(** On a [y] that is zero, every coordinate stays at zero: no root-find is
    run and nothing is warned. *)
Lemma coordinate_descent_stays_zero (Winv : stack) (y : mat) (w : nat) :
  (forall k j, (k < n_tasks)%nat -> (j < n_var - 1)%nat -> y k j = 0) ->
  exists y',
    coordinate_descent n_tasks n_var n_samples emp_covs Winv
      (fun k j => emp_covs (skip p j) p k) rho p (y, w)
    = ((y', w), None) /\
    forall k j, (k < n_tasks)%nat -> (j < n_var - 1)%nat -> y' k j = 0.
Proof.
  intros Hy. unfold coordinate_descent.
  set (Pz := fun yw : mat * nat =>
               snd yw = w /\
               forall k j, (k < n_tasks)%nat -> (j < n_var - 1)%nat ->
                 fst yw k j = 0).
  assert (Hbody : forall m t, (0 <= m < 0 + (n_var - 1))%nat -> Pz t ->
            match coordinate_step n_tasks n_var n_samples emp_covs Winv
                    (fun k j => emp_covs (skip p j) p k) rho p m t with
            | (t', None) => Pz t'
            | (_, Some e) => False
            end).
  { intros m [y0 w0] Hm [Hw Hz]. cbn [fst snd] in Hw, Hz.
    unfold coordinate_step.
    rewrite coordinate_update_small.
    - split; [exact Hw|]. cbn [fst]. intros k j Hk Hj. unfold set_column.
      destruct (j =? m)%nat; [reflexivity|apply Hz; assumption].
    - apply Rle_trans
        with (sqrt (rsum n_tasks
                      (fun k => (emp_covs (skip p m) p k * n_samples k) ^ 2))).
      + right. f_equal. unfold dot. apply rsum_ext. intros k Hk.
        unfold coord_c.
        rewrite (rsum_ext (n_var - 2) _ (fun _ => 0)), rsum_zero.
        * ring.
        * intros j Hj. unfold y_1. rewrite Hz; [ring|exact Hk|].
          unfold skip. destruct (Nat.ltb_spec j m); lia.
      + apply Hbound; [|exact Hp|apply skip_neq].
        pose proof (skip_lt (n_var - 1) p m ltac:(lia)). lia. }
  pose proof (for_range_steps Pz (fun _ => False) _ (n_var - 1) 0 (y, w)
                Hbody (conj eq_refl Hy)) as H.
  destruct (for_range _ 0 (n_var - 1) (y, w)) as [[y' w'] [e|]];
    [contradiction|].
  destruct H as [Hw Hz]. cbn [fst snd] in Hw, Hz. subst w'.
  exists y'. split; [reflexivity|exact Hz].
Qed.
End FullSparsity.

Section FullSparsityRun.
Context {L : Library}.
Variables (omega_loc emp_loc : positive) (n_samples : vec).
Variables (n_tasks n_var : nat) (rho : R) (h0 : gmap positive ndarray).
Hypothesis Hloc : omega_loc <> emp_loc.
Hypothesis Hbound :
  forall i j, (i < n_var)%nat -> (j < n_var)%nat -> i <> j ->
    sqrt (rsum n_tasks
            (fun k => (as_stack (h0 !!! emp_loc) i j k * n_samples k) ^ 2))
    <= rho.

(** The state in which every precision matrix is the inverse of the
    diagonal of its covariance matrix and nothing has been warned. *)
Let diagonal_state (s : state) : Prop :=
  shape (st_heap s !!! omega_loc) = shape (st_heap s !!! emp_loc) /\
  st_heap s !!! emp_loc = h0 !!! emp_loc /\
  (forall i j k, (i < n_var)%nat -> (j < n_var)%nat -> (k < n_tasks)%nat ->
     as_stack (st_heap s !!! omega_loc) i j k
     = if (i =? j)%nat then 1 / as_stack (h0 !!! emp_loc) i i k else 0) /\
  st_warnings s = O.

Lemma diagonal_step (p : nat) (s : state) :
  (p < n_var)%nat -> diagonal_state s ->
  match step_p omega_loc emp_loc n_samples n_tasks n_var rho p s with
  | (s', None) => diagonal_state s'
  | (_, Some e) => e = LinAlgError \/ e = AssertionError_spd
  end.
Proof.
  intros Hp (Hsh & Hemp & Hval & Hw). unfold step_p.
  destruct (submatrix_phase _ _ _ _ _ _) as [[W Winv]|e] eqn:Hph;
    [|left; exact (submatrix_phase_raises _ _ _ _ _ _ _ Hph)].
  rewrite Hemp.
  destruct (coordinate_descent_stays_zero n_tasks n_var n_samples
              (as_stack (h0 !!! emp_loc)) rho p Hp Hbound Winv
              (fun k j => as_stack (st_heap s !!! omega_loc) (skip p j) p k)
              (st_warnings s)) as (y' & Hcd & Hz).
  { intros k j Hk Hj. rewrite Hval; [|pose proof (skip_lt (n_var - 1) p j Hj);
                                      lia|exact Hp|exact Hk].
    destruct (Nat.eqb_spec (skip p j) p) as [E|_]; [|reflexivity].
    exfalso. exact (skip_neq _ _ E). }
  rewrite Hcd.
  split; [|split; [|split]]; cbn [st_heap st_warnings].
  - rewrite lookup_total_insert_eq.
    rewrite lookup_total_insert_ne by exact Hloc. exact Hsh.
  - rewrite lookup_total_insert_ne by exact Hloc. exact Hemp.
  - intros i j k Hi Hj Hk. rewrite lookup_total_insert_eq.
    unfold as_stack at 1, array3. cbn [data].
    destruct (Nat.eq_dec i p) as [->|Hip]; destruct (Nat.eq_dec j p) as [->|Hjp].
    + rewrite write_back_diag by exact Hk. rewrite Nat.eqb_refl.
      unfold dot.
      rewrite (rsum_ext (n_var - 1) _ (fun _ => 0)), rsum_zero; [ring|].
      intros a Ha. rewrite (Hz k a Hk Ha). ring.
    + rewrite write_back_row by exact Hjp.
      rewrite Hz; [|exact Hk|apply unskip_lt; lia].
      destruct (Nat.eqb_spec p j); [congruence|reflexivity].
    + rewrite write_back_col by exact Hip.
      rewrite Hz; [|exact Hk|apply unskip_lt; lia].
      destruct (Nat.eqb_spec i p); [congruence|reflexivity].
    + rewrite write_back_other by assumption.
      apply Hval; assumption.
  - exact Hw.
Qed.

End FullSparsityRun.



(** ** What every returning call returns *)

Lemma write_back_symmetric (n_tasks n_var : nat) (emp_covs Winv omega : stack)
    (y : mat) (p : nat) :
  (forall i j k, omega i j k = omega j i k) ->
  forall i j k,
    write_back n_tasks n_var emp_covs Winv omega y p i j k
    = write_back n_tasks n_var emp_covs Winv omega y p j i k.
Proof.
  intros Hsym i j k. unfold write_back.
  destruct (Nat.eqb_spec i p) as [->|Hi]; destruct (Nat.eqb_spec j p) as [->|Hj];
    cbn [andb negb]; try reflexivity.
  apply Hsym.
Qed.

(** The call returns the stack that [empirical_covariances] built, as the
    optimisation left it: untouched; and precision matrices that are
    symmetric, whatever happened in the sweeps, when the warm start (if
    any) is symmetric. *)
Theorem returned_stacks {L : Library} (h h1 : gmap positive ndarray)
    (tasks : tasks_arg) (rho : pyval) (max_iter : nat) (tol : option R)
    (ac return_costs : bool) (pinit : option positive) (emp : positive)
    (ns : vec) (nt nv : nat) :
  empirical_covariances h tasks ac = (h1, Return (emp, ns, nt, nv)) ->
  match pinit with
  | None => True
  | Some init =>
      init ∈ dom h /\
      forall i j k, as_stack (h !!! init) i j k = as_stack (h !!! init) j i k
  end ->
  let run := group_sparse_covariance h tasks rho max_iter tol ac
               return_costs pinit in
  forall emp' omega costs,
    out run = Returned emp' omega costs ->
    emp' = emp /\
    final_heap run !!! emp = h1 !!! emp /\
    forall i j k,
      as_stack (final_heap run !!! omega) i j k
      = as_stack (final_heap run !!! omega) j i k.
Proof.
  intros Hemp Hinit. cbn zeta.
  unfold group_sparse_covariance, initialize.
  destruct (rho_rejected rho); [intros ? ? ?; discriminate|].
  rewrite Hemp. cbn zeta.
  destruct (empirical_covariances_new _ _ _ _ _ _ _ _ Hemp) as [Halloc Hin].
  assert (Hne : alloc h1 <> emp).
  { intros E. apply (alloc_fresh h1 emp Hin). symmetry. exact E. }
  match goal with
  | |- context [preallocate nv (?hh !!! alloc h1)] => set (h2 := hh)
  end.
  assert (Hh2 : h2 !!! emp = h1 !!! emp /\
                forall i j k, as_stack (h2 !!! alloc h1) i j k
                              = as_stack (h2 !!! alloc h1) j i k).
  { unfold h2. destruct pinit as [init|].
    - destruct Hinit as [Hdom Hsym].
      rewrite lookup_total_insert_ne by exact Hne.
      rewrite lookup_total_insert_eq. split; [reflexivity|].
      assert (E : h1 !!! init = h !!! init).
      { pose proof (empirical_covariances_frame h tasks ac init Hdom) as F.
        rewrite Hemp in F. cbn [fst] in F.
        rewrite !lookup_total_alt, F. reflexivity. }
      rewrite E. exact Hsym.
    - set (h' := <[alloc h1 := array3 (shape (h1 !!! emp))
                                 (fun _ _ _ => 0)]> h1).
      destruct (default_init_spec nt h' (alloc h1) emp Hne)
        as (He & _ & Hval).
      cbn zeta in He, Hval. split.
      + rewrite He. unfold h'. apply lookup_total_insert_ne. exact Hne.
      + intros i j k. rewrite !Hval.
        destruct (k <? nt)%nat.
        * rewrite (Nat.eqb_sym j i).
          destruct (Nat.eqb_spec i j) as [->|_]; reflexivity.
        * unfold h'. rewrite lookup_total_insert_eq. reflexivity. }
  clearbody h2. destruct Hh2 as [He2 Hs2].
  destruct (preallocate nv (h2 !!! alloc h1)); [intros ? ? ?; discriminate|].
  destruct (rho_real rho) as [rv|].
  - destruct (negb _ && negb _); [intros ? ? ?; discriminate|].
    cbn [out final_heap].
    match goal with
    | |- context [optimize _ _ _ _ _ _ _ _ _ ?s _ _] =>
        pose proof (optimize_steps (alloc h1) emp ns nt nv rv
                      (fun t =>
                         st_heap t !!! emp = h1 !!! emp /\
                         forall i j k,
                           as_stack (st_heap t !!! alloc h1) i j k
                           = as_stack (st_heap t !!! alloc h1) j i k)
                      (fun _ => True)) as Hopt;
        specialize (fun H1 H2 => Hopt H1 H2 tol return_costs max_iter s nil O)
    end.
    match type of Hopt with
    | ?A -> ?B -> _ => assert (HA : A); [|assert (HB : B); [|]]
    end.
    + intros p s Hp [Hse Hss].
      destruct (step_p (alloc h1) emp ns nt nv rv p s) as [s' [e|]] eqn:Hstep;
        [exact I|].
      destruct (step_p_returns _ _ _ _ _ _ _ _ _ Hstep) as (_ & y & Hheap).
      rewrite Hheap. split.
      * rewrite lookup_total_insert_ne by exact Hne. exact Hse.
      * intros i j k. rewrite lookup_total_insert_eq.
        unfold as_stack at 1 2, array3. cbn [data].
        apply write_back_symmetric. exact Hss.
    + intros e _. exact I.
    + specialize (Hopt HA HB (conj He2 Hs2)).
      destruct (pr_raised _); [intros ? ? ?; discriminate|].
      intros emp' omega costs [= <- <- _].
      destruct Hopt as [Hfe Hfs]. split; [reflexivity|].
      split; [exact Hfe|exact Hfs].
  - destruct max_iter; [|intros ? ? ?; discriminate].
    cbn. intros emp' omega costs [= <- <- _].
    split; [reflexivity|]. split; [exact He2|exact Hs2].
Qed.

Lemma returned_stacks_witness :
  exists emp omega : positive,
    out demo_run = Returned emp omega None /\
    forall i j k,
      as_stack (final_heap demo_run !!! omega) i j k
      = as_stack (final_heap demo_run !!! omega) j i k.
Proof.
  pose proof (empirical_covariances_returns demo_heap 1%positive
                (2%positive :: nil) true 2 demo_tasks_features) as Hemp.
  pose proof (returned_stacks demo_heap _ (TaskSeq demo_tasks) (PyInt 10) 1
                None true false None _ _ _ _ Hemp I) as Hret.
  destruct demo_run_returns as (h2 & emp' & omega & ns' & _ & Hout & _).
  destruct (Hret emp' omega None Hout) as (_ & _ & Hsym).
  exists emp', omega. split; [exact Hout|exact Hsym].
Defined.

(** ** Defective task lists *)



(** ** Fewer than two variables *)




(** ** No sweep *)



(** ** The debugging check of the submatrix *)

Lemma all_below_spec (n : nat) (f : nat -> bool) :
  all_below n f = true <-> forall i, (i < n)%nat -> f i = true.
Proof.
  induction n as [|n IH]; simpl.
  - split; [intros _ i Hi; lia|reflexivity].
  - rewrite andb_true_iff, IH. split.
    + intros [Hlt Hn] i Hi.
      destruct (Nat.eq_dec i n) as [->|Hne]; [exact Hn|apply Hlt; lia].
    + intros H. split; [intros i Hi; apply H; lia|apply H; lia].
Qed.

Lemma assert_submatrix_spec (M : nat) (close : R -> R -> bool)
    (full sub : mat) (n : nat) :
  assert_submatrix M close full sub n = true <->
  forall i j, (i < M)%nat -> (j < M)%nat ->
    close (submatrix full n i j) (sub i j) = true.
Proof.
  unfold assert_submatrix. rewrite all_below_spec.
  assert (Hsame : forall i j,
            (if (i <? n)%nat
             then if (j <? n)%nat then full i j else full i (S j)
             else if (j <? n)%nat then full (S i) j else full (S i) (S j))
            = submatrix full n i j).
  { intros i j. unfold submatrix, skip.
    destruct (i <? n)%nat, (j <? n)%nat; reflexivity. }
  split.
  - intros H i j Hi Hj. specialize (H i Hi).
    rewrite all_below_spec in H. rewrite <- Hsame. apply H. exact Hj.
  - intros H i Hi. rewrite all_below_spec. intros j Hj.
    rewrite Hsame. apply H; assumption.
Qed.

(** The half of the contract of [update_submatrix] that holds without
    condition: from a [sub] that is [full] without row and column [p - 1],
    the new [sub] passes [assert_submatrix(full, sub, p)], whatever
    [sub_inv] holds and whether or not a denominator of the update of the
    inverse is zero. *)
Theorem update_submatrix_passes_check (N p : nat)
    (close : R -> R -> bool) (full sub sub_inv : mat) :
  (forall x, close x x = true) ->
  (1 <= p)%nat ->
  agree (N - 1) sub (submatrix full (p - 1)) ->
  assert_submatrix (N - 1) close full
    (fst (update_submatrix N full sub sub_inv p)) p = true.
Proof.
  intros Hrefl Hp Hsub. apply assert_submatrix_spec. intros i j Hi Hj.
  rewrite (update_submatrix_sub N p full sub sub_inv Hp Hsub i j Hi Hj).
  apply Hrefl.
Qed.

Lemma almost_equal_refl (x : R) : almost_equal x x = true.
Proof.
  unfold almost_equal. replace (x - x) with 0 by ring. rewrite Rabs_R0.
  destruct (Rlt_dec 0 (15 / 100000000)) as [_|Hn]; [reflexivity|].
  exfalso. apply Hn. lra.
Qed.

Lemma update_submatrix_passes_check_witness :
  assert_submatrix 2 almost_equal full_sing
    (fst (update_submatrix 3 full_sing sub_sing sub_inv_sing 1)) 1 = true.
Proof.
  apply (update_submatrix_passes_check 3 1 almost_equal full_sing sub_sing
           sub_inv_sing almost_equal_refl (le_n 1) sub_sing_is_submatrix).
Defined.

(** ** The derivative passed to the root-find *)

Lemma derivable_pt_lim_value (f : R -> R) (x l l' : R) :
  l = l' -> derivable_pt_lim f x l -> derivable_pt_lim f x l'.
Proof. intros <- H. exact H. Qed.

Lemma derivable_pt_lim_term (cc q alpha : R) :
  1 + alpha * q <> 0 ->
  derivable_pt_lim (fun a => cc / (1 + a * q) ^ 2) alpha
    (- (2 * cc * q / (1 + alpha * q) ^ 3)).
Proof.
  intros Hne.
  set (lin := (fct_cte 1 + id * fct_cte q)%F).
  assert (Hlin : derivable_pt_lim lin alpha q).
  { apply (derivable_pt_lim_value lin alpha
             (0 + (1 * fct_cte q alpha + id alpha * 0))).
    - unfold fct_cte, id. ring.
    - apply derivable_pt_lim_plus; [apply derivable_pt_lim_const|].
      apply derivable_pt_lim_mult;
        [apply derivable_pt_lim_id|apply derivable_pt_lim_const]. }
  assert (Hval : forall a, lin a = 1 + a * q) by reflexivity.
  assert (Hsq : derivable_pt_lim (lin * lin)%F alpha
                  (q * lin alpha + lin alpha * q)).
  { apply derivable_pt_lim_mult; exact Hlin. }
  apply (derivable_pt_lim_ext (fct_cte cc / (lin * lin))%F).
  { intros a. unfold div_fct, mult_fct, fct_cte. rewrite Hval.
    unfold Rdiv. f_equal. f_equal. ring. }
  apply (derivable_pt_lim_value _ alpha
           ((0 * (lin * lin)%F alpha
             - (q * lin alpha + lin alpha * q) * fct_cte cc alpha)
            / Rsqr ((lin * lin)%F alpha))).
  { unfold mult_fct, fct_cte, Rsqr. rewrite Hval. field. exact Hne. }
  apply derivable_pt_lim_div.
  - apply derivable_pt_lim_const.
  - exact Hsq.
  - unfold mult_fct. rewrite Hval. apply Rmult_integral_contrapositive.
    split; exact Hne.
Qed.

Lemma derivable_pt_lim_rsum (n : nat) (f : nat -> R -> R) (d : nat -> R)
    (x : R) :
  (forall k, (k < n)%nat -> derivable_pt_lim (f k) x (d k)) ->
  derivable_pt_lim (fun a => rsum n (fun k => f k a)) x (rsum n d).
Proof.
  induction n as [|n IH]; intros H; cbn [rsum].
  - apply (derivable_pt_lim_const 0).
  - apply (derivable_pt_lim_ext
             ((fun a => (rsum n (fun k => f k a))%R) + f n)%F).
    + intros a. reflexivity.
    + apply derivable_pt_lim_plus; [|apply H; lia].
      apply IH. intros k Hk. apply H. lia.
Qed.

(** [quad_trust_region_deriv] is the derivative of [quad_trust_region] in
    [alpha], when [two_ccq] holds [2 * cc * q] as in the solver's call and
    no [1 + alpha * q_k] is zero. *)
Theorem quad_trust_region_deriv_correct (n : nat) (alpha : R)
    (q two_ccq cc : vec) (rho2 : R) :
  (forall k, (k < n)%nat -> two_ccq k = 2 * cc k * q k) ->
  (forall k, (k < n)%nat -> 1 + alpha * q k <> 0) ->
  derivable_pt_lim (fun a => quad_trust_region n a q two_ccq cc rho2) alpha
    (quad_trust_region_deriv n alpha q two_ccq cc rho2).
Proof.
  intros Htwo Hne. unfold quad_trust_region, quad_trust_region_deriv.
  replace (rsum n (fun k => two_ccq k / (1 + alpha * q k) ^ 3))
    with (0 - rsum n (fun k => - (2 * cc k * q k / (1 + alpha * q k) ^ 3))).
  - apply (derivable_pt_lim_ext
             (fct_cte rho2
              - (fun a => (rsum n (fun k => cc k / (1 + a * q k) ^ 2))%R))%F);
      [intros a; reflexivity|].
    apply derivable_pt_lim_minus.
    + apply derivable_pt_lim_const.
    + apply (derivable_pt_lim_rsum n
               (fun k a => cc k / (1 + a * q k) ^ 2)
               (fun k => - (2 * cc k * q k / (1 + alpha * q k) ^ 3))).
      intros k Hk. apply derivable_pt_lim_term. apply Hne. exact Hk.
  - rewrite (rsum_ext n (fun k => two_ccq k / (1 + alpha * q k) ^ 3)
               (fun k => (-1) * - (2 * cc k * q k / (1 + alpha * q k) ^ 3))).
    + rewrite rsum_scal. ring.
    + intros k Hk. rewrite (Htwo k Hk). field. apply Hne. exact Hk.
Qed.

Lemma quad_trust_region_deriv_correct_witness :
  derivable_pt_lim
    (fun a => quad_trust_region 1 a (fun _ => 1) (fun _ => 2) (fun _ => 1) 4)
    0
    (quad_trust_region_deriv 1 0 (fun _ => 1) (fun _ => 2) (fun _ => 1) 4).
Proof.
  apply (quad_trust_region_deriv_correct 1 0 (fun _ => 1) (fun _ => 2)
           (fun _ => 1) 4).
  - intros k _. lra.
  - intros k _. lra.
Defined.

(** ** The value of [rho_max] *)

Lemma rmax_attained (n : nat) (f : nat -> R) :
  exists i, (i <= n)%nat /\ rmax n f = f i.
Proof.
  induction n as [|n [i [Hi IH]]]; cbn [rmax].
  - exists 0%nat. split; [lia|reflexivity].
  - destruct (Rle_dec (rmax n f) (f (S n))) as [Hle|Hgt].
    + exists (S n). split; [lia|]. apply Rmax_right. exact Hle.
    + exists i. split; [lia|]. rewrite Rmax_left by lra. exact IH.
Qed.

(** [rho_max] raises on an empty stack (no variable) and nowhere else; its
    value is not negative, bounds the group norm (over the tasks) of every
    off-diagonal entry of the weighted covariances, and is zero or the
    group norm of one of these entries. *)
Theorem rho_max_spec (n_var n_tasks : nat) (emp_covs : stack)
    (n_samples : vec) :
  let norm i j :=
    sqrt (rsum n_tasks (fun k => (emp_covs i j k * n_samples k) ^ 2)) in
  match rho_max n_var n_tasks emp_covs n_samples with
  | None => n_var = O
  | Some r =>
      (0 < n_var)%nat /\ 0 <= r /\
      (forall i j, (i < n_var)%nat -> (j < n_var)%nat -> i <> j ->
         norm i j <= r) /\
      (r = 0 \/
       exists i j, (i < n_var)%nat /\ (j < n_var)%nat /\ i <> j /\
                   r = norm i j)
  end.
Proof.
  intros norm.
  destruct (rho_max n_var n_tasks emp_covs n_samples) as [r|] eqn:Hr.
  - assert (Hpos : (0 < n_var)%nat).
    { destruct n_var; [discriminate|lia]. }
    assert (Hdiag : forall i,
              group_norm n_tasks
                (fun i j k => (if (i =? j)%nat then 0 else emp_covs i j k)
                              * n_samples k) i i = 0).
    { intros i. unfold group_norm. rewrite Nat.eqb_refl.
      rewrite (rsum_ext n_tasks _ (fun _ => 0)) by (intros; ring).
      rewrite rsum_zero. apply sqrt_0. }
    split; [exact Hpos|]. split.
    { rewrite <- (Hdiag 0%nat).
      apply (matrix_max_upper n_var _ r 0 0 Hr); exact Hpos. }
    split.
    { intros i j Hi Hj Hne.
      apply (rho_max_upper n_var n_tasks emp_covs n_samples r i j Hr Hi Hj
               Hne). }
    unfold rho_max, matrix_max in Hr.
    destruct n_var as [|m]; [lia|]. injection Hr as Hr.
    destruct (rmax_attained m
                (fun i => rmax m (fun j =>
                   group_norm n_tasks
                     (fun i j k =>
                        (if (i =? j)%nat then 0 else emp_covs i j k)
                        * n_samples k) i j)))
      as (i & Hi & Hrow).
    destruct (rmax_attained m
                (fun j =>
                   group_norm n_tasks
                     (fun i j k =>
                        (if (i =? j)%nat then 0 else emp_covs i j k)
                        * n_samples k) i j))
      as (j & Hj & Hcol).
    rewrite Hrow, Hcol in Hr.
    destruct (Nat.eq_dec i j) as [->|Hne].
    + left. rewrite <- Hr. apply Hdiag.
    + right. exists i, j. split; [lia|]. split; [lia|].
      split; [exact Hne|]. rewrite <- Hr. unfold group_norm, norm.
      destruct (Nat.eqb_spec i j) as [E|_]; [contradiction|]. reflexivity.
  - unfold rho_max, matrix_max in Hr.
    destruct n_var; [reflexivity|discriminate].
Qed.

(** ** The dual point of the cost evaluator *)

Lemma group_norm_scaled (n_tasks : nat) (A : stack) (i j : nat) (rho : R) :
  0 <= rho -> group_norm n_tasks A i j > rho ->
  sqrt (rsum n_tasks
          (fun k => (A i j k * (rho / group_norm n_tasks A i j)) ^ 2))
  = rho.
Proof.
  intros Hrho Hgt. set (r := group_norm n_tasks A i j) in *.
  assert (Hsum : 0 <= rsum n_tasks (fun k => A i j k ^ 2)).
  { apply rsum_nonneg. intros k _. apply pow2_ge_0. }
  assert (Hr2 : r * r = rsum n_tasks (fun k => A i j k ^ 2)).
  { unfold r, group_norm. apply sqrt_sqrt. exact Hsum. }
  rewrite (rsum_ext n_tasks _
             (fun k => (rho / r) ^ 2 * A i j k ^ 2)) by (intros; ring).
  rewrite rsum_scal, <- Hr2.
  replace ((rho / r) ^ 2 * (r * r)) with (rho * rho) by (field; lra).
  apply sqrt_square. exact Hrho.
Qed.

(** The dual point at which the cost evaluator computes the gap is feasible:
    after the projection every diagonal entry is zero and the group norm
    (over the tasks) of every off-diagonal entry is at most [rho]; the
    entries whose group norm was at most [rho] already are unchanged. *)
Theorem dual_point_is_feasible {L : Library} (n_tasks n_var : nat)
    (n_samples : vec) (rho : R) (omega emp_covs A : stack) :
  0 <= rho ->
  dual_point n_var n_samples omega emp_covs n_tasks (fun _ _ _ => 0)
  = Return A ->
  let B := project_dual n_tasks rho A in
  (exists cost,
     group_sparse_covariance_costs n_tasks n_var n_samples rho omega emp_covs
     = Return (cost, cost - dual_cost n_tasks n_var n_samples emp_covs B)) /\
  (forall i k, B i i k = 0) /\
  (forall i j, i <> j -> group_norm n_tasks B i j <= rho) /\
  (forall i j, i <> j -> group_norm n_tasks A i j <= rho ->
     forall k, B i j k = A i j k).
Proof.
  intros Hrho HA B. split.
  { unfold group_sparse_covariance_costs. rewrite HA.
    eexists. reflexivity. }
  split.
  { intros i k. unfold B, project_dual. rewrite Nat.eqb_refl. reflexivity. }
  split.
  - intros i j Hne. unfold group_norm at 1. unfold B, project_dual.
    destruct (Nat.eqb_spec i j) as [E|_]; [contradiction|].
    destruct (Rgt_dec (group_norm n_tasks A i j) rho) as [Hgt|Hle].
    + rewrite group_norm_scaled by assumption. lra.
    + unfold group_norm in Hle. lra.
  - intros i j Hne Hle k. unfold B, project_dual.
    destruct (Nat.eqb_spec i j) as [E|_]; [contradiction|].
    destruct (Rgt_dec (group_norm n_tasks A i j) rho) as [Hgt|_];
      [lra|reflexivity].
Qed.

Lemma det_eye_2 : det 2 (slice (stack_of eye) 0) = 1.
Proof.
  cbn [det rsum pow]. unfold slice, stack_of, eye, skip.
  cbn [Nat.eqb Nat.ltb Nat.leb]. ring.
Qed.

Lemma dual_point_unit :
  exists A,
    dual_point (L := exact_library) 2 ones (stack_of eye) (stack_of eye) 1
      (fun _ _ _ => 0) = Return A.
Proof.
  cbn [dual_point linalg_inv exact_library]. unfold cofactor_inv.
  rewrite det_eye_2.
  destruct (Req_dec_T 1 0) as [E|_]; [exfalso; lra|].
  cbn [is_spd exact_library].
  match goal with
  | |- context [spd_test 2 ?B] => assert (Hspd : spd_test 2 B = true)
  end.
  { unfold spd_test.
    cbn [seq forallb andb det rsum pow Nat.add Nat.sub].
    unfold slice, stack_of, eye, skip.
    cbn [Nat.eqb Nat.ltb Nat.leb].
    repeat match goal with
    | |- context [Req_dec_T ?a ?b] =>
        destruct (Req_dec_T a b) as [_|Hn];
        [|exfalso; apply Hn; field]
    end.
    repeat match goal with
    | |- context [Rlt_dec 0 ?a] =>
        destruct (Rlt_dec 0 a) as [_|Hn];
        [|exfalso; apply Hn; lra]
    end.
    reflexivity. }
  rewrite Hspd. eexists. reflexivity.
Qed.

Lemma dual_point_is_feasible_witness :
  exists A,
    dual_point (L := exact_library) 2 ones (stack_of eye) (stack_of eye) 1
      (fun _ _ _ => 0) = Return A /\
    forall i j, i <> j -> group_norm 1 (project_dual 1 1 A) i j <= 1.
Proof.
  destruct dual_point_unit as [A HA]. exists A. split; [exact HA|].
  destruct (dual_point_is_feasible (L := exact_library) 1 2 ones 1
              (stack_of eye) (stack_of eye) A Rle_0_1 HA)
    as (_ & _ & Hnorm & _).
  exact Hnorm.
Defined.

(** ** The selection of the best entry of the path *)

Lemma float_ge_refl (a : pyfloat) : a <> FNaN -> float_ge a a = true.
Proof.
  destruct a as [x| | |]; intros H; try reflexivity; [|contradiction].
  cbn. destruct (Rle_dec x x) as [_|Hn]; [reflexivity|].
  exfalso. apply Hn. lra.
Qed.

Lemma float_ge_not_nan (a b : pyfloat) :
  float_ge a b = true -> a <> FNaN /\ b <> FNaN.
Proof. destruct a, b; cbn; intros H; split; congruence. Qed.

Lemma float_ge_trans (a b c : pyfloat) :
  float_ge a b = true -> float_ge b c = true -> float_ge a c = true.
Proof.
  destruct a as [x| | |], b as [y| | |], c as [z| | |]; cbn;
    try congruence; try reflexivity.
  destruct (Rle_dec y x), (Rle_dec z y), (Rle_dec z x);
    try congruence; try reflexivity.
  intros _ _. exfalso. lra.
Qed.

Lemma float_ge_total (a b : pyfloat) :
  a <> FNaN -> b <> FNaN -> float_ge a b = false -> float_ge b a = true.
Proof.
  destruct a as [x| | |], b as [y| | |]; cbn; try congruence;
    try reflexivity.
  intros _ _. destruct (Rle_dec y x), (Rle_dec x y);
    try congruence; try reflexivity.
  intros _. exfalso. lra.
Qed.

Lemma float_ge_neg_inf (a : pyfloat) :
  a <> FNaN -> float_ge a FNegInf = true.
Proof. destruct a; cbn; congruence. Qed.

Lemma clip_score_finite (sc : pyfloat) :
  isfinite (clip_score sc) = true <->
  exists x, sc = FNum x /\ x < score_limit.
Proof.
  unfold clip_score. destruct sc as [x| | |]; cbn.
  - destruct (Rle_dec score_limit x) as [Hle|Hgt]; cbn.
    + split; [discriminate|]. intros (y & [= <-] & Hy). lra.
    + split; [|reflexivity]. intros _. exists x. split; [reflexivity|lra].
  - split; [discriminate|]. intros (y & Hy & _). discriminate.
  - split; [discriminate|]. intros (y & Hy & _). discriminate.
  - split; [discriminate|]. intros (y & Hy & _). discriminate.
Qed.

Section Selection.
Variable previous : option nat.

(** What the loop has established once the entries [pre] are behind it. *)
Let selected (pre : list (R * pyfloat)) (s : selection) : Prop :=
  best_score s <> FNaN /\
  (forall i rho sc, nth_error pre i = Some (rho, sc) ->
     clip_score sc = FNaN \/ float_ge (best_score s) (clip_score sc) = true) /\
  (forall i rho sc, nth_error pre i = Some (rho, sc) ->
     isfinite (clip_score sc) = true -> (i <= last_finite_idx s)%nat) /\
  ((last_finite_idx s = O /\
    forall i rho sc, nth_error pre i = Some (rho, sc) ->
      isfinite (clip_score sc) = true -> i = O) \/
   exists rho sc, nth_error pre (last_finite_idx s) = Some (rho, sc) /\
                  isfinite (clip_score sc) = true) /\
  ((best_index s = previous /\ best_score s = FNegInf /\
    forall i rho sc, nth_error pre i = Some (rho, sc) ->
      clip_score sc = FNaN) \/
   exists b rho sc,
     best_index s = Some b /\ nth_error pre b = Some (rho, sc) /\
     best_score s = clip_score sc /\
     forall i rho' sc', (b < i)%nat -> nth_error pre i = Some (rho', sc') ->
       float_ge (clip_score sc') (clip_score sc) = false).

Lemma selected_initial :
  selected nil
    {| best_score := FNegInf; last_finite_idx := O; best_index := previous |}.
Proof.
  unfold selected. cbn.
  split; [discriminate|].
  split; [intros [|i] rho sc H; discriminate|].
  split; [intros [|i] rho sc H; discriminate|].
  split.
  - left. split; [reflexivity|]. intros [|i] rho sc H; discriminate.
  - left. split; [reflexivity|]. split; [reflexivity|].
    intros [|i] rho sc H; discriminate.
Qed.

Lemma nth_error_snoc {A : Type} (pre : list A) (x : A) (i : nat) (y : A) :
  nth_error (pre ++ x :: nil) i = Some y ->
  ((i < length pre)%nat /\ nth_error pre i = Some y) \/
  (i = length pre /\ y = x).
Proof.
  intros H. destruct (Nat.lt_ge_cases i (length pre)) as [Hlt|Hge].
  - left. split; [exact Hlt|]. rewrite nth_error_app1 in H; assumption.
  - right. rewrite nth_error_app2 in H by exact Hge.
    destruct (i - length pre)%nat as [|[|k]] eqn:E; cbn in H;
      try discriminate.
    split; [lia|congruence].
Qed.

Lemma selected_step (pre : list (R * pyfloat)) (rho : R) (sc : pyfloat)
    (s : selection) :
  selected pre s ->
  selected (pre ++ (rho, sc) :: nil) (select_step (length pre) sc s).
Proof.
  intros (Hnan & Hmax & Hlast & Hfin & Hbest).
  assert (Hhere : nth_error (pre ++ (rho, sc) :: nil) (length pre)
                  = Some (rho, sc)).
  { rewrite nth_error_app2 by lia. rewrite Nat.sub_diag. reflexivity. }
  assert (Hold : forall i r c, nth_error pre i = Some (r, c) ->
                   (i < length pre)%nat).
  { intros i r c H. apply nth_error_Some. rewrite H. discriminate. }
  unfold selected, select_step. cbn zeta.
  assert (Hlf :
    let lf := if isfinite (clip_score sc) then length pre
              else last_finite_idx s in
    (forall i r c, nth_error (pre ++ (rho, sc) :: nil) i = Some (r, c) ->
       isfinite (clip_score c) = true -> (i <= lf)%nat) /\
    ((lf = O /\
      forall i r c, nth_error (pre ++ (rho, sc) :: nil) i = Some (r, c) ->
        isfinite (clip_score c) = true -> i = O) \/
     exists r c, nth_error (pre ++ (rho, sc) :: nil) lf = Some (r, c) /\
                 isfinite (clip_score c) = true)).
  { cbn zeta. destruct (isfinite (clip_score sc)) eqn:Hf.
    - split.
      + intros i r c H _. apply nth_error_snoc in H as [[Hi _]|[-> _]]; lia.
      + right. exists rho, sc. split; [exact Hhere|exact Hf].
    - split.
      + intros i r c H Hc. apply nth_error_snoc in H as [[_ H]|[_ [= -> ->]]].
        * apply (Hlast i r c H Hc).
        * congruence.
      + destruct Hfin as [[H0 Hnone]|(r & c & Hr & Hc)].
        * left. split; [exact H0|]. intros i r c H Hc.
          apply nth_error_snoc in H as [[_ H]|[_ [= -> ->]]].
          -- apply (Hnone i r c H Hc).
          -- congruence.
        * right. exists r, c. split; [|exact Hc].
          rewrite nth_error_app1; [exact Hr|]. apply (Hold _ r c Hr). }
  cbn zeta in Hlf. destruct Hlf as [Hlast' Hfin'].
  destruct (float_ge (clip_score sc) (best_score s)) eqn:Hge; cbn.
  - destruct (float_ge_not_nan _ _ Hge) as [Hsc _].
    split; [exact Hsc|].
    split.
    { intros i r c H. apply nth_error_snoc in H as [[_ H]|[_ [= -> ->]]].
      - destruct (Hmax i r c H) as [Hn|Hle]; [left; exact Hn|].
        right. apply (float_ge_trans _ _ _ Hge Hle).
      - right. apply float_ge_refl. exact Hsc. }
    split; [exact Hlast'|]. split; [exact Hfin'|].
    right. exists (length pre), rho, sc.
    split; [reflexivity|]. split; [exact Hhere|]. split; [reflexivity|].
    intros i r c Hi H. apply nth_error_snoc in H as [[Hlt _]|[-> _]]; lia.
  - split; [exact Hnan|].
    split.
    { intros i r c H. apply nth_error_snoc in H as [[_ H]|[_ [= -> ->]]].
      - apply (Hmax i r c H).
      - destruct (clip_score sc) as [x| | |] eqn:Hc; try (left; reflexivity);
          right; apply float_ge_total; try assumption; discriminate. }
    split; [exact Hlast'|]. split; [exact Hfin'|].
    destruct Hbest as [(Hprev & Hinf & Hall)|(b & r & c & Hb & Hnth & Hsc & Hlater)].
    + left. split; [exact Hprev|]. split; [exact Hinf|].
      intros i r c H. apply nth_error_snoc in H as [[_ H]|[_ [= -> ->]]].
      * apply (Hall i r c H).
      * rewrite Hinf in Hge.
        destruct (clip_score sc) eqn:Hc; try reflexivity;
          rewrite float_ge_neg_inf in Hge by discriminate; discriminate.
    + right. exists b, r, c. split; [exact Hb|].
      split; [rewrite nth_error_app1; [exact Hnth|apply (Hold _ r c Hnth)]|].
      split; [exact Hsc|].
      intros i r' c' Hi H. apply nth_error_snoc in H as [[_ H]|[_ [= -> ->]]].
      * apply (Hlater i r' c' Hi H).
      * rewrite <- Hsc. exact Hge.
Qed.

Lemma selected_loop (rest pre : list (R * pyfloat)) (s : selection) :
  selected pre s ->
  selected (pre ++ rest) (select_loop (length pre) rest s).
Proof.
  revert pre s. induction rest as [|[rho sc] rest IH]; intros pre s H.
  - rewrite app_nil_r. exact H.
  - cbn [select_loop].
    replace (pre ++ (rho, sc) :: rest)
      with ((pre ++ (rho, sc) :: nil) ++ rest)
      by (rewrite <- app_assoc; reflexivity).
    replace (S (length pre)) with (length (pre ++ (rho, sc) :: nil))
      by (rewrite length_app; cbn; lia).
    apply IH. apply selected_step. exact H.
Qed.

Lemma select_best_selected (path : list (R * pyfloat)) :
  selected path (select_best path previous).
Proof.
  apply (selected_loop path nil). apply selected_initial.
Qed.
End Selection.

(** The entry selected on the sorted path (first round, [best_index] not
    bound before): its score, once the scores of at least
    [.1 / np.finfo(np.float).eps] are replaced by NaN, is not a NaN, is at
    least every other score that is not a NaN, and every entry behind it
    (a smaller [rho]) has a smaller score or a NaN; [best_index] stays
    unbound exactly when every score is a NaN after the replacement;
    [last_finite_idx] is the index of the last finite score. *)
Theorem select_best_spec (path : list (R * pyfloat)) :
  let s := select_best path None in
  match best_index s with
  | None =>
      forall i rho sc, nth_error path i = Some (rho, sc) ->
        clip_score sc = FNaN
  | Some b =>
      exists rho sc,
        nth_error path b = Some (rho, sc) /\
        clip_score sc <> FNaN /\
        best_score s = clip_score sc /\
        (forall i rho' sc', nth_error path i = Some (rho', sc') ->
           clip_score sc' = FNaN \/
           float_ge (clip_score sc) (clip_score sc') = true) /\
        (forall i rho' sc', (b < i)%nat ->
           nth_error path i = Some (rho', sc') ->
           float_ge (clip_score sc') (clip_score sc) = false)
  end /\
  (forall i rho sc, nth_error path i = Some (rho, sc) ->
     isfinite (clip_score sc) = true -> (i <= last_finite_idx s)%nat) /\
  ((exists i rho sc, nth_error path i = Some (rho, sc) /\
                     isfinite (clip_score sc) = true) ->
   exists rho sc, nth_error path (last_finite_idx s) = Some (rho, sc) /\
                  isfinite (clip_score sc) = true).
Proof.
  intros s.
  pose proof (select_best_selected None path) as H. cbv zeta beta in H.
  fold s in H. destruct H as (Hnan & Hmax & Hlast & Hfin & Hbest).
  split; [|split; [exact Hlast|]].
  - destruct Hbest as [(Hprev & _ & Hall)|(b & r & c & Hb & Hnth & Hsc & Hlater)].
    + rewrite Hprev. exact Hall.
    + rewrite Hb. exists r, c. split; [exact Hnth|].
      split; [rewrite <- Hsc; exact Hnan|]. split; [exact Hsc|].
      split; [|exact Hlater].
      intros i r' c' Hi. rewrite <- Hsc. apply (Hmax i r' c' Hi).
  - intros (i & r & c & Hi & Hc).
    destruct Hfin as [[H0 Hnone]|Hex]; [|exact Hex].
    rewrite H0. rewrite (Hnone i r c Hi Hc) in Hi.
    exists r, c. split; assumption.
Qed.

(** ** The next bracket *)

Lemma path_rho_inside (path : list (R * pyfloat)) (i : nat) :
  (i < length path)%nat ->
  exists rho sc, nth_error path i = Some (rho, sc) /\
                 path_rho path i = inr rho.
Proof.
  intros Hi. unfold path_rho.
  destruct (nth_error path i) as [[rho sc]|] eqn:E.
  - exists rho, sc. split; reflexivity.
  - apply nth_error_None in E. lia.
Qed.

Lemma path_rho_outside (path : list (R * pyfloat)) (i : nat) :
  (length path <= i)%nat -> path_rho path i = inl IndexError_path.
Proof.
  intros Hi. unfold path_rho.
  apply nth_error_None in Hi. rewrite Hi. reflexivity.
Qed.

(** The choice of the bracket after the first round.  It reads an unbound
    [best_index] exactly when every score is a NaN (or the path is empty);
    it indexes past the end exactly when the path has a single entry, whose
    score is not a NaN; otherwise it returns, and on a path sorted by
    decreasing [rho] the bracket encloses the selected [rho] when this one
    is not negative. *)
Theorem refine_grid_spec (path : list (R * pyfloat)) :
  let s := select_best path None in
  match refine_grid path s with
  | inl UnboundLocalError_best_index =>
      forall i rho sc, nth_error path i = Some (rho, sc) ->
        clip_score sc = FNaN
  | inl IndexError_path =>
      exists rho sc, path = (rho, sc) :: nil /\ clip_score sc <> FNaN
  | inr (rho_1, rho_0) =>
      (2 <= length path)%nat /\
      exists b rho sc,
        best_index s = Some b /\ nth_error path b = Some (rho, sc) /\
        ((forall i j ri rj si sj, (i <= j)%nat ->
            nth_error path i = Some (ri, si) ->
            nth_error path j = Some (rj, sj) -> rj <= ri) ->
         0 <= rho -> rho_0 <= rho <= rho_1)
  end.
Proof.
  intros s.
  pose proof (select_best_selected None path) as H. cbv zeta beta in H.
  fold s in H. destruct H as (Hnan & _ & _ & _ & Hbest).
  unfold refine_grid.
  destruct Hbest as [(Hprev & _ & Hall)|(b & rho & sc & Hb & Hnth & Hscore & _)];
    [rewrite Hprev; exact Hall|].
  rewrite Hb.
  assert (Hsc : clip_score sc <> FNaN) by (rewrite <- Hscore; exact Hnan).
  assert (Hlen : (b < length path)%nat).
  { apply nth_error_Some. rewrite Hnth. discriminate. }
  assert (Hrho : path_rho path b = inr rho).
  { unfold path_rho. rewrite Hnth. reflexivity. }
  destruct (Nat.eqb_spec b 0) as [->|Hb0].
  { rewrite Hrho.
    destruct (Nat.le_gt_cases (length path) 1) as [Hone|Hmore].
    - rewrite path_rho_outside by exact Hone.
      destruct path as [|[r c] [|x rest]]; cbn in Hlen, Hone; try lia.
      cbn in Hnth. injection Hnth as -> ->.
      exists rho, sc. split; [reflexivity|exact Hsc].
    - destruct (path_rho_inside path 1 Hmore) as (r0 & c0 & Hn0 & ->).
      split; [lia|]. exists 0%nat, rho, sc.
      split; [reflexivity|]. split; [exact Hnth|].
      intros Hsorted _. split; [|lra].
      apply (Hsorted 0%nat 1%nat rho r0 sc c0); [lia|assumption..]. }
  destruct ((b =? last_finite_idx s)%nat
            && negb (S b =? length path)%nat) eqn:Hcase.
  { apply andb_true_iff in Hcase as [_ Hnot].
    apply negb_true_iff in Hnot. apply Nat.eqb_neq in Hnot.
    rewrite Hrho.
    destruct (path_rho_inside path (b + 1)) as (r0 & c0 & Hn0 & ->); [lia|].
    split; [lia|]. exists b, rho, sc.
    split; [reflexivity|]. split; [exact Hnth|].
    intros Hsorted _. split; [|lra].
    apply (Hsorted b (b + 1)%nat rho r0 sc c0); [lia|assumption..]. }
  destruct (Nat.eqb_spec (S b) (length path)) as [Hend|Hnot].
  { rewrite Hrho. split; [lia|]. exists b, rho, sc.
    split; [reflexivity|]. split; [exact Hnth|].
    intros _ Hpos. lra. }
  destruct (path_rho_inside path (b - 1)) as (r1 & c1 & Hn1 & ->); [lia|].
  destruct (path_rho_inside path (b + 1)) as (r0 & c0 & Hn0 & ->); [lia|].
  split; [lia|]. exists b, rho, sc.
  split; [reflexivity|]. split; [exact Hnth|].
  intros Hsorted _. split.
  - apply (Hsorted b (b + 1)%nat rho r0 sc c0); [lia|assumption..].
  - apply (Hsorted (b - 1)%nat b r1 rho c1 sc); [lia|assumption..].
Qed.

(** ** The path over the penalties *)

Section PathFacts.
Context {L : Library} {K : Likelihood}.
Variables (train_tasks : tasks_arg) (n_train : nat) (n_samples : vec).
Variables (test_covs : positive) (max_iter : nat) (ac : bool).

Let loop := path_loop train_tasks n_train n_samples test_covs max_iter ac.
Let step := path_step train_tasks n_train n_samples test_covs max_iter ac.

Lemma path_loop_app (l1 l2 : list pyval) (st : path_state) :
  loop (l1 ++ l2) st
  = match loop l1 st with
    | (st', Some stop) => (st', Some stop)
    | (st', None) => loop l2 st'
    end.
Proof.
  revert st. induction l1 as [|rho l1 IH]; intros st; [reflexivity|].
  unfold loop in *. cbn [app path_loop].
  destruct (path_step _ _ _ _ _ _ rho st) as [st' [stop|]]; [reflexivity|].
  apply IH.
Qed.

Lemma path_loop_scores (l : list pyval) (st st' : path_state) :
  loop l st = (st', None) ->
  exists new, ps_scores st' = (ps_scores st ++ new)%list /\
              length new = length l.
Proof.
  revert st. induction l as [|rho l IH]; intros st; unfold loop in *;
    cbn [path_loop].
  - intros [= <-]. exists nil. split; [rewrite app_nil_r|]; reflexivity.
  - destruct (path_step _ _ _ _ _ _ rho st) as [st1 [stop|]] eqn:Hstep;
      [discriminate|].
    intros Hrest. destruct (IH st1 Hrest) as (new & Hnew & Hlen).
    unfold path_step in Hstep.
    destruct (out _) as [emp precisions costs|e| |]; try discriminate.
    destruct (task_score _ _ _ _ _ _) as [e|scores]; [discriminate|].
    injection Hstep as <-. cbn [ps_scores] in Hnew.
    exists (fold_left Rplus scores 0 :: new). split.
    + rewrite Hnew, <- app_assoc. reflexivity.
    + cbn. rewrite Hlen. reflexivity.
Qed.

(** The arrays of the store before a step are the same after it. *)
Lemma path_step_frame (rho : pyval) (st : path_state) (a : positive) :
  a ∈ dom (ps_heap st) ->
  ps_heap (fst (step rho st)) !! a = ps_heap st !! a.
Proof.
  intros Ha. unfold step, path_step.
  set (r := group_sparse_covariance _ _ _ _ _ _ _ _).
  assert (Hr : final_heap r !! a = ps_heap st !! a).
  { pose proof (initialize_frame (ps_heap st) train_tasks rho ac
                  (ps_init st) a Ha) as Hinit.
    destruct (call_cases (ps_heap st) train_tasks rho max_iter
                (Some (1 / 10000)) ac false (ps_init st))
      as [(h2 & e & Hi & Hcall)
         |(h2 & emp & omega & ns & nt & nv & Hi & Hcases)];
      fold r in Hcall || fold r in Hcases.
    - rewrite Hcall. cbn. rewrite Hi in Hinit. exact Hinit.
    - rewrite Hi in Hinit. cbn [fst] in Hinit.
      destruct (initialize_new _ _ _ _ _ _ _ _ _ _ _ Hi) as (_ & Ho & _).
      destruct Hcases
        as [(_ & _ & Hcall)
           |[(_ & [(_ & Hcall)|(rv & _ & _ & Hcall)])|(rv & _ & _ & Hcall)]].
      + rewrite Hcall. exact Hinit.
      + rewrite Hcall. exact Hinit.
      + rewrite Hcall. exact Hinit.
      + cbn zeta in Hcall. destruct Hcall as (Hf & _).
        rewrite Hf, optimize_frame; [exact Hinit|].
        intros ->. apply Ho. exact Ha. }
  destruct (out r) as [emp precisions costs|e| |]; cbn [fst ps_heap];
    try exact Hr.
  destruct (task_score _ _ _ _ _ _); cbn [fst ps_heap]; exact Hr.
Qed.

Lemma path_loop_frame (l : list pyval) (st : path_state) (a : positive) :
  a ∈ dom (ps_heap st) ->
  ps_heap (fst (loop l st)) !! a = ps_heap st !! a.
Proof.
  revert st. induction l as [|rho l IH]; intros st Ha; [reflexivity|].
  unfold loop in *. cbn [path_loop].
  pose proof (path_step_frame rho st a Ha) as Hstep. unfold step in Hstep.
  destruct (path_step _ _ _ _ _ _ rho st) as [st1 [stop|]];
    cbn [fst] in *; [exact Hstep|].
  rewrite IH; [exact Hstep|].
  apply elem_of_dom. rewrite Hstep. apply elem_of_dom. exact Ha.
Qed.
End PathFacts.

Lemma path_loop_stop {L : Library} {K : Likelihood} train_tasks n_train
    n_samples test_covs max_iter ac (l : list pyval)
    (st st' : path_state) (stop : path_outcome) :
  path_loop train_tasks n_train n_samples test_covs max_iter ac l st
  = (st', Some stop) ->
  forall scores, stop <> Scores scores.
Proof.
  revert st. induction l as [|rho l IH]; intros st; cbn [path_loop];
    [discriminate|].
  destruct (path_step _ _ _ _ _ _ rho st) as [st1 [stop1|]] eqn:Hstep.
  - intros [= <- <-]. unfold path_step in Hstep.
    destruct (out _) as [emp precisions costs|e| |].
    + destruct (task_score _ _ _ _ _ _) as [e|scores]; [|discriminate].
      injection Hstep as _ <-. discriminate.
    + injection Hstep as _ <-. discriminate.
    + injection Hstep as _ <-. discriminate.
    + injection Hstep as _ <-. discriminate.
  - apply IH.
Qed.

(** The scores are aligned with [rhos], and the score of a penalty depends
    only on the penalties behind it in [rhos]: the path over [pre ++ suf]
    ends its result with the scores of the path over [suf], and an
    exception of the path over [suf] is the exception of the longer path
    (the loop runs over [reversed(rhos)], each run warm-started by the run
    before). *)
Theorem path_scores_by_suffix {L : Library} {K : Likelihood}
    (h : gmap positive ndarray) (train_tasks test_tasks : tasks_arg)
    (pre suf : list pyval) (max_iter : nat) (ac : bool) :
  let whole := snd (group_sparse_covariance_path h train_tasks test_tasks
                      (pre ++ suf) max_iter ac) in
  let tail := snd (group_sparse_covariance_path h train_tasks test_tasks
                     suf max_iter ac) in
  match tail with
  | Scores ts =>
      forall ws, whole = Scores ws ->
        exists ps, ws = (ps ++ ts)%list /\ length ps = length pre
  | stop => whole = stop
  end /\
  (forall ws, whole = Scores ws -> length ws = length (pre ++ suf)).
Proof.
  intros whole tail. unfold whole, tail, group_sparse_covariance_path.
  destruct (empirical_covariances h test_tasks ac)
    as [h1 [[[[tc ns] nt] nv]|e]]; cbn [snd];
    [|split; [reflexivity|discriminate]].
  destruct train_tasks as [l|]; cbn [snd];
    [|split; [reflexivity|discriminate]].
  set (n_samples := normalize (length l) (sample_counts h1 l)).
  set (st0 := {| ps_heap := h1; ps_init := None; ps_scores := nil |}).
  split.
  - rewrite rev_app_distr, path_loop_app.
    destruct (path_loop _ _ _ _ _ _ (rev suf) st0) as [st1 [stop|]] eqn:E1;
      cbn [snd].
    + pose proof (path_loop_stop _ _ _ _ _ _ _ _ _ _ E1) as Hstop.
      destruct stop as [ts| |]; [|reflexivity..].
      exfalso. apply (Hstop ts). reflexivity.
    + destruct (path_loop _ _ _ _ _ _ (rev pre) st1) as [st2 [stop|]] eqn:E2;
        cbn [snd].
      * pose proof (path_loop_stop _ _ _ _ _ _ _ _ _ _ E2) as Hstop.
        intros ws ->. exfalso. apply (Hstop ws). reflexivity.
      * intros ws [= <-].
        destruct (path_loop_scores _ _ _ _ _ _ _ _ _ E2)
          as (new & Hnew & Hlen).
        exists (rev new). split.
        -- rewrite Hnew, rev_app_distr. reflexivity.
        -- rewrite length_rev, Hlen, length_rev. reflexivity.
  - destruct (path_loop _ _ _ _ _ _ (rev (pre ++ suf)) st0)
      as [st1 [stop|]] eqn:E; cbn [snd].
    + pose proof (path_loop_stop _ _ _ _ _ _ _ _ _ _ E) as Hstop.
      intros ws ->. exfalso. apply (Hstop ws). reflexivity.
    + intros ws [= <-].
      destruct (path_loop_scores _ _ _ _ _ _ _ _ _ E)
        as (new & Hnew & Hlen).
      rewrite Hnew. cbn [ps_scores st0 app].
      rewrite length_rev, Hlen, length_rev. reflexivity.
Qed.

(** The path leaves every array of the caller's store as it was, the
    training and the test tasks among them: the runs of the solver are
    chained through the stacks they return, which are new objects. *)
Theorem path_leaves_store {L : Library} {K : Likelihood}
    (h : gmap positive ndarray) (train_tasks test_tasks : tasks_arg)
    (rhos : list pyval) (max_iter : nat) (ac : bool) (a : positive) :
  a ∈ dom h ->
  fst (group_sparse_covariance_path h train_tasks test_tasks rhos max_iter
         ac) !! a
  = h !! a.
Proof.
  intros Ha. unfold group_sparse_covariance_path.
  pose proof (empirical_covariances_frame h test_tasks ac a Ha) as Hf.
  destruct (empirical_covariances h test_tasks ac)
    as [h1 [[[[tc ns] nt] nv]|e]]; cbn [fst] in *; [|exact Hf].
  destruct train_tasks as [l|]; cbn [fst]; [|exact Hf].
  assert (Ha1 : a ∈ dom h1).
  { apply elem_of_dom. rewrite Hf. apply elem_of_dom. exact Ha. }
  pose proof (path_loop_frame (TaskSeq l) (length l)
                (normalize (length l) (sample_counts h1 l)) tc max_iter ac
                (rev rhos)
                {| ps_heap := h1; ps_init := None; ps_scores := nil |}
                a Ha1) as Hloop.
  cbn [ps_heap] in Hloop.
  destruct (path_loop _ _ _ _ _ _ _ _) as [st [stop|]]; cbn [fst] in *;
    rewrite Hloop; exact Hf.
Qed.


Lemma path_leaves_store_witness :
  fst (group_sparse_covariance_path (L := exact_library)
         (K := exact_likelihood) demo_heap (TaskSeq demo_tasks)
         (TaskSeq demo_tasks) (PyInt 10 :: PyInt 1 :: nil) 1 true)
    !! 1%positive
  = demo_heap !! 1%positive.
Proof.
  apply (path_leaves_store (L := exact_library) (K := exact_likelihood)
           demo_heap (TaskSeq demo_tasks) (TaskSeq demo_tasks)
           (PyInt 10 :: PyInt 1 :: nil) 1 true 1%positive).
  apply demo_tasks_stored. left.
Defined.

(** ** The duality gap at the fully sparse point *)

Lemma dual_point_spec {L : Library} (n_var : nat) (n_samples : vec)
    (omega emp_covs : stack) (n_k : nat) (A0 A : stack) :
  dual_point n_var n_samples omega emp_covs n_k A0 = Return A ->
  forall k, (k < n_k)%nat ->
    exists B, linalg_inv n_var (slice omega k) = Some B /\
              forall i j, A i j k = n_samples k * (B i j - emp_covs i j k).
Proof.
  revert A. induction n_k as [|n IH]; intros A Hret k Hk; [lia|].
  cbn [dual_point] in Hret.
  destruct (dual_point n_var n_samples omega emp_covs n A0) as [A'|e]
    eqn:Hrec; [|discriminate].
  destruct (linalg_inv n_var (slice omega n)) as [B|] eqn:HB; [|discriminate].
  destruct (is_spd n_var B); [|discriminate].
  injection Hret as <-.
  destruct (Nat.eq_dec k n) as [->|Hne].
  - exists B. split; [exact HB|]. intros i j. unfold set_slice.
    rewrite Nat.eqb_refl. reflexivity.
  - destruct (IH A' eq_refl k ltac:(lia)) as (B' & HB' & Hval).
    exists B'. split; [exact HB'|]. intros i j. unfold set_slice.
    destruct (Nat.eqb_spec k n); [contradiction|]. apply Hval.
Qed.

Lemma rsum_ones (n : nat) : rsum n (fun _ => 1) = INR n.
Proof.
  induction n as [|n IH]; [reflexivity|].
  cbn [rsum]. rewrite IH, S_INR. reflexivity.
Qed.

Lemma rsum_delta_l (n k : nat) (f : nat -> R) :
  (k < n)%nat ->
  rsum n (fun i => if (k =? i)%nat then f i else 0) = f k.
Proof.
  intros Hk. rewrite <- (rsum_delta n k f Hk). apply rsum_ext.
  intros i _. rewrite Nat.eqb_sym. reflexivity.
Qed.

Lemma rsum_diagonal (n : nat) (M : mat) :
  (forall i j, (i < n)%nat -> (j < n)%nat -> i <> j -> M i j = 0) ->
  rsum n (fun i => rsum n (fun j => M i j)) = rsum n (fun i => M i i).
Proof.
  intros H. apply rsum_ext. intros i Hi.
  rewrite <- (rsum_delta_l n i (fun j => M i j) Hi). apply rsum_ext.
  intros j Hj. destruct (Nat.eqb_spec i j) as [->|Hne]; [reflexivity|].
  apply H; assumption.
Qed.

Section ZeroGap.
Context {L : Library}.
Variables (n_tasks n_var : nat) (n_samples : vec) (rho r : R).
Variables (omega emp_covs : stack).

Hypothesis Hinv :
  forall k B, (k < n_tasks)%nat ->
    linalg_inv n_var (slice omega k) = Some B ->
    inverse_of n_var (slice omega k) B.
Hypothesis Hlog :
  forall k B, (k < n_tasks)%nat ->
    inverse_of n_var (slice omega k) B ->
    fast_logdet n_var B = - fast_logdet n_var (slice omega k).
Hypothesis Hdiag :
  forall i j k, (i < n_var)%nat -> (j < n_var)%nat -> (k < n_tasks)%nat ->
    omega i j k = if (i =? j)%nat then 1 / emp_covs i i k else 0.
Hypothesis Hvar :
  forall i k, (i < n_var)%nat -> (k < n_tasks)%nat -> 0 < emp_covs i i k.
Hypothesis Hns : forall k, (k < n_tasks)%nat -> n_samples k <> 0.
Hypothesis Hmax : rho_max n_var n_tasks emp_covs n_samples = Some r.
Hypothesis Hle : r <= rho.

(** A matrix that agrees with [diag(diag(emp_covs_k))] is an inverse of
    [omega_k], and an inverse of [omega_k] agrees with it. *)
Lemma diagonal_inverse (k : nat) (B : mat) :
  (k < n_tasks)%nat ->
  (forall i j, (i < n_var)%nat -> (j < n_var)%nat ->
     B i j = if (i =? j)%nat then emp_covs i i k else 0) ->
  inverse_of n_var (slice omega k) B.
Proof.
  intros Hk HB. split; intros i j Hi Hj; unfold matmul, slice, eye.
  - rewrite (rsum_ext n_var _
               (fun l => if (i =? l)%nat then 1 / emp_covs i i k * B l j
                         else 0)).
    + rewrite (rsum_delta_l n_var i
                 (fun l => 1 / emp_covs i i k * B l j) Hi).
      rewrite (HB i j Hi Hj). pose proof (Hvar i k Hi Hk).
      destruct (i =? j)%nat; field; lra.
    + intros l Hl. rewrite (Hdiag i l k Hi Hl Hk).
      destruct (i =? l)%nat; ring.
  - rewrite (rsum_ext n_var _
               (fun l => if (i =? l)%nat then emp_covs i i k * omega l j k
                         else 0)).
    + rewrite (rsum_delta_l n_var i
                 (fun l => emp_covs i i k * omega l j k) Hi).
      rewrite (Hdiag i j k Hi Hj Hk). pose proof (Hvar i k Hi Hk).
      destruct (i =? j)%nat; field; lra.
    + intros l Hl. rewrite (HB i l Hi Hl).
      destruct (i =? l)%nat; ring.
Qed.

Lemma inverse_is_diagonal (k : nat) (B : mat) :
  (k < n_tasks)%nat ->
  inverse_of n_var (slice omega k) B ->
  forall i j, (i < n_var)%nat -> (j < n_var)%nat ->
    B i j = if (i =? j)%nat then emp_covs i i k else 0.
Proof.
  intros Hk [HAB _] i j Hi Hj. specialize (HAB i j Hi Hj).
  unfold matmul, slice, eye in HAB.
  rewrite (rsum_ext n_var _
             (fun l => if (i =? l)%nat then 1 / emp_covs i i k * B l j
                       else 0)) in HAB.
  - rewrite (rsum_delta_l n_var i
               (fun l => 1 / emp_covs i i k * B l j) Hi) in HAB.
    pose proof (Hvar i k Hi Hk) as Hpos.
    destruct (i =? j)%nat.
    + replace (B i j) with (emp_covs i i k * (1 / emp_covs i i k * B i j))
        by (field; lra).
      rewrite HAB. ring.
    + replace (B i j) with (emp_covs i i k * (1 / emp_covs i i k * B i j))
        by (field; lra).
      rewrite HAB. ring.
  - intros l Hl. rewrite (Hdiag i l k Hi Hl Hk).
    destruct (i =? l)%nat; ring.
Qed.
Lemma gap_at_diagonal (cost gap : R) :
  group_sparse_covariance_costs n_tasks n_var n_samples rho omega emp_covs
  = Return (cost, gap) ->
  gap = 0.
Proof.
  unfold group_sparse_covariance_costs.
  destruct (dual_point n_var n_samples omega emp_covs n_tasks
              (fun _ _ _ => 0)) as [A|e] eqn:HA; [|discriminate].
  intros [= <- <-].
  assert (HAval : forall i j k,
            (i < n_var)%nat -> (j < n_var)%nat -> (k < n_tasks)%nat ->
            A i j k = if (i =? j)%nat then 0
                      else - (emp_covs i j k * n_samples k)).
  { intros i j k Hi Hj Hk.
    destruct (dual_point_spec _ _ _ _ _ _ _ HA k Hk) as (B & HB & Hval).
    rewrite Hval.
    rewrite (inverse_is_diagonal k B Hk (Hinv k B Hk HB) i j Hi Hj).
    destruct (Nat.eqb_spec i j) as [->|_]; ring. }
  assert (Hnorm : forall i j, (i < n_var)%nat -> (j < n_var)%nat -> i <> j ->
            ~ group_norm n_tasks A i j > rho).
  { intros i j Hi Hj Hne.
    pose proof (rho_max_upper n_var n_tasks emp_covs n_samples r i j Hmax
                  Hi Hj Hne) as Hup.
    unfold group_norm.
    rewrite (rsum_ext n_tasks _
               (fun k => (emp_covs i j k * n_samples k) ^ 2)); [lra|].
    intros k Hk. rewrite (HAval i j k Hi Hj Hk).
    destruct (Nat.eqb_spec i j); [contradiction|]. ring. }
  assert (Hl12 :
    rsum n_var (fun i => rsum n_var (fun j => group_norm n_tasks omega i j))
    - rsum n_var (fun i => group_norm n_tasks omega i i) = 0).
  { rewrite rsum_diagonal; [ring|].
    intros i j Hi Hj Hne. unfold group_norm.
    rewrite (rsum_ext n_tasks _ (fun _ => 0)).
    - rewrite rsum_zero. apply sqrt_0.
    - intros k Hk. rewrite (Hdiag i j k Hi Hj Hk).
      destruct (Nat.eqb_spec i j); [contradiction|]. ring. }
  rewrite Hl12.
  assert (Hsp : forall k, (k < n_tasks)%nat ->
            scalar_product n_var (slice omega k) (slice emp_covs k)
            = INR n_var).
  { intros k Hk. unfold scalar_product, slice.
    rewrite <- rsum_ones. apply rsum_ext. intros i Hi.
    rewrite (rsum_ext n_var _
               (fun j => if (i =? j)%nat
                         then 1 / emp_covs i i k * emp_covs i j k else 0)).
    - rewrite (rsum_delta_l n_var i
                 (fun j => 1 / emp_covs i i k * emp_covs i j k) Hi).
      pose proof (Hvar i k Hi Hk). field. lra.
    - intros j Hj. rewrite (Hdiag i j k Hi Hj Hk).
      destruct (i =? j)%nat; ring. }
  assert (Hld : forall k, (k < n_tasks)%nat ->
            fast_logdet n_var
              (fun i j =>
                 emp_covs i j k
                 + (if (i =? j)%nat then 0
                    else if Rgt_dec (group_norm n_tasks A i j) rho
                         then A i j k * (rho / group_norm n_tasks A i j)
                         else A i j k) / n_samples k)
            = - fast_logdet n_var (slice omega k)).
  { intros k Hk. apply (Hlog k _ Hk). apply (diagonal_inverse k _ Hk).
    intros i j Hi Hj. pose proof (Hns k Hk) as Hn.
    destruct (Nat.eqb_spec i j) as [->|Hne]; [field; exact Hn|].
    destruct (Rgt_dec (group_norm n_tasks A i j) rho) as [Hgt|_].
    - exfalso. apply (Hnorm i j Hi Hj Hne). exact Hgt.
    - rewrite (HAval i j k Hi Hj Hk).
      destruct (Nat.eqb_spec i j); [contradiction|]. field. exact Hn. }
  rewrite (rsum_ext n_tasks
             (fun k => n_samples k *
                (fast_logdet n_var (slice omega k)
                 - scalar_product n_var (slice omega k) (slice emp_covs k)))
             (fun k => n_samples k *
                (fast_logdet n_var (slice omega k) - INR n_var)))
    by (intros k Hk; rewrite (Hsp k Hk); reflexivity).
  match goal with
  | |- _ - rsum n_tasks ?f = 0 =>
      rewrite (rsum_ext n_tasks f
                 (fun k => (-1) * (n_samples k *
                    (fast_logdet n_var (slice omega k) - INR n_var))))
  end.
  - rewrite rsum_scal. ring.
  - intros k Hk. cbv beta. rewrite (Hld k Hk). ring.
Qed.
End ZeroGap.

Lemma diagonal_matrix_spd (n : nat) (A : mat) (d : vec) :
  (forall i j, (i < n)%nat -> (j < n)%nat ->
     A i j = if (i =? j)%nat then d i else 0) ->
  (forall i, (i < n)%nat -> 0 < d i) ->
  spd n A.
Proof.
  intros HA Hd. split.
  - intros i j Hi Hj. rewrite (HA i j Hi Hj), (HA j i Hj Hi).
    destruct (Nat.eqb_spec i j) as [->|Hne].
    + rewrite Nat.eqb_refl. reflexivity.
    + destruct (Nat.eqb_spec j i); [congruence|reflexivity].
  - intros x (k & Hk & Hx). unfold quad_form.
    rewrite (rsum_ext n _ (fun i => x i * x i * d i)).
    + apply (rsum_pos n k).
      * intros i Hi. specialize (Hd i Hi).
        assert (0 <= x i * x i) by nra. nra.
      * exact Hk.
      * specialize (Hd k Hk). assert (0 < x k * x k) by nra. nra.
    + intros i Hi.
      rewrite (rsum_ext n _
                 (fun j => if (i =? j)%nat then x i * d i * x j else 0)).
      * rewrite (rsum_delta_l n i (fun j => x i * d i * x j) Hi). ring.
      * intros j Hj. rewrite (HA i j Hi Hj). destruct (i =? j)%nat; ring.
Qed.

(** ** One sweep at a penalty of at least [rho_max] *)

Section OneSweep.
Context {L : Library}.
Variables (omega_loc emp_loc : positive) (n_samples : vec).
Variables (n_tasks n_var : nat) (rho r : R) (h0 : gmap positive ndarray).
Hypothesis Hloc : omega_loc <> emp_loc.
Hypothesis Hinv :
  forall A B, linalg_inv n_var A = Some B -> inverse_of n_var A B.
Hypothesis Hlog :
  forall A B, spd n_var A -> inverse_of n_var A B ->
    fast_logdet n_var B = - fast_logdet n_var A.
Hypothesis Hvar :
  forall i k, (i < n_var)%nat -> (k < n_tasks)%nat ->
    0 < as_stack (h0 !!! emp_loc) i i k.
Hypothesis Hns : forall k, (k < n_tasks)%nat -> n_samples k <> 0.
Hypothesis Hmax :
  rho_max n_var n_tasks (as_stack (h0 !!! emp_loc)) n_samples = Some r.
Hypothesis Hle : r <= rho.

Let fully_sparse (s : state) : Prop :=
  shape (st_heap s !!! omega_loc) = shape (st_heap s !!! emp_loc) /\
  st_heap s !!! emp_loc = h0 !!! emp_loc /\
  (forall i j k, (i < n_var)%nat -> (j < n_var)%nat -> (k < n_tasks)%nat ->
     as_stack (st_heap s !!! omega_loc) i j k
     = if (i =? j)%nat then 1 / as_stack (h0 !!! emp_loc) i i k else 0) /\
  st_warnings s = O.

Lemma fully_sparse_gap (s : state) (objective gap : R) :
  fully_sparse s ->
  group_sparse_covariance_costs n_tasks n_var n_samples rho
    (as_stack (st_heap s !!! omega_loc)) (as_stack (st_heap s !!! emp_loc))
  = Return (objective, gap) ->
  gap = 0.
Proof.
  intros (_ & Hemp & Hval & _). rewrite Hemp.
  apply (gap_at_diagonal n_tasks n_var n_samples rho r
           (as_stack (st_heap s !!! omega_loc))
           (as_stack (h0 !!! emp_loc))).
  - intros k B _ HB. apply Hinv. exact HB.
  - intros k B Hk HB. apply Hlog; [|exact HB].
    apply (diagonal_matrix_spd n_var _
             (fun i => 1 / as_stack (h0 !!! emp_loc) i i k)).
    + intros i j Hi Hj. unfold slice. apply Hval; assumption.
    + intros i Hi. specialize (Hvar i k Hi Hk).
      apply Rdiv_lt_0_compat; lra.
  - exact Hval.
  - exact Hvar.
  - exact Hns.
  - exact Hmax.
  - exact Hle.
Qed.

Lemma fully_sparse_sweep (s : state) :
  fully_sparse s ->
  match sweep omega_loc emp_loc n_samples n_tasks n_var rho s with
  | (s', None) => fully_sparse s'
  | (_, Some e) => e = LinAlgError \/ e = AssertionError_spd
  end.
Proof.
  apply (sweep_steps omega_loc emp_loc n_samples n_tasks n_var rho
           fully_sparse (fun e => e = LinAlgError \/ e = AssertionError_spd)).
  apply (diagonal_step omega_loc emp_loc n_samples n_tasks n_var rho h0 Hloc).
  intros i j Hi Hj Hij. apply Rle_trans with r; [|exact Hle].
  apply (rho_max_upper n_var n_tasks _ n_samples r i j Hmax Hi Hj Hij).
Qed.

Lemma fully_sparse_optimize (t : R) (return_costs : bool) (rest : nat)
    (s : state) (costs : list (R * R)) (done : nat) :
  0 < t -> fully_sparse s ->
  let pr := optimize omega_loc emp_loc n_samples n_tasks n_var rho (Some t)
              return_costs (S rest) s costs done in
  pr_raised pr = None ->
  pr_sweeps pr = S done /\
  fully_sparse (pr_state pr) /\
  exists objective,
    group_sparse_covariance_costs n_tasks n_var n_samples rho
      (as_stack (st_heap (pr_state pr) !!! omega_loc))
      (as_stack (st_heap (pr_state pr) !!! emp_loc))
    = Return (objective, 0) /\
    pr_costs pr = if return_costs then (costs ++ (objective, 0) :: nil)%list
                  else costs.
Proof.
  intros Ht Hs. cbn zeta. cbn [optimize].
  pose proof (fully_sparse_sweep s Hs) as Hsweep.
  destruct (sweep omega_loc emp_loc n_samples n_tasks n_var rho s)
    as [s1 [e|]]; [cbn; discriminate|].
  rewrite (bool_decide_eq_true_2 (is_Some (Some t))) by (eexists; reflexivity).
  rewrite orb_true_r.
  destruct (group_sparse_covariance_costs _ _ _ _ _ _)
    as [[objective gap]|e] eqn:Hc; [|cbn; discriminate].
  pose proof (fully_sparse_gap s1 objective gap Hsweep Hc) as ->.
  destruct (Rlt_dec 0 t) as [_|Hn]; [|contradiction].
  cbn. intros _. split; [reflexivity|]. split; [exact Hsweep|].
  exists objective. split; [exact Hc|reflexivity].
Qed.
End OneSweep.

(** With a penalty of at least [rho_max(emp_covs, n_samples)], no warm
    start and a positive tolerance, the call converges in one sweep: the
    precision matrices stay at [diag(1 / diag(emp_covs_k))], the duality gap
    evaluated after the first sweep is exactly zero, and the loop stops
    there.  The library is taken to invert exactly and to give the inverse
    of a symmetric positive definite matrix the opposite log-determinant;
    the variances and the weights of the tasks are positive. *)
Theorem one_sweep_above_rho_max {L : Library} (h h1 : gmap positive ndarray)
    (tasks : tasks_arg) (rho : pyval) (rv r t : R) (rest : nat)
    (ac return_costs : bool) (emp : positive) (ns : vec) (nt nv : nat) :
  empirical_covariances h tasks ac = (h1, Return (emp, ns, nt, nv)) ->
  rho_real rho = Some rv ->
  rho_max nv nt (as_stack (h1 !!! emp)) ns = Some r ->
  r <= rv ->
  0 < t ->
  (forall A B, linalg_inv nv A = Some B -> inverse_of nv A B) ->
  (forall A B, spd nv A -> inverse_of nv A B ->
     fast_logdet nv B = - fast_logdet nv A) ->
  (forall i k, (i < nv)%nat -> (k < nt)%nat ->
     0 < as_stack (h1 !!! emp) i i k) ->
  (forall k, (k < nt)%nat -> ns k <> 0) ->
  let run := group_sparse_covariance h tasks rho (S rest) (Some t) ac
               return_costs None in
  forall emp' omega costs,
    out run = Returned emp' omega costs ->
    sweeps_done run = 1%nat /\
    exists objective,
      group_sparse_covariance_costs nt nv ns rv
        (as_stack (final_heap run !!! omega))
        (as_stack (final_heap run !!! emp'))
      = Return (objective, 0) /\
      costs = if return_costs then Some ((objective, 0) :: nil) else None.
Proof.
  intros Hemp Hrho Hmax Hle Ht Hinv Hlog Hvar Hns. cbn zeta.
  unfold group_sparse_covariance, initialize.
  destruct (rho_rejected rho); [intros ? ? ?; discriminate|].
  rewrite Hemp. cbn zeta.
  destruct (empirical_covariances_new _ _ _ _ _ _ _ _ Hemp) as [_ Hin].
  assert (Hne : alloc h1 <> emp).
  { intros E. apply (alloc_fresh h1 emp Hin). symmetry. exact E. }
  set (h' := <[alloc h1 := array3 (shape (h1 !!! emp)) (fun _ _ _ => 0)]> h1).
  destruct (default_init_spec nt h' (alloc h1) emp Hne) as (He & Hsh & Hval).
  cbn zeta in He, Hsh, Hval.
  set (h2 := default_init h' (alloc h1) emp nt) in *.
  assert (Hh' : h' !!! emp = h1 !!! emp).
  { unfold h'. apply lookup_total_insert_ne. exact Hne. }
  destruct (preallocate nv (h2 !!! alloc h1)) as [e|] eqn:Hpre;
    [intros ? ? ?; discriminate|].
  assert (He2 : h2 !!! emp = h1 !!! emp) by (rewrite He; exact Hh').
  assert (Hshape : shape (h2 !!! alloc h1) = shape (h2 !!! emp)).
  { rewrite Hsh, He2. unfold h'. rewrite lookup_total_insert_eq.
    reflexivity. }
  rewrite Hrho, (bool_decide_eq_true_2 _ Hshape). cbn [negb andb].
  cbn [out final_heap sweeps_done].
  match goal with
  | |- context [optimize _ _ _ _ _ _ _ _ _ ?s _ _] =>
      pose proof (fully_sparse_optimize (alloc h1) emp ns nt nv rv r h2 Hne
                    Hinv Hlog) as Hd;
      specialize (fun H1 H2 H3 H4 =>
                    Hd H1 H2 H3 H4 t return_costs rest s nil O Ht)
  end.
  cbn zeta in Hd. rewrite He2 in Hd.
  specialize (Hd Hvar Hns Hmax Hle).
  match type of Hd with
  | ?B -> _ => assert (Hs : B)
  end.
  { cbn [st_heap st_warnings]. split; [|split; [|split]].
    - rewrite Hsh, He2. unfold h'. rewrite lookup_total_insert_eq.
      reflexivity.
    - exact He2.
    - intros i j k Hi Hj Hk. rewrite Hval.
      destruct (Nat.ltb_spec k nt); [|lia]. rewrite Hh'. reflexivity.
    - reflexivity. }
  specialize (Hd Hs).
  destruct (pr_raised _) as [e|]; [intros ? ? ?; discriminate|].
  intros emp' omega costs [= <- <- Hcs].
  destruct (Hd eq_refl) as (Hsweeps & _ & objective & Hc & Hcosts).
  split; [exact Hsweeps|]. exists objective. split; [exact Hc|].
  rewrite <- Hcs. destruct return_costs; [|reflexivity].
  f_equal. exact Hcosts.
Qed.

(** *** The exact library on matrices of order 2 *)

Lemma det_order_2 (A : mat) :
  det 2 A = A 0%nat 0%nat * A 1%nat 1%nat - A 0%nat 1%nat * A 1%nat 0%nat.
Proof.
  cbn [det rsum pow]. unfold skip. cbn [Nat.ltb Nat.leb]. ring.
Qed.

Lemma cofactor_inv_order_2 (A B : mat) :
  cofactor_inv 2 A = Some B ->
  det 2 A <> 0 /\
  B 0%nat 0%nat = A 1%nat 1%nat / det 2 A /\
  B 0%nat 1%nat = - A 0%nat 1%nat / det 2 A /\
  B 1%nat 0%nat = - A 1%nat 0%nat / det 2 A /\
  B 1%nat 1%nat = A 0%nat 0%nat / det 2 A.
Proof.
  unfold cofactor_inv.
  destruct (Req_dec_T (det 2 A) 0) as [E|E]; [discriminate|].
  intros [= <-]. split; [exact E|].
  rewrite det_order_2 in *.
  repeat split; cbn [Nat.add Nat.sub det rsum pow]; unfold skip;
    cbn [Nat.ltb Nat.leb]; field;
    intros Hz; apply E; rewrite <- Hz; ring.
Qed.

Lemma exact_inverse_order_2 (A B : mat) :
  @linalg_inv exact_library 2 A = Some B -> inverse_of 2 A B.
Proof.
  intros H. destruct (cofactor_inv_order_2 A B H)
    as (Hdet & H00 & H01 & H10 & H11).
  rewrite det_order_2 in *.
  split; intros i j Hi Hj;
    destruct i as [|[|i]]; try lia; destruct j as [|[|j]]; try lia;
    unfold matmul, eye; cbn [rsum Nat.eqb];
    rewrite ?H00, ?H01, ?H10, ?H11; field;
    intros Hz; apply Hdet; rewrite <- Hz; ring.
Qed.

Lemma spd_order_2_det (A : mat) : spd 2 A -> 0 < det 2 A.
Proof.
  intros [Hsym Hpd]. rewrite det_order_2.
  assert (H01 : A 1%nat 0%nat = A 0%nat 1%nat).
  { symmetry. apply Hsym; lia. }
  assert (H0 : 0 < A 0%nat 0%nat).
  { pose proof (Hpd (fun i => if (i =? 0)%nat then 1 else 0)) as H.
    unfold quad_form in H. cbn [rsum Nat.eqb] in H.
    assert (Hx : exists i, (i < 2)%nat /\
                   (if (i =? 0)%nat then 1 else 0) <> 0).
    { exists 0%nat. split; [lia|]. cbn. lra. }
    specialize (H Hx). lra. }
  pose proof (Hpd (fun i => if (i =? 0)%nat then - A 0%nat 1%nat
                            else A 0%nat 0%nat)) as H.
  unfold quad_form in H. cbn [rsum Nat.eqb] in H.
  assert (Hx : exists i, (i < 2)%nat /\
                 (if (i =? 0)%nat then - A 0%nat 1%nat
                  else A 0%nat 0%nat) <> 0).
  { exists 1%nat. split; [lia|]. cbn. lra. }
  specialize (H Hx). rewrite H01 in *. nra.
Qed.

Lemma exact_logdet_order_2 (A B : mat) :
  spd 2 A -> inverse_of 2 A B ->
  @fast_logdet exact_library 2 B
  = - @fast_logdet exact_library 2 A.
Proof.
  intros Hspd [HAB _]. cbn [fast_logdet exact_library].
  pose proof (spd_order_2_det A Hspd) as Hpos.
  assert (Hprod : det 2 A * det 2 B = 1).
  { rewrite !det_order_2.
    pose proof (HAB 0%nat 0%nat ltac:(lia) ltac:(lia)) as H00.
    pose proof (HAB 0%nat 1%nat ltac:(lia) ltac:(lia)) as H01.
    pose proof (HAB 1%nat 0%nat ltac:(lia) ltac:(lia)) as H10.
    pose proof (HAB 1%nat 1%nat ltac:(lia) ltac:(lia)) as H11.
    unfold matmul, eye in H00, H01, H10, H11.
    cbn [rsum Nat.eqb] in H00, H01, H10, H11.
    replace ((A 0%nat 0%nat * A 1%nat 1%nat - A 0%nat 1%nat * A 1%nat 0%nat)
             * (B 0%nat 0%nat * B 1%nat 1%nat
                - B 0%nat 1%nat * B 1%nat 0%nat))
      with ((0 + A 0%nat 0%nat * B 0%nat 0%nat + A 0%nat 1%nat * B 1%nat 0%nat)
            * (0 + A 1%nat 0%nat * B 0%nat 1%nat
               + A 1%nat 1%nat * B 1%nat 1%nat)
            - (0 + A 0%nat 0%nat * B 0%nat 1%nat
               + A 0%nat 1%nat * B 1%nat 1%nat)
              * (0 + A 1%nat 0%nat * B 0%nat 0%nat
                 + A 1%nat 1%nat * B 1%nat 0%nat)) by ring.
    rewrite H00, H01, H10, H11. ring. }
  replace (det 2 B) with (/ det 2 A).
  - apply ln_Rinv. exact Hpos.
  - apply Rmult_eq_reg_l with (det 2 A); [|lra].
    rewrite Hprod. field. lra.
Qed.

Lemma spd_test_order_2 (B : mat) :
  B 0%nat 1%nat = B 1%nat 0%nat -> 0 < B 0%nat 0%nat -> 0 < det 2 B ->
  spd_test 2 B = true.
Proof.
  intros Hsym H0 Hdet. unfold spd_test.
  cbn [seq forallb andb]. rewrite det_order_1.
  destruct (Req_dec_T (B 0%nat 0%nat) (B 0%nat 0%nat)) as [_|Hn];
    [|exfalso; apply Hn; reflexivity].
  destruct (Req_dec_T (B 0%nat 1%nat) (B 1%nat 0%nat)) as [_|Hn];
    [|exfalso; apply Hn; exact Hsym].
  destruct (Req_dec_T (B 1%nat 0%nat) (B 0%nat 1%nat)) as [_|Hn];
    [|exfalso; apply Hn; symmetry; exact Hsym].
  destruct (Req_dec_T (B 1%nat 1%nat) (B 1%nat 1%nat)) as [_|Hn];
    [|exfalso; apply Hn; reflexivity].
  destruct (Rlt_dec 0 (B 0%nat 0%nat)) as [_|Hn]; [|contradiction].
  destruct (Rlt_dec 0 (det 2 B)) as [_|Hn]; [|contradiction].
  reflexivity.
Qed.

(** The cost evaluator's loop returns, in exact arithmetic, on diagonal
    matrices of order 2 with positive entries. *)
Lemma dual_point_diagonal_2 (n_tasks : nat) (n_samples : vec)
    (omega emp_covs : stack) (d : R) :
  0 < d ->
  (forall i j k, (i < 2)%nat -> (j < 2)%nat -> (k < n_tasks)%nat ->
     omega i j k = if (i =? j)%nat then d else 0) ->
  exists A,
    dual_point (L := exact_library) 2 n_samples omega emp_covs n_tasks
      (fun _ _ _ => 0) = Return A.
Proof.
  intros Hd. induction n_tasks as [|n IH]; intros Hval.
  - eexists. reflexivity.
  - destruct IH as [A' HA'].
    { intros i j k Hi Hj Hk. apply Hval; lia. }
    cbn [dual_point]. rewrite HA'.
    assert (H00 : slice omega n 0%nat 0%nat = d)
      by (unfold slice; rewrite Hval by lia; reflexivity).
    assert (H01 : slice omega n 0%nat 1%nat = 0)
      by (unfold slice; rewrite Hval by lia; reflexivity).
    assert (H10 : slice omega n 1%nat 0%nat = 0)
      by (unfold slice; rewrite Hval by lia; reflexivity).
    assert (H11 : slice omega n 1%nat 1%nat = d)
      by (unfold slice; rewrite Hval by lia; reflexivity).
    assert (Hdet : det 2 (slice omega n) = d * d).
    { rewrite det_order_2, H00, H01, H10, H11. ring. }
    cbn [linalg_inv exact_library].
    destruct (cofactor_inv 2 (slice omega n)) as [B|] eqn:HB.
    + destruct (cofactor_inv_order_2 _ _ HB)
        as (_ & B00 & B01 & B10 & B11).
      rewrite Hdet in B00, B01, B10, B11.
      rewrite H11 in B00. rewrite H01 in B01. rewrite H10 in B10.
      rewrite H00 in B11.
      cbn [is_spd exact_library].
      rewrite (spd_test_order_2 B).
      * eexists. reflexivity.
      * rewrite B01, B10. reflexivity.
      * rewrite B00. apply Rdiv_lt_0_compat; nra.
      * rewrite det_order_2, B00, B01, B10, B11.
        replace (d / (d * d) * (d / (d * d))
                 - - 0 / (d * d) * (- 0 / (d * d)))
          with (/ d * / d) by (field; lra).
        assert (0 < / d) by (apply Rinv_0_lt_compat; exact Hd). nra.
    + exfalso. unfold cofactor_inv in HB. rewrite Hdet in HB.
      destruct (Req_dec_T (d * d) 0) as [E|_]; [nra|discriminate].
Qed.

Lemma demo_weights (k : nat) :
  (k < 2)%nat ->
  normalize 2 (sample_counts demo_heap demo_tasks) k = 1 / 2.
Proof.
  intros Hk. unfold normalize, demo_tasks. cbn [rsum]. unfold sample_counts.
  destruct k as [|[|k]]; try lia; cbn [map nth];
    replace (dim (demo_heap !!! 1%positive) 0) with 2%nat by reflexivity;
    replace (dim (demo_heap !!! 2%positive) 0) with 2%nat by reflexivity;
    simpl; lra.
Qed.

Lemma demo_run_tol_returns :
  exists (emp omega : positive) (costs : option (list (R * R))),
    out demo_run_tol = Returned emp omega costs.
Proof.
  destruct demo_initial_state
    as (h2 & emp & omega & ns & Hinit & Hne & Hsh & Hemp & Homega).
  destruct (rho_max_least 2 2 (as_stack (h2 !!! emp)) ns 10 ltac:(lia)
              ltac:(lra)) as (r & Hmax & Hle).
  { intros i j Hi Hj Hij.
    rewrite (rsum_ext 2 _ (fun _ => 0)), rsum_zero, sqrt_0; [lra|].
    intros k Hk. rewrite (Hemp k i j Hk Hi Hj).
    destruct (Nat.eqb_spec i j); [contradiction|]. ring. }
  unfold demo_run_tol, group_sparse_covariance. rewrite Hinit.
  cbn [rho_real]. rewrite (bool_decide_eq_true_2 _ Hsh). cbn [negb andb].
  set (s0 := {| st_heap := h2; st_W := fun _ _ _ => 0;
                st_Winv := fun _ _ _ => 0; st_warnings := O |}).
  pose proof (fully_sparse_sweep omega emp ns 2 2 10 r h2 Hne Hmax Hle s0)
    as Hsw.
  destruct (two_variables_sweep omega emp ns 2 10 (1 / 2) h2 Hne Hsh
              ltac:(lra) ltac:(lra) Hemp Homega) as [[s2 Hsweep] _].
  fold s0 in Hsweep. cbn [optimize]. rewrite Hsweep in Hsw |- *.
  destruct Hsw as (_ & He2 & Hv2 & _).
  { split; [exact Hsh|]. split; [reflexivity|]. split; [|reflexivity].
    intros i j k Hi Hj Hk. cbn [st_heap s0].
    rewrite (Homega k i j Hk Hi Hj).
    destruct (Nat.eqb_spec i j) as [->|_]; [|reflexivity].
    rewrite (Hemp k j j Hk Hj Hj), Nat.eqb_refl. reflexivity. }
  destruct (dual_point_diagonal_2 2 ns (as_stack (st_heap s2 !!! omega))
              (as_stack (st_heap s2 !!! emp)) (1 / (1 / 2)) ltac:(lra))
    as [A HA].
  { intros i j k Hi Hj Hk. rewrite (Hv2 i j k Hi Hj Hk).
    destruct (Nat.eqb_spec i j) as [->|_]; [|reflexivity].
    rewrite (Hemp k j j Hk Hj Hj), Nat.eqb_refl. reflexivity. }
  cbn [orb]. unfold group_sparse_covariance_costs. rewrite HA.
  destruct (Rlt_dec _ _); cbn; eexists _, _, _; reflexivity.
Qed.

Lemma one_sweep_above_rho_max_witness :
  exists (emp omega : positive) (objective : R),
    out demo_run_tol = Returned emp omega (Some ((objective, 0) :: nil)) /\
    sweeps_done demo_run_tol = 1%nat.
Proof.
  pose proof (empirical_covariances_returns demo_heap 1%positive
                (2%positive :: nil) true 2 demo_tasks_features) as Hemp.
  cbn [length] in Hemp.
  match type of Hemp with
  | _ = (?hh, Return (?e, ?n, _, _)) =>
      set (h1 := hh) in *; set (emp := e) in *; set (ns := n) in *
  end.
  assert (Hval : forall k i j, (k < 2)%nat -> (i < 2)%nat -> (j < 2)%nat ->
            as_stack (h1 !!! emp) i j k = if (i =? j)%nat then 1 / 2 else 0).
  { intros k i j Hk Hi Hj. unfold h1, emp.
    etransitivity;
      [exact (covariances_value demo_heap 1%positive (2%positive :: nil)
                true 2 demo_tasks_stored ltac:(lia) k Hk i j)|].
    change (nth k (1%positive :: 2%positive :: nil) 1%positive)
      with (nth k demo_tasks 1%positive).
    rewrite (demo_task_matrix k Hk). apply demo_covariance; assumption. }
  destruct (rho_max_least 2 2 (as_stack (h1 !!! emp)) ns 10 ltac:(lia)
              ltac:(lra)) as (r & Hmax & Hle).
  { intros i j Hi Hj Hij.
    rewrite (rsum_ext 2 _ (fun _ => 0)), rsum_zero, sqrt_0; [lra|].
    intros k Hk. rewrite (Hval k i j Hk Hi Hj).
    destruct (Nat.eqb_spec i j); [contradiction|]. ring. }
  destruct demo_run_tol_returns as (emp' & omega & costs & Hout).
  destruct (one_sweep_above_rho_max (L := exact_library) demo_heap h1
              (TaskSeq demo_tasks) (PyInt 10) 10 r (1 / 10000) 0 true true
              emp ns 2 2 Hemp eq_refl Hmax Hle ltac:(lra)
              exact_inverse_order_2 exact_logdet_order_2)
    with (emp' := emp') (omega := omega) (costs := costs)
    as (Hsweeps & objective & _ & Hcosts).
  - intros i k Hi Hk. rewrite (Hval k i i Hk Hi Hi), Nat.eqb_refl. lra.
  - intros k Hk. unfold ns.
    change (1%positive :: 2%positive :: nil) with demo_tasks.
    rewrite (demo_weights k Hk). lra.
  - exact Hout.
  - exists emp', omega, objective. split; [|exact Hsweeps].
    rewrite Hout, Hcosts. reflexivity.
Defined.
